(** * FOEDUS transactional core and snapshot pipeline: a shallow embedding

    The development follows the C++ sources
    - [foedus/xct/xct.hpp]                      (module [Xct])
    - [foedus/storage/composer.hpp]             (module [Composer])
    - [foedus/snapshot/mapreduce_base_impl.cpp] (module [MapReduceBase])
    - [foedus/snapshot/snapshot_options.cpp]    (module [SnapshotOptions])
    - [tests-core/.../array/test_array_tpcb.cpp](module [Tpcb])

    Part I holds the definitions, Part II the properties.  Fixed-width
    integers are integers of [Z] with the wrap-around written where the C++
    arithmetic wraps. *)

From Stdlib Require Import ZArith List Bool Lia String Ascii Permutation FinFun.
From Stdlib Require Import DecimalString DecimalZ DecimalPos.
Import ListNotations.
Local Open Scope Z_scope.

(* ================================================================== *)
(** * Part I: definitions                                              *)
(* ================================================================== *)

(** ** Fixed-width arithmetic *)

Definition wrap32 (z : Z) : Z := z mod 2 ^ 32.
Definition wrap64 (z : Z) : Z := z mod 2 ^ 64.
Definition is_uint32 (z : Z) : Prop := 0 <= z < 2 ^ 32.

(** The signed 64-bit value of an integer ([int64_t] arithmetic). *)
Definition wrap_int64 (z : Z) : Z := (z + 2 ^ 63) mod 2 ^ 64 - 2 ^ 63.

(** Arithmetic of [int], taken as two's complement of 32 bits. *)
Definition wrap_int32 (z : Z) : Z := (z + 2 ^ 31) mod 2 ^ 32 - 2 ^ 31.

(** ** Arrays *)

(** Writes [v] into cell [i] of an array.  Every caller checks the index
    first; a write past the end would change nothing here. *)
Fixpoint array_store {A : Type} (l : list A) (i : nat) (v : A) : list A :=
  match l, i with
  | [], _ => []
  | _ :: t, O => v :: t
  | h :: t, S j => h :: array_store t j v
  end.

(** The sum of a column of an array. *)
Definition sum_by {A : Type} (f : A -> Z) (l : list A) : Z :=
  fold_right (fun a acc => f a + acc) 0 l.

(** ** Epoch (foedus/epoch.hpp, whose text is not part of the sources) *)

Module Epoch.

(** Modelled from the spec: the class [Epoch] of foedus/epoch.hpp is missing.
    "32-bit cyclic counter with invalid and initial reserved values";
    "a reserved INVALID = 0". *)
Definition Epoch := Z.
Definition kEpochInvalid : Epoch := 0.
Definition kEpochIntOverflow : Z := 2 ^ 32.
Definition kEpochIntHalf : Z := 2 ^ 31.

Definition is_valid (e : Epoch) : bool := negb (e =? kEpochInvalid).

(** Modelled from the spec: the distance walked forward on the circle from
    [a] to [b], "(b - a) mod 2^32". *)
Definition distance (a b : Epoch) : Z := (b - a) mod kEpochIntOverflow.

(** Modelled from the spec: "a.before(b) holds iff (b - a) mod 2^32 is in
    (0, 2^31)". *)
Definition before (a b : Epoch) : bool :=
  (0 <? distance a b) && (distance a b <? kEpochIntHalf).

(** [a > b] on epochs is [b.before(a)]. *)
Definition after (a b : Epoch) : bool := before b a.

(** Modelled from the spec: "store_max(a,b) picks the after one by this
    ordering".  [store_max a b] is the value of [a] after [a.store_max(b)]. *)
Definition store_max (a b : Epoch) : Epoch := if before a b then b else a.

(** Modelled from the spec: "monotone add_1" over a counter whose value 0 is
    reserved: the successor skips the invalid value when the counter wraps. *)
Definition one_more (e : Epoch) : Epoch :=
  if e + 1 =? kEpochIntOverflow then 1 else e + 1.

(** All epochs a computation compares lie on one half of the circle, starting
    at [base]: there the cyclic comparison is a linear order. *)
Definition in_window (base e : Epoch) : Prop := distance base e < kEpochIntHalf.

End Epoch.

(** ** Composer::DropResult (foedus/storage/composer.hpp) *)

Module Composer.

(** [snapshot::Snapshot], of which the composer reads [valid_until_epoch_]. *)
Record Snapshot := {
  valid_until_epoch_ : Epoch.Epoch
}.

(** [Composer::DropVolatilesArguments]; the chunk and counter pointers play no
    part in [DropResult]. *)
Record DropVolatilesArguments := {
  snapshot_ : Snapshot;
  my_partition_ : Z;
  partitioned_drop_ : bool
}.

(** [Composer::DropResult]. *)
Record DropResult := {
  max_observed_ : Epoch.Epoch;
  dropped_all_ : bool
}.

(** [explicit DropResult(const DropVolatilesArguments& args)]. *)
Definition DropResult_new (args : DropVolatilesArguments) : DropResult :=
  {| max_observed_ := valid_until_epoch_ (snapshot_ args);
     dropped_all_ := true |}.

(** [void combine(const DropResult& other)]: the receiver after the call. *)
Definition combine (this other : DropResult) : DropResult :=
  {| max_observed_ := Epoch.store_max (max_observed_ this) (max_observed_ other);
     dropped_all_ := dropped_all_ this && dropped_all_ other |}.

(** [void on_rec_observed(Epoch epoch)]: the receiver after the call. *)
Definition on_rec_observed (this : DropResult) (epoch : Epoch.Epoch) : DropResult :=
  if Epoch.after epoch (max_observed_ this)
  then {| max_observed_ := epoch; dropped_all_ := false |}
  else this.

(** The calls that update a [DropResult] after its construction. *)
Inductive DropUpdate :=
| OnRecObserved (epoch : Epoch.Epoch)
| Combine (other : DropResult).

Definition apply_update (r : DropResult) (u : DropUpdate) : DropResult :=
  match u with
  | OnRecObserved epoch => on_rec_observed r epoch
  | Combine other => combine r other
  end.

Definition apply_updates (us : list DropUpdate) (r : DropResult) : DropResult :=
  fold_left apply_update us r.

(** The documented meaning of the two fields (comment on [max_observed_]):
    the epoch is never before the snapshot's [valid_until_epoch_], and a
    result that saw a newer epoch did not drop everything. *)
Definition drop_invariant (args : DropVolatilesArguments) (r : DropResult) : Prop :=
  Epoch.before (max_observed_ r) (valid_until_epoch_ (snapshot_ args)) = false /\
  (Epoch.after (max_observed_ r) (valid_until_epoch_ (snapshot_ args)) = true ->
   dropped_all_ r = false).

(** The inductive form of [drop_invariant], on offsets inside the window that
    starts at [base]. *)
Definition window_invariant (args : DropVolatilesArguments) (base : Epoch.Epoch)
    (r : DropResult) : Prop :=
  Epoch.in_window base (max_observed_ r) /\
  Epoch.distance base (valid_until_epoch_ (snapshot_ args))
    <= Epoch.distance base (max_observed_ r) /\
  (Epoch.distance base (valid_until_epoch_ (snapshot_ args))
     < Epoch.distance base (max_observed_ r) -> dropped_all_ r = false).

(** What the window asks of an update, and what the invariant asks of a
    [combine] operand. *)
Definition update_in_window (base : Epoch.Epoch) (u : DropUpdate) : Prop :=
  match u with
  | OnRecObserved epoch => Epoch.in_window base epoch
  | Combine other => Epoch.in_window base (max_observed_ other)
  end.

Definition operand_ok (args : DropVolatilesArguments) (u : DropUpdate) : Prop :=
  match u with
  | OnRecObserved _ => True
  | Combine other => drop_invariant args other
  end.

(** A result as [drop_volatiles] hands it out for [args]: its epoch is a 32-bit
    value that is [valid_until_epoch_] or after it. *)
Definition result_of (args : DropVolatilesArguments) (r : DropResult) : Prop :=
  is_uint32 (max_observed_ r) /\
  (max_observed_ r = valid_until_epoch_ (snapshot_ args) \/
   Epoch.after (max_observed_ r) (valid_until_epoch_ (snapshot_ args)) = true).

(** "No new modifications": the test the comment on [max_observed_] gives for
    dropping a page. *)
Definition no_new_modifications (args : DropVolatilesArguments) (r : DropResult) : bool :=
  (max_observed_ r =? valid_until_epoch_ (snapshot_ args)) && dropped_all_ r.

(** The results of the partitions of one storage, combined into a fresh
    result. *)
Definition combine_all (args : DropVolatilesArguments) (rs : list DropResult) : DropResult :=
  fold_left combine rs (DropResult_new args).

(** Modelled from the spec: the caller of [drop_root_volatile] is missing
    (the snapshot manager).  "A root volatile page is dropped only when every
    partition returned no new modifications (max_observed ==
    valid_until_epoch && dropped_all)". *)
Definition drops_root_volatile (args : DropVolatilesArguments)
    (partition_results : list DropResult) : bool :=
  forallb (no_new_modifications args) partition_results.

(** The result that stands for an update: the operand of a [combine], and for
    [on_rec_observed] the fresh result that observed the one epoch. *)
Definition operand_of (args : DropVolatilesArguments) (u : DropUpdate) : DropResult :=
  match u with
  | OnRecObserved epoch => on_rec_observed (DropResult_new args) epoch
  | Combine other => other
  end.

(** An update whose epoch is a 32-bit value in the window that starts at
    [base], its operand with the two properties of the fields. *)
Definition update_ok (args : DropVolatilesArguments) (base : Epoch.Epoch)
    (u : DropUpdate) : Prop :=
  match u with
  | OnRecObserved epoch => is_uint32 epoch /\ Epoch.in_window base epoch
  | Combine other =>
      is_uint32 (max_observed_ other) /\ window_invariant args base other
  end.

End Composer.

(** ** Xct (foedus/xct/xct.hpp) *)

Module Xct.

(** The error codes the methods of [Xct] return (foedus/error_code.hpp).
    [kErrorCodeXctTooManyReads] is the spec's XCT_TOO_MANY_READS. *)
Inductive ErrorCode :=
| kErrorCodeOk
| kErrorCodeXctTooManyReads
| kErrorCodeXctNoMoreLocalWorkMemory.

Inductive IsolationLevel := kSnapshot | kSerializable.

(** *** XctId *)

(** Modelled from the spec: foedus/xct/xct_id.hpp is missing.  "Fields:
    epoch (32), in-epoch ordinal (24), status bits"; the status bits take no
    part in the order. *)
Record XctId := {
  epoch_ : Epoch.Epoch;
  ordinal_ : Z
}.

(** The largest 24-bit ordinal. *)
Definition kMaxXctOrdinal : Z := 2 ^ 24 - 1.

Definition XctId_is_valid (i : XctId) : bool := Epoch.is_valid (epoch_ i).

(** Modelled from the spec: "before(a,b) compares lexicographically on
    (epoch, ordinal)". *)
Definition XctId_before (a b : XctId) : bool :=
  Epoch.before (epoch_ a) (epoch_ b) ||
  ((epoch_ a =? epoch_ b) && (ordinal_ a <? ordinal_ b)).

Definition XctId_store_max (a b : XctId) : XctId :=
  if XctId_before a b then b else a.

(** A well-formed id: a 32-bit epoch and a 24-bit ordinal. *)
Definition XctId_wf (i : XctId) : Prop :=
  is_uint32 (epoch_ i) /\ 0 <= ordinal_ i <= kMaxXctOrdinal.

(** *** Lock lists *)

(** Modelled from the spec: foedus/xct/retrospective_lock_list.hpp is
    missing.  "CLL is an ordered vector with one entry per (lockable,
    desired_mode, current_mode)"; the RLL is the "lock set surviving from the
    previous abort". *)
Inductive LockMode := kNoLock | kReadLock | kWriteLock.

Definition UniversalLockId := Z.

Record RetrospectiveLock := {
  rll_lock_id_ : UniversalLockId;
  rll_mode_ : LockMode
}.

Record CurrentLock := {
  cll_lock_id_ : UniversalLockId;
  desired_mode_ : LockMode;
  current_mode_ : LockMode
}.

Definition RetrospectiveLockList := list RetrospectiveLock.
Definition CurrentLockList := list CurrentLock.

Definition RetrospectiveLockList_is_empty (rll : RetrospectiveLockList) : bool :=
  match rll with [] => true | _ :: _ => false end.

Definition clear_entries (cll : CurrentLockList) : CurrentLockList := [].

(** Modelled from the spec: "CLL is pre-populated with CLL entries matching
    each RLL entry, in the same order, but not yet acquired". *)
Definition prepopulate_for_retrospective_lock_list
    (cll : CurrentLockList) (rll : RetrospectiveLockList) : CurrentLockList :=
  map (fun r => {| cll_lock_id_ := rll_lock_id_ r;
                   desired_mode_ := rll_mode_ r;
                   current_mode_ := kNoLock |}) rll.

(** A CLL entry stands for an RLL entry: same lock, same wanted mode. *)
Definition entry_matches (c : CurrentLock) (r : RetrospectiveLock) : Prop :=
  cll_lock_id_ c = rll_lock_id_ r /\ desired_mode_ c = rll_mode_ r.

(** *** The transaction object *)

(** [PointerAccess] and [PageVersionAccess] (foedus/xct/xct_access.hpp): an
    address and the value observed there. *)
Record PointerAccess := {
  pointer_address_ : Z;
  pointer_observed_ : Z
}.

Record PageVersionAccess := {
  version_address_ : Z;
  version_observed_ : Z
}.

(** The fields of [Xct] the modelled methods read or write.  The read, write
    and lock-free write sets are arrays with a size field; no modelled method
    touches their entries, so only the sizes are kept.
    [mcs_block_current_] is the cell the C++ pointer of that name points to. *)
Record Xct := {
  id_ : XctId;
  isolation_level_ : IsolationLevel;
  active_ : bool;
  mcs_block_current_ : Z;
  read_set_size_ : Z;
  write_set_size_ : Z;
  lock_free_write_set_size_ : Z;
  pointer_set_ : list PointerAccess;
  pointer_set_size_ : Z;
  page_version_set_ : list PageVersionAccess;
  page_version_set_size_ : Z;
  current_lock_list_ : CurrentLockList;
  retrospective_lock_list_ : RetrospectiveLockList;
  local_work_memory_ : Z;
  local_work_memory_size_ : Z;
  local_work_memory_cur_ : Z
}.

(** [enum Constants]. *)
Definition kMaxPointerSets : Z := 1024.
Definition kMaxPageVersionSets : Z := 1024.

(** The entries a set holds: the first [size] cells of its array. *)
Definition get_pointer_set (x : Xct) : list PointerAccess :=
  firstn (Z.to_nat (pointer_set_size_ x)) (pointer_set_ x).
Definition get_page_version_set (x : Xct) : list PageVersionAccess :=
  firstn (Z.to_nat (page_version_set_size_ x)) (page_version_set_ x).

(** [void activate(IsolationLevel isolation_level)]; [ASSERT_ND(!active_)] is
    the precondition of the call. *)
Definition activate (x : Xct) (isolation_level : IsolationLevel) : Xct :=
  let cleared := clear_entries (current_lock_list_ x) in
  {| id_ := id_ x;
     isolation_level_ := isolation_level;
     active_ := true;
     mcs_block_current_ := 0;
     read_set_size_ := 0;
     write_set_size_ := 0;
     lock_free_write_set_size_ := 0;
     pointer_set_ := pointer_set_ x;
     pointer_set_size_ := 0;
     page_version_set_ := page_version_set_ x;
     page_version_set_size_ := 0;
     current_lock_list_ :=
       if negb (RetrospectiveLockList_is_empty (retrospective_lock_list_ x))
       then prepopulate_for_retrospective_lock_list cleared (retrospective_lock_list_ x)
       else cleared;
     retrospective_lock_list_ := retrospective_lock_list_ x;
     local_work_memory_ := local_work_memory_ x;
     local_work_memory_size_ := local_work_memory_size_ x;
     local_work_memory_cur_ := 0 |}.

(** [void remember_previous_xct_id(XctId new_id)]. *)
Definition remember_previous_xct_id (x : Xct) (new_id : XctId) : Xct :=
  {| id_ := new_id;
     isolation_level_ := isolation_level_ x;
     active_ := active_ x;
     mcs_block_current_ := mcs_block_current_ x;
     read_set_size_ := read_set_size_ x;
     write_set_size_ := write_set_size_ x;
     lock_free_write_set_size_ := lock_free_write_set_size_ x;
     pointer_set_ := pointer_set_ x;
     pointer_set_size_ := pointer_set_size_ x;
     page_version_set_ := page_version_set_ x;
     page_version_set_size_ := page_version_set_size_ x;
     current_lock_list_ := current_lock_list_ x;
     retrospective_lock_list_ := retrospective_lock_list_ x;
     local_work_memory_ := local_work_memory_ x;
     local_work_memory_size_ := local_work_memory_size_ x;
     local_work_memory_cur_ := local_work_memory_cur_ x |}.

(** The three [ASSERT_ND] of [remember_previous_xct_id]: the first reads the
    old [id_], the other two the new one. *)
Definition remember_previous_xct_id_asserts (x : Xct) (new_id : XctId) : bool :=
  XctId_before (id_ x) new_id && (0 <? ordinal_ new_id) && XctId_is_valid new_id.

(** Modelled from the spec: the body of [issue_next_id] (foedus/xct/xct.cpp)
    is missing.  "output XctId satisfies: strictly greater than id_, strictly
    greater than max_dep_xct_id, and in epoch (the provided lower-bound); if
    ordinal would overflow 24 bits, advance epoch by 1 and reset ordinal to
    1".  The id issued is the least one with these properties; the result
    pairs the transaction, whose [id_] is the new id, with the epoch handed
    back through the in-out argument. *)
Definition issue_next_id (x : Xct) (max_xct_id : XctId) (epoch : Epoch.Epoch)
    : Xct * Epoch.Epoch :=
  let largest := XctId_store_max (id_ x) max_xct_id in
  let base :=
    if Epoch.before (epoch_ largest) epoch
    then {| epoch_ := epoch; ordinal_ := 0 |}
    else largest in
  if kMaxXctOrdinal <=? ordinal_ base
  then
    let next_epoch := Epoch.one_more (epoch_ base) in
    (remember_previous_xct_id x {| epoch_ := next_epoch; ordinal_ := 1 |}, next_epoch)
  else
    (remember_previous_xct_id x
       {| epoch_ := epoch_ base; ordinal_ := ordinal_ base + 1 |},
     epoch_ base).

(** The ordinal is full for [epoch]: the larger of the two ids lies in
    [epoch] and holds the largest ordinal. *)
Definition ordinal_full (x : Xct) (max_xct_id : XctId) (epoch : Epoch.Epoch) : Prop :=
  (epoch_ (id_ x) = epoch /\ ordinal_ (id_ x) = kMaxXctOrdinal) \/
  (epoch_ max_xct_id = epoch /\ ordinal_ max_xct_id = kMaxXctOrdinal).

(** An id of the past of [epoch]: issued in [epoch] or at most [2^31 - 3]
    epochs before it. *)
Definition issued_by (epoch : Epoch.Epoch) (i : XctId) : Prop :=
  XctId_wf i /\ Epoch.distance (epoch_ i) epoch < Epoch.kEpochIntHalf - 2.

Definition set_pointer_set (x : Xct) (arr : list PointerAccess) (size : Z) : Xct :=
  {| id_ := id_ x;
     isolation_level_ := isolation_level_ x;
     active_ := active_ x;
     mcs_block_current_ := mcs_block_current_ x;
     read_set_size_ := read_set_size_ x;
     write_set_size_ := write_set_size_ x;
     lock_free_write_set_size_ := lock_free_write_set_size_ x;
     pointer_set_ := arr;
     pointer_set_size_ := size;
     page_version_set_ := page_version_set_ x;
     page_version_set_size_ := page_version_set_size_ x;
     current_lock_list_ := current_lock_list_ x;
     retrospective_lock_list_ := retrospective_lock_list_ x;
     local_work_memory_ := local_work_memory_ x;
     local_work_memory_size_ := local_work_memory_size_ x;
     local_work_memory_cur_ := local_work_memory_cur_ x |}.

Definition set_page_version_set (x : Xct) (arr : list PageVersionAccess) (size : Z) : Xct :=
  {| id_ := id_ x;
     isolation_level_ := isolation_level_ x;
     active_ := active_ x;
     mcs_block_current_ := mcs_block_current_ x;
     read_set_size_ := read_set_size_ x;
     write_set_size_ := write_set_size_ x;
     lock_free_write_set_size_ := lock_free_write_set_size_ x;
     pointer_set_ := pointer_set_ x;
     pointer_set_size_ := pointer_set_size_ x;
     page_version_set_ := arr;
     page_version_set_size_ := size;
     current_lock_list_ := current_lock_list_ x;
     retrospective_lock_list_ := retrospective_lock_list_ x;
     local_work_memory_ := local_work_memory_ x;
     local_work_memory_size_ := local_work_memory_size_ x;
     local_work_memory_cur_ := local_work_memory_cur_ x |}.

(** Modelled from the spec: the body of [add_to_pointer_set]
    (foedus/xct/xct.cpp) is missing.  "pointer_set and page_version_set each
    hold at most 1024 entries; exceeding returns XCT_TOO_MANY_READS"; an
    accepted entry is appended. *)
Definition add_to_pointer_set (x : Xct) (pointer_address observed : Z)
    : ErrorCode * Xct :=
  if kMaxPointerSets <=? pointer_set_size_ x
  then (kErrorCodeXctTooManyReads, x)
  else
    (kErrorCodeOk,
     set_pointer_set x
       (array_store (pointer_set_ x) (Z.to_nat (pointer_set_size_ x))
          {| pointer_address_ := pointer_address; pointer_observed_ := observed |})
       (pointer_set_size_ x + 1)).

(** Modelled from the spec: the body of [add_to_page_version_set]
    (foedus/xct/xct.cpp) is missing; see [add_to_pointer_set]. *)
Definition add_to_page_version_set (x : Xct) (version_address observed : Z)
    : ErrorCode * Xct :=
  if kMaxPageVersionSets <=? page_version_set_size_ x
  then (kErrorCodeXctTooManyReads, x)
  else
    (kErrorCodeOk,
     set_page_version_set x
       (array_store (page_version_set_ x) (Z.to_nat (page_version_set_size_ x))
          {| version_address_ := version_address; version_observed_ := observed |})
       (page_version_set_size_ x + 1)).

(** The calls that grow the two sets, and a run of them. *)
Inductive SetCall :=
| AddToPointerSet (pointer_address observed : Z)
| AddToPageVersionSet (version_address observed : Z).

Definition do_call (x : Xct) (c : SetCall) : ErrorCode * Xct :=
  match c with
  | AddToPointerSet a o => add_to_pointer_set x a o
  | AddToPageVersionSet a o => add_to_page_version_set x a o
  end.

Definition do_calls (cs : list SetCall) (x : Xct) : Xct :=
  fold_left (fun x c => snd (do_call x c)) cs x.

(** The arrays are allocated with room for the two bounds. *)
Definition sets_allocated (x : Xct) : Prop :=
  Z.of_nat (List.length (pointer_set_ x)) = kMaxPointerSets /\
  Z.of_nat (List.length (page_version_set_ x)) = kMaxPageVersionSets.

(** What every call keeps: the sizes stay within the bounds and the arrays
    keep their length. *)
Definition sets_bounded (x : Xct) : Prop :=
  0 <= pointer_set_size_ x <= kMaxPointerSets /\
  0 <= page_version_set_size_ x <= kMaxPageVersionSets /\
  sets_allocated x.

(** A transaction object for the examples, with [work_memory_size] bytes of
    work memory at address [work_memory]: not active, empty lock lists, the
    two arrays as long as their bounds. *)
Definition initialized_xct (work_memory work_memory_size : Z) : Xct :=
  {| id_ := {| epoch_ := 1; ordinal_ := 0 |};
     isolation_level_ := kSerializable;
     active_ := false;
     mcs_block_current_ := 0;
     read_set_size_ := 0;
     write_set_size_ := 0;
     lock_free_write_set_size_ := 0;
     pointer_set_ :=
       repeat {| pointer_address_ := 0; pointer_observed_ := 0 |} 1024;
     pointer_set_size_ := 0;
     page_version_set_ :=
       repeat {| version_address_ := 0; version_observed_ := 0 |} 1024;
     page_version_set_size_ := 0;
     current_lock_list_ := [];
     retrospective_lock_list_ := [];
     local_work_memory_ := work_memory;
     local_work_memory_size_ := work_memory_size;
     local_work_memory_cur_ := 0 |}.

(** [get_retrospective_lock_list] hands out a pointer to the RLL; the
    transaction manager fills the list through it when a transaction aborts. *)
Definition set_retrospective_lock_list (x : Xct) (rll : RetrospectiveLockList) : Xct :=
  {| id_ := id_ x;
     isolation_level_ := isolation_level_ x;
     active_ := active_ x;
     mcs_block_current_ := mcs_block_current_ x;
     read_set_size_ := read_set_size_ x;
     write_set_size_ := write_set_size_ x;
     lock_free_write_set_size_ := lock_free_write_set_size_ x;
     pointer_set_ := pointer_set_ x;
     pointer_set_size_ := pointer_set_size_ x;
     page_version_set_ := page_version_set_ x;
     page_version_set_size_ := page_version_set_size_ x;
     current_lock_list_ := current_lock_list_ x;
     retrospective_lock_list_ := rll;
     local_work_memory_ := local_work_memory_ x;
     local_work_memory_size_ := local_work_memory_size_ x;
     local_work_memory_cur_ := local_work_memory_cur_ x |}.

Definition set_local_work_memory_cur (x : Xct) (cur : Z) : Xct :=
  {| id_ := id_ x;
     isolation_level_ := isolation_level_ x;
     active_ := active_ x;
     mcs_block_current_ := mcs_block_current_ x;
     read_set_size_ := read_set_size_ x;
     write_set_size_ := write_set_size_ x;
     lock_free_write_set_size_ := lock_free_write_set_size_ x;
     pointer_set_ := pointer_set_ x;
     pointer_set_size_ := pointer_set_size_ x;
     page_version_set_ := page_version_set_ x;
     page_version_set_size_ := page_version_set_size_ x;
     current_lock_list_ := current_lock_list_ x;
     retrospective_lock_list_ := retrospective_lock_list_ x;
     local_work_memory_ := local_work_memory_ x;
     local_work_memory_size_ := local_work_memory_size_ x;
     local_work_memory_cur_ := cur |}.

(** The rounding of the [uint32_t size]: the arithmetic wraps at 32 bits. *)
Definition rounded_size (size alignment : Z) : Z :=
  if negb (size mod alignment =? 0)
  then wrap32 (wrap32 (size / alignment + 1) * alignment)
  else size.

(** The rounding of the [uint64_t begin]: the arithmetic wraps at 64 bits. *)
Definition rounded_begin (begin alignment : Z) : Z :=
  if negb (begin mod alignment =? 0)
  then wrap64 (wrap64 (begin / alignment + 1) * alignment)
  else begin.

(** [ErrorCode acquire_local_work_memory(uint32_t size, void** out,
    uint32_t alignment = 8)].  The result is the error code, the transaction
    after the call and the address stored through [out], if one is stored.
    [alignment] is not 0 (the C++ remainder is undefined there). *)
Definition acquire_local_work_memory (x : Xct) (size alignment : Z)
    : ErrorCode * Xct * option Z :=
  let size := rounded_size size alignment in
  let begin := rounded_begin (local_work_memory_cur_ x) alignment in
  if local_work_memory_size_ x <? wrap64 (size + begin)
  then (kErrorCodeXctNoMoreLocalWorkMemory, x, None)
  else (kErrorCodeOk,
        set_local_work_memory_cur x (wrap64 (size + begin)),
        Some (local_work_memory_ x + begin)).

(** The least multiple of [alignment] that is at least [n]: the
    alignment-rounded value, without any wrap. *)
Definition round_up (n alignment : Z) : Z :=
  if n mod alignment =? 0 then n else (n / alignment + 1) * alignment.

(** The calls of [acquire_local_work_memory] that one transaction makes, in
    order, each request a pair (size, alignment).  The result is the
    transaction after the last call and, for every call that returned
    [kErrorCodeOk], the address stored through [out] with the size that was
    asked for: the block of bytes the caller goes on to use. *)
Fixpoint acquire_all (x : Xct) (requests : list (Z * Z)) : Xct * list (Z * Z) :=
  match requests with
  | [] => (x, [])
  | (size, alignment) :: rest =>
      match acquire_local_work_memory x size alignment with
      | (kErrorCodeOk, x', Some out) =>
          let (x'', blocks) := acquire_all x' rest in (x'', (out, size) :: blocks)
      | (_, x', _) => acquire_all x' rest
      end
  end.

(** What the types of a request say: two [uint32_t], the alignment not 0. *)
Definition request_ok (request : Z * Z) : Prop :=
  is_uint32 (fst request) /\ is_uint32 (snd request) /\ snd request <> 0.

(** A request whose alignment-rounded size fits the [uint32_t] it is
    computed in. *)
Definition request_fits (request : Z * Z) : Prop :=
  request_ok request /\ round_up (fst request) (snd request) < 2 ^ 32.

(** The block [first] ends where the block [second] begins, or before. *)
Definition block_before (first second : Z * Z) : Prop :=
  fst first + snd first <= fst second.

(** The block lies in the transaction's work memory. *)
Definition block_inside (x : Xct) (block : Z * Z) : Prop :=
  local_work_memory_ x <= fst block /\
  fst block + snd block <= local_work_memory_ x + local_work_memory_size_ x.

(** The fields of [ReadXctAccess] and [WriteXctAccess] that
    [assert_related_read_write] reads.  A pointer into the read set or the
    write set is its offset, in entries, from the first entry of the set,
    which may lie before the set or past its end; the null pointer is
    [None]. *)
Record ReadXctAccess := {
  read_owner_id_address_ : Z;
  related_write_ : option Z
}.

Record WriteXctAccess := {
  write_owner_id_address_ : Z;
  related_read_ : option Z
}.

(** The four [ASSERT_ND] of the first loop on the write at index [i], and of
    the second loop on the read at index [i]: [Some true] when all hold,
    [Some false] when one fails.  The index is the pointer difference cut to
    [uint32_t]; the last two read through the pointer itself, and reading
    through a pointer that does not point into the array is undefined
    ([None]). *)
Definition related_read_asserts (read_set : list ReadXctAccess) (read_set_size : Z)
    (i : Z) (write : WriteXctAccess) : option bool :=
  match related_read_ write with
  | None => Some true
  | Some pointer =>
      if negb (0 <=? pointer) then Some false
      else
        let index := wrap32 pointer in
        if negb (index <? read_set_size) then Some false
        else
          match nth_error read_set (Z.to_nat pointer) with
          | Some read =>
              Some ((write_owner_id_address_ write =? read_owner_id_address_ read) &&
                    match related_write_ read with
                    | Some back => i =? back
                    | None => false
                    end)
          | None => None
          end
  end.

Definition related_write_asserts (write_set : list WriteXctAccess) (write_set_size : Z)
    (i : Z) (read : ReadXctAccess) : option bool :=
  match related_write_ read with
  | None => Some true
  | Some pointer =>
      if negb (0 <=? pointer) then Some false
      else
        let index := wrap32 pointer in
        if negb (index <? write_set_size) then Some false
        else
          match nth_error write_set (Z.to_nat pointer) with
          | Some write =>
              Some ((read_owner_id_address_ read =? write_owner_id_address_ write) &&
                    match related_read_ write with
                    | Some back => i =? back
                    | None => false
                    end)
          | None => None
          end
  end.

(** The checks in program order: the first that fails aborts, the first that
    is undefined leaves the rest undefined. *)
Fixpoint all_asserts (checks : list (option bool)) : option bool :=
  match checks with
  | [] => Some true
  | Some true :: rest => all_asserts rest
  | Some false :: _ => Some false
  | None :: _ => None
  end.

(** [bool Xct::assert_related_read_write() const], in a debug build: whether
    the read set and the write set are consistent, that is, whether no
    [ASSERT_ND] of the two loops fails.  The sets are the arrays of the
    transaction, with their sizes; an entry of a loop that lies past the end
    of its array is read through a pointer outside the array. *)
Definition assert_related_read_write (read_set : list ReadXctAccess) (read_set_size : Z)
    (write_set : list WriteXctAccess) (write_set_size : Z) : option bool :=
  all_asserts
    (map (fun i => match nth_error write_set i with
                   | Some write =>
                       related_read_asserts read_set read_set_size (Z.of_nat i) write
                   | None => None
                   end)
         (seq 0 (Z.to_nat write_set_size)) ++
     map (fun i => match nth_error read_set i with
                   | Some read =>
                       related_write_asserts write_set write_set_size (Z.of_nat i) read
                   | None => None
                   end)
         (seq 0 (Z.to_nat read_set_size))).

(** The write at index [i] of the set and the read at index [j] name each
    other. *)
Definition related (read_set : list ReadXctAccess) (write_set : list WriteXctAccess)
    (i j : Z) : Prop :=
  exists write read,
    nth_error write_set (Z.to_nat i) = Some write /\
    nth_error read_set (Z.to_nat j) = Some read /\
    related_read_ write = Some j /\ related_write_ read = Some i /\
    write_owner_id_address_ write = read_owner_id_address_ read.

End Xct.

(** ** MapReduceBase (foedus/snapshot/mapreduce_base_impl.cpp) *)

Module MapReduceBase.

(** A mapper or reducer runs on a thread of its own and meets the rest of the
    system only through calls: to its parent, the log gleaner, whose state
    other threads change at any time, and to the virtual methods of its
    subclass.  An event is one such call with the answer it got. *)
Inductive Event :=
| NumaRunOnNode
| HandleInitialize (is_error : bool)
| HandleEpoch (is_error : bool)
| HandleUninitialize (is_error : bool)
| PreWaitForNextEpoch
| GetNextProcessingEpoch (epoch : Epoch.Epoch)
| IncrementCompletedCount (value_after : Z)
| GetAllCount (count : Z)
| Wakeup
| GetValidUntilEpoch (epoch : Epoch.Epoch)
| GetProcessingEpoch (epoch : Epoch.Epoch)
| IsStopRequested (requested : bool)
| CondWait (epoch : Epoch.Epoch)
| IncrementErrorCount
| IncrementExitCount.

(** The rest of the system: the answer the worker gets to the call it makes
    as its [n]-th event.  Every behaviour of the parent and of the other
    threads is some [World]. *)
Record World := {
  epoch_at : nat -> Epoch.Epoch;
  count_at : nat -> Z;
  flag_at : nat -> bool
}.

(** A computation of the worker reads the world, extends the trace of events
    and may run out of fuel ([None]) in a loop that is still going. *)
Definition M (A : Type) : Type := World -> list Event -> option (A * list Event).

Definition ret {A} (a : A) : M A := fun _ tr => Some (a, tr).

Definition bind {A B} (c : M A) (k : A -> M B) : M B :=
  fun w tr =>
    match c w tr with
    | Some (a, tr') => k a w tr'
    | None => None
    end.

Definition out_of_fuel {A} : M A := fun _ _ => None.

Notation "x <- c ;; k" := (bind c (fun x => k))
  (at level 100, c at next level, right associativity).
Notation "c ;;; k" := (bind c (fun _ => k))
  (at level 100, right associativity).

Definition call_unit (ev : Event) : M unit :=
  fun _ tr => Some (tt, tr ++ [ev]).
Definition call_epoch (ev : Epoch.Epoch -> Event) : M Epoch.Epoch :=
  fun w tr => let a := epoch_at w (List.length tr) in Some (a, tr ++ [ev a]).
Definition call_count (ev : Z -> Event) : M Z :=
  fun w tr => let a := count_at w (List.length tr) in Some (a, tr ++ [ev a]).
Definition call_flag (ev : bool -> Event) : M bool :=
  fun w tr => let a := flag_at w (List.length tr) in Some (a, tr ++ [ev a]).

(** The calls of [handle] and [wait_for_next_epoch].  The three [handle_*]
    answer whether the [ErrorStack] they return [is_error()]. *)
Definition numa_run_on_node : M unit := call_unit NumaRunOnNode.
Definition handle_initialize : M bool := call_flag HandleInitialize.
Definition handle_epoch : M bool := call_flag HandleEpoch.
Definition handle_uninitialize : M bool := call_flag HandleUninitialize.
Definition pre_wait_for_next_epoch : M unit := call_unit PreWaitForNextEpoch.
Definition get_next_processing_epoch : M Epoch.Epoch := call_epoch GetNextProcessingEpoch.
Definition increment_completed_count : M Z := call_count IncrementCompletedCount.
Definition get_all_count : M Z := call_count GetAllCount.
Definition wakeup : M unit := call_unit Wakeup.
Definition get_valid_until_epoch : M Epoch.Epoch := call_epoch GetValidUntilEpoch.
Definition get_processing_epoch : M Epoch.Epoch := call_epoch GetProcessingEpoch.
Definition is_stop_requested : M bool := call_flag IsStopRequested.
Definition increment_error_count : M unit := call_unit IncrementErrorCount.
Definition increment_exit_count : M unit := call_unit IncrementExitCount.

(** Modelled from the spec: the condition variable of
    [processing_epoch_cond_for] is missing.  "wait on the epoch's condition
    variable until the parent publishes a new processing_epoch or requests
    stop": the predicate of the C++ lambda is tested, and while it is false
    the thread sleeps on the variable ([CondWait]) and tests again. *)
Fixpoint cond_wait (fuel : nat) (next_epoch : Epoch.Epoch) : M unit :=
  match fuel with
  | O => out_of_fuel
  | S fuel' =>
      processing_epoch <- get_processing_epoch ;;
      if processing_epoch =? next_epoch then ret tt
      else
        stop <- is_stop_requested ;;
        if stop then ret tt
        else call_unit (CondWait next_epoch) ;;; cond_wait fuel' next_epoch
  end.

(** [bool MapReduceBase::wait_for_next_epoch()].  The [ASSERT_ND] and the
    log statements are left out. *)
Definition wait_for_next_epoch (fuel : nat) : M bool :=
  pre_wait_for_next_epoch ;;;
  next_epoch <- get_next_processing_epoch ;;
  value_after <- increment_completed_count ;;
  all_count <- get_all_count ;;
  (if value_after =? all_count then wakeup else ret tt) ;;;
  valid_until_epoch <- get_valid_until_epoch ;;
  if Epoch.after next_epoch valid_until_epoch then ret false
  else
    cond_wait fuel next_epoch ;;;
    stop <- is_stop_requested ;;
    ret (negb stop).

(** The [while] loop of [handle]. *)
Fixpoint handle_loop (fuel : nat) : M unit :=
  match fuel with
  | O => out_of_fuel
  | S fuel' =>
      stop <- is_stop_requested ;;
      if stop then ret tt
      else
        exec_error <- handle_epoch ;;
        if exec_error then increment_error_count ;;; wakeup
        else
          continue <- wait_for_next_epoch fuel' ;;
          if continue then handle_loop fuel' else ret tt
  end.

(** [void MapReduceBase::handle()]. *)
Definition handle (fuel : nat) : M unit :=
  numa_run_on_node ;;;
  init_error <- handle_initialize ;;
  (if init_error then increment_error_count ;;; wakeup
   else
     success <- wait_for_next_epoch fuel ;;
     if success then handle_loop fuel else ret tt) ;;;
  uninit_error <- handle_uninitialize ;;
  (if uninit_error then increment_error_count else ret tt) ;;;
  increment_exit_count.

(** The events of one [cond_wait] that has returned: tests of the predicate,
    the last of which held. *)
Inductive waited (next_epoch : Epoch.Epoch) : list Event -> Prop :=
| waited_epoch :
    waited next_epoch [GetProcessingEpoch next_epoch]
| waited_stop processing_epoch :
    processing_epoch <> next_epoch ->
    waited next_epoch [GetProcessingEpoch processing_epoch; IsStopRequested true]
| waited_sleep processing_epoch rest :
    processing_epoch <> next_epoch ->
    waited next_epoch rest ->
    waited next_epoch
      (GetProcessingEpoch processing_epoch :: IsStopRequested false ::
       CondWait next_epoch :: rest).

(** The events of [wait_for_next_epoch] up to the test of the epoch. *)
Definition announce (next_epoch : Epoch.Epoch) (value_after all_count : Z)
    (valid_until_epoch : Epoch.Epoch) : list Event :=
  [PreWaitForNextEpoch; GetNextProcessingEpoch next_epoch;
   IncrementCompletedCount value_after; GetAllCount all_count] ++
  (if value_after =? all_count then [Wakeup] else []) ++
  [GetValidUntilEpoch valid_until_epoch].

(** The answers the world gives to the first calls of
    [wait_for_next_epoch] started after the trace [tr]. *)
Definition next_epoch_of (w : World) (tr : list Event) : Epoch.Epoch :=
  epoch_at w (List.length tr + 1).
Definition value_after_of (w : World) (tr : list Event) : Z :=
  count_at w (List.length tr + 2).
Definition all_count_of (w : World) (tr : list Event) : Z :=
  count_at w (List.length tr + 3).
Definition valid_until_of (w : World) (tr : list Event) : Epoch.Epoch :=
  epoch_at w
    (List.length tr + (if value_after_of w tr =? all_count_of w tr then 5 else 4)).
Definition announce_of (w : World) (tr : list Event) : list Event :=
  announce (next_epoch_of w tr) (value_after_of w tr) (all_count_of w tr)
    (valid_until_of w tr).

(** The predicate of the wait holds at its [n]-th test, the wait having
    started after the trace [tr]. *)
Definition predicate_holds_at (w : World) (tr : list Event)
    (next_epoch : Epoch.Epoch) (n : nat) : Prop :=
  epoch_at w (List.length tr + 3 * n) = next_epoch \/
  flag_at w (List.length tr + 3 * n + 1) = true.

Definition is_uninitialize (ev : Event) : bool :=
  match ev with HandleUninitialize _ => true | _ => false end.
Definition is_exit_count (ev : Event) : bool :=
  match ev with IncrementExitCount => true | _ => false end.
Definition is_handle_epoch (ev : Event) : bool :=
  match ev with HandleEpoch _ => true | _ => false end.
Definition is_error_count (ev : Event) : bool :=
  match ev with IncrementErrorCount => true | _ => false end.

Definition count_events (f : Event -> bool) (tr : list Event) : nat :=
  List.length (filter f tr).

(** The events [wait_for_next_epoch] makes: none of the worker's life-cycle
    calls, no error count, no exit count. *)
Definition is_wait_event (ev : Event) : bool :=
  match ev with
  | PreWaitForNextEpoch | GetNextProcessingEpoch _ | IncrementCompletedCount _
  | GetAllCount _ | Wakeup | GetValidUntilEpoch _ | GetProcessingEpoch _
  | IsStopRequested _ | CondWait _ => true
  | _ => false
  end.

(** The events of the part of [handle] between [handle_initialize] and
    [handle_uninitialize], by the way the part is left. *)
Inductive looped : list Event -> Prop :=
| looped_stop :
    looped [IsStopRequested true]
| looped_error :
    looped [IsStopRequested false; HandleEpoch true; IncrementErrorCount; Wakeup]
| looped_last_epoch ws :
    Forall (fun ev => is_wait_event ev = true) ws ->
    looped (IsStopRequested false :: HandleEpoch false :: ws)
| looped_next ws rest :
    Forall (fun ev => is_wait_event ev = true) ws ->
    looped rest ->
    looped (IsStopRequested false :: HandleEpoch false :: ws ++ rest).

(** The events of the loop of [handle]. *)
Definition is_loop_event (ev : Event) : bool :=
  match ev with
  | HandleEpoch _ | IncrementErrorCount => true
  | _ => is_wait_event ev
  end.

(** The events that close [handle]: [handle_uninitialize], the error count
    when it failed, and the exit count. *)
Definition finish (uninit_error : bool) : list Event :=
  HandleUninitialize uninit_error ::
  (if uninit_error then [IncrementErrorCount] else []) ++ [IncrementExitCount].

Definition not_epoch_error (ev : Event) : Prop := ev <> HandleEpoch true.
Definition not_init_error (ev : Event) : Prop := ev <> HandleInitialize true.

(** The worker stands at the head of the [while] loop of [handle] with the
    trace [tr]: [handle_initialize] returned without error, and the
    [wait_for_next_epoch] before every turn of the loop so far returned
    [true]. *)
Inductive loop_head (w : World) : list Event -> Prop :=
| loop_head_first fuel tr :
    flag_at w 1 = false ->
    wait_for_next_epoch fuel w [NumaRunOnNode; HandleInitialize false] = Some (true, tr) ->
    loop_head w tr
| loop_head_next fuel tr tr' :
    loop_head w tr ->
    flag_at w (List.length tr) = false ->
    flag_at w (List.length tr + 1) = false ->
    wait_for_next_epoch fuel w (tr ++ [IsStopRequested false; HandleEpoch false]) =
      Some (true, tr') ->
    loop_head w tr'.

(** The ways out of the loop from its head with the trace [tr], each with
    the events from the head to the exit: stop is requested; [handle_epoch]
    returns an error; the epochs are exhausted (the next epoch is after
    [valid_until]); stop is requested while the worker waits for the next
    epoch. *)
Inductive loop_exit (w : World) (tr : list Event) : list Event -> Prop :=
| exit_stop_requested :
    flag_at w (List.length tr) = true ->
    loop_exit w tr [IsStopRequested true]
| exit_epoch_error :
    flag_at w (List.length tr) = false ->
    flag_at w (List.length tr + 1) = true ->
    loop_exit w tr [IsStopRequested false; HandleEpoch true; IncrementErrorCount; Wakeup]
| exit_epochs_exhausted :
    flag_at w (List.length tr) = false ->
    flag_at w (List.length tr + 1) = false ->
    Epoch.after (next_epoch_of w (tr ++ [IsStopRequested false; HandleEpoch false]))
                (valid_until_of w (tr ++ [IsStopRequested false; HandleEpoch false])) = true ->
    loop_exit w tr
      ([IsStopRequested false; HandleEpoch false] ++
       announce_of w (tr ++ [IsStopRequested false; HandleEpoch false]))
| exit_stop_while_waiting fuel ws :
    flag_at w (List.length tr) = false ->
    flag_at w (List.length tr + 1) = false ->
    Epoch.after (next_epoch_of w (tr ++ [IsStopRequested false; HandleEpoch false]))
                (valid_until_of w (tr ++ [IsStopRequested false; HandleEpoch false])) = false ->
    wait_for_next_epoch fuel w (tr ++ [IsStopRequested false; HandleEpoch false]) =
      Some (false, (tr ++ [IsStopRequested false; HandleEpoch false]) ++ ws) ->
    loop_exit w tr ([IsStopRequested false; HandleEpoch false] ++ ws).

(** From some call on, every flag the worker reads is set: stop has been
    requested for good. *)
Definition stop_requested_for_good (w : World) : Prop :=
  exists n, forall m, (n <= m)%nat -> flag_at w m = true.

(** The calls [handle] counts: an arrival at the barrier of the epoch
    ([increment_completed_count]), a [handle_*] method that returned an error,
    a [handle_initialize] and a [handle_epoch] that returned without one. *)
Definition is_completed_count (ev : Event) : bool :=
  match ev with IncrementCompletedCount _ => true | _ => false end.
Definition is_failure (ev : Event) : bool :=
  match ev with
  | HandleInitialize true | HandleEpoch true | HandleUninitialize true => true
  | _ => false
  end.
Definition is_initialized (ev : Event) : bool :=
  match ev with HandleInitialize false => true | _ => false end.
Definition is_epoch_done (ev : Event) : bool :=
  match ev with HandleEpoch false => true | _ => false end.

End MapReduceBase.

(** ** A minimal TPC-B on array storage (test_array_tpcb.cpp) *)

Module Tpcb.

Definition BRANCHES : Z := 8.
Definition TELLERS : Z := 2.
Definition ACCOUNTS : Z := 4.
Definition ACCOUNTS_PER_TELLER : Z := ACCOUNTS / TELLERS.
Definition MAX_TEST_THREADS : Z := 4.
Definition XCTS_PER_THREAD : Z := 100.
Definition INITIAL_ACCOUNT_BALANCE : Z := 100.
Definition AMOUNT_RANGE_FROM : Z := 1.
Definition AMOUNT_RANGE_TO : Z := 20.
Definition HISTORIES : Z := XCTS_PER_THREAD * MAX_TEST_THREADS.

(** The records; the padding [other_data_] is left out. *)
Record BranchData := {
  branch_balance_ : Z
}.

Record TellerData := {
  teller_branch_id_ : Z;
  teller_balance_ : Z
}.

Record AccountData := {
  account_branch_id_ : Z;
  account_balance_ : Z
}.

Record HistoryData := {
  account_id_ : Z;
  teller_id_ : Z;
  branch_id_ : Z;
  amount_ : Z
}.

(** The four array storages, as committed. *)
Record Database := {
  branches : list BranchData;
  tellers : list TellerData;
  accounts : list AccountData;
  histories : list HistoryData
}.

(** Modelled from the spec: the array storage is missing.  Its record
    contract: "get", "overwrite" at an offset of the array; an offset past the
    end is an error. *)
Definition get_record {A} (storage : list A) (offset : Z) : option A :=
  if (0 <=? offset) && (offset <? Z.of_nat (List.length storage))
  then nth_error storage (Z.to_nat offset)
  else None.

Definition overwrite_record {A} (storage : list A) (offset : Z) (data : A)
    : option (list A) :=
  if (0 <=? offset) && (offset <? Z.of_nat (List.length storage))
  then Some (array_store storage (Z.to_nat offset) data)
  else None.

Notation "x <- c ;; k" := (match c with Some x => k | None => None end)
  (at level 100, c at next level, right associativity).

(** [CreateTpcbTablesTask::run]: the four tables with their initial
    records. *)
Definition create_tables : Database :=
  {| branches :=
       map (fun _ => {| branch_balance_ := INITIAL_ACCOUNT_BALANCE * ACCOUNTS |})
           (seq 0 (Z.to_nat BRANCHES));
     tellers :=
       map (fun i => {| teller_branch_id_ := Z.of_nat i / TELLERS;
                        teller_balance_ := INITIAL_ACCOUNT_BALANCE * ACCOUNTS_PER_TELLER |})
           (seq 0 (Z.to_nat (BRANCHES * TELLERS)));
     accounts :=
       map (fun i => {| account_branch_id_ := Z.of_nat i / ACCOUNTS;
                        account_balance_ := INITIAL_ACCOUNT_BALANCE |})
           (seq 0 (Z.to_nat (BRANCHES * ACCOUNTS)));
     histories :=
       map (fun _ => {| account_id_ := 0; teller_id_ := 0; branch_id_ := 0;
                        amount_ := 0 |})
           (seq 0 (Z.to_nat HISTORIES)) |}.

(** The arguments of one [try_transaction]. *)
Record Xct := {
  branch_id : Z;
  teller_id : Z;
  account_id : Z;
  history_id : Z;
  amount : Z
}.

(** [RunTpcbTask::try_transaction], for an attempt that commits: the database
    after [precommit_xct], or [None] when a storage call returns an error.
    An attempt that aborts with a race leaves the database as it was and is
    tried again, so a run is the sequence of its committed attempts.  The
    [EXPECT_EQ] lines check and change nothing. *)
Definition try_transaction (db : Database) (x : Xct) : option Database :=
  branch <- get_record (branches db) (branch_id x) ;;
  let branch_balance := wrap_int64 (branch_balance_ branch + amount x) in
  new_branches <- overwrite_record (branches db) (branch_id x)
                    {| branch_balance_ := branch_balance |} ;;
  teller <- get_record (tellers db) (teller_id x) ;;
  let teller_balance := wrap_int64 (teller_balance_ teller + amount x) in
  new_tellers <- overwrite_record (tellers db) (teller_id x)
                   {| teller_branch_id_ := teller_branch_id_ teller;
                      teller_balance_ := teller_balance |} ;;
  account <- get_record (accounts db) (account_id x) ;;
  let account_balance := wrap_int64 (account_balance_ account + amount x) in
  new_accounts <- overwrite_record (accounts db) (account_id x)
                    {| account_branch_id_ := account_branch_id_ account;
                       account_balance_ := account_balance |} ;;
  history <- get_record (histories db) (history_id x) ;;
  new_histories <- overwrite_record (histories db) (history_id x)
                     {| account_id_ := account_id x;
                        teller_id_ := teller_id x;
                        branch_id_ := branch_id x;
                        amount_ := amount x |} ;;
  Some {| branches := new_branches;
          tellers := new_tellers;
          accounts := new_accounts;
          histories := new_histories |}.

(** What a client draws for one transaction: [rand.next_uint32()] and
    [rand.uniform_within(AMOUNT_RANGE_FROM, AMOUNT_RANGE_TO)]. *)
Record Draw := {
  next_uint32 : Z;
  uniform_within : Z
}.

Definition valid_draw (d : Draw) : Prop :=
  is_uint32 (next_uint32 d) /\
  AMOUNT_RANGE_FROM <= uniform_within d <= AMOUNT_RANGE_TO.

(** The body of the [for] loop of [RunTpcbTask::run]: the arguments of the
    [i]-th transaction of client [client_id].  [client_id_] and [i] are
    [int]; the account id is computed in [uint64_t] ([accounts_per_thread]
    is one, so the client id is converted), the history id in [int] and then
    converted to [uint64_t]. *)
Definition xct_of_draw (client_id : Z) (contended : bool) (i : Z) (d : Draw) : Xct :=
  let account_id :=
    if contended
    then next_uint32 d mod (BRANCHES * ACCOUNTS)
    else
      let accounts_per_thread := BRANCHES * ACCOUNTS / MAX_TEST_THREADS in
      wrap64 (next_uint32 d mod accounts_per_thread +
              wrap64 (wrap64 client_id * accounts_per_thread)) in
  {| branch_id := account_id / ACCOUNTS;
     teller_id := account_id / ACCOUNTS_PER_TELLER;
     account_id := account_id;
     history_id := wrap64 (wrap_int32 (wrap_int32 (client_id * XCTS_PER_THREAD) + i));
     amount := uniform_within d |}.

(** The ids of the [i]-th transaction of a client, without the wraps. *)
Definition plain_account_id (client_id : Z) (contended : bool) (d : Draw) : Z :=
  if contended then next_uint32 d mod 32 else next_uint32 d mod 8 + client_id * 8.
Definition plain_history_id (client_id i : Z) : Z := client_id * XCTS_PER_THREAD + i.

(** The transactions of one client, in program order. *)
Definition client_xcts (client_id : Z) (contended : bool) (draws : list Draw) : list Xct :=
  map (fun id => xct_of_draw client_id contended (Z.of_nat (fst id)) (snd id))
      (combine (seq 0 (List.length draws)) draws).

(** The transactions of the four clients of [multi_thread_test(4, contended)]. *)
Definition all_xcts (contended : bool) (d0 d1 d2 d3 : list Draw) : list Xct :=
  client_xcts 0 contended d0 ++ client_xcts 1 contended d1 ++
  client_xcts 2 contended d2 ++ client_xcts 3 contended d3.

(** Modelled from the spec: the transaction manager is missing.  The
    transactions are serializable: the committed state is the state a serial
    run of the committed transactions, in some order, leaves. *)
Definition run_xcts (xs : list Xct) (db : Database) : option Database :=
  fold_left (fun state x => db' <- state ;; try_transaction db' x) xs (Some db).

Definition branch_sum (db : Database) : Z := sum_by branch_balance_ (branches db).
Definition teller_sum (db : Database) : Z := sum_by teller_balance_ (tellers db).
Definition account_sum (db : Database) : Z := sum_by account_balance_ (accounts db).
Definition history_sum (db : Database) : Z := sum_by amount_ (histories db).
Definition amount_sum (xs : list Xct) : Z := sum_by amount xs.

(** The sums as scenario S2 of the specification words them: one sum for
    the three balances and for the history amounts. *)
Definition one_common_sum (db : Database) (xs : list Xct) : Prop :=
  branch_sum db = 8 * 400 + amount_sum xs /\
  teller_sum db = branch_sum db /\
  account_sum db = branch_sum db /\
  history_sum db = branch_sum db.

(** The sums as the code leaves them: the history amounts start at 0, the
    balances at [8 * 400] in total. *)
Definition actual_sums (db : Database) (xs : list Xct) : Prop :=
  branch_sum db = 8 * 400 + amount_sum xs /\
  teller_sum db = branch_sum db /\
  account_sum db = branch_sum db /\
  history_sum db = amount_sum xs /\
  branch_sum db = 8 * 400 + history_sum db.

(** Transactions with ids inside the tables and an amount in range. *)
Definition valid_xct (x : Xct) : Prop :=
  0 <= branch_id x < BRANCHES /\
  0 <= teller_id x < BRANCHES * TELLERS /\
  0 <= account_id x < BRANCHES * ACCOUNTS /\
  0 <= history_id x < HISTORIES /\
  AMOUNT_RANGE_FROM <= amount x <= AMOUNT_RANGE_TO.

(** The state after the transactions that wrote the history records [used],
    with amounts summing to [total]. *)
Definition tpcb_invariant (db : Database) (used : list Z) (total : Z) : Prop :=
  List.length (branches db) = Z.to_nat BRANCHES /\
  List.length (tellers db) = Z.to_nat (BRANCHES * TELLERS) /\
  List.length (accounts db) = Z.to_nat (BRANCHES * ACCOUNTS) /\
  List.length (histories db) = Z.to_nat HISTORIES /\
  Forall (fun b => 0 <= branch_balance_ b) (branches db) /\
  Forall (fun t => 0 <= teller_balance_ t) (tellers db) /\
  Forall (fun a => 0 <= account_balance_ a) (accounts db) /\
  branch_sum db = 8 * 400 + total /\
  teller_sum db = 8 * 400 + total /\
  account_sum db = 8 * 400 + total /\
  history_sum db = total /\
  (forall h data, ~ In h used -> get_record (histories db) h = Some data ->
                  amount_ data = 0) /\
  0 <= total <= 20 * Z.of_nat (List.length used).

(** A run of [multi_thread_test(4, true)]: client [c] draws
    [1000 c + 7 i] and the amount [1 + i mod 20] for its [i]-th transaction,
    and the clients commit one after the other. *)
Definition example_draws (c : Z) : list Draw :=
  map (fun i => {| next_uint32 := 1000 * c + 7 * Z.of_nat i;
                   uniform_within := 1 + Z.of_nat i mod 20 |})
      (seq 0 100).

Definition example_schedule : list Xct :=
  all_xcts true (example_draws 0) (example_draws 1) (example_draws 2) (example_draws 3).

(** The transactions of the clients of [multi_thread_test(thread_count,
    contended)], client [i] with the [i]-th list of draws; [thread_count] is
    the number of lists. *)
Definition multi_thread_xcts (contended : bool) (draws : list (list Draw)) : list Xct :=
  List.concat (map (fun client => client_xcts (Z.of_nat (fst client)) contended (snd client))
              (combine (seq 0 (List.length draws)) draws)).

(** The [EXPECT_*] lines of [VerifyTpcbTask::run] on one history record; the
    ids are unsigned, so [EXPECT_LT] is their only bound. *)
Definition history_expectations (history : HistoryData) : bool :=
  (AMOUNT_RANGE_FROM <=? amount_ history) && (amount_ history <=? AMOUNT_RANGE_TO) &&
  (branch_id_ history <? BRANCHES) &&
  (teller_id_ history <? BRANCHES * TELLERS) &&
  (account_id_ history <? BRANCHES * ACCOUNTS) &&
  (branch_id_ history =? teller_id_ history / TELLERS) &&
  (branch_id_ history =? account_id_ history / ACCOUNTS) &&
  (teller_id_ history =? account_id_ history / ACCOUNTS_PER_TELLER).

(** [expected[index] += amount] on one of the local [int64_t] arrays.  An
    index outside the array is undefined behaviour in C++: the run of the
    verification has no result then ([None]). *)
Definition add_expected (expected : list Z) (index amount : Z) : option (list Z) :=
  if (0 <=? index) && (index <? Z.of_nat (List.length expected))
  then
    old <- nth_error expected (Z.to_nat index) ;;
    Some (array_store expected (Z.to_nat index) (wrap_int64 (old + amount)))
  else None.

(** The state of the verification: whether every [EXPECT_*] so far held, and
    the three local arrays. *)
Record Verification := {
  passed : bool;
  expected_branch : list Z;
  expected_teller : list Z;
  expected_account : list Z
}.

(** The three initializing loops. *)
Definition initial_verification : Verification :=
  {| passed := true;
     expected_branch :=
       repeat (INITIAL_ACCOUNT_BALANCE * ACCOUNTS) (Z.to_nat BRANCHES);
     expected_teller :=
       repeat (INITIAL_ACCOUNT_BALANCE * ACCOUNTS_PER_TELLER) (Z.to_nat (BRANCHES * TELLERS));
     expected_account :=
       repeat INITIAL_ACCOUNT_BALANCE (Z.to_nat (BRANCHES * ACCOUNTS)) |}.

(** The history ids in the order the two nested loops visit them. *)
Definition verified_history_ids (clients : Z) : list Z :=
  flat_map (fun client =>
              map (fun i => Z.of_nat client * XCTS_PER_THREAD + Z.of_nat i)
                  (seq 0 (Z.to_nat XCTS_PER_THREAD)))
           (seq 0 (Z.to_nat clients)).

(** The body of the nested loops. *)
Definition verify_history (db : Database) (v : Verification) (history_id : Z)
    : option Verification :=
  history <- get_record (histories db) history_id ;;
  new_branch <- add_expected (expected_branch v) (branch_id_ history) (amount_ history) ;;
  new_teller <- add_expected (expected_teller v) (teller_id_ history) (amount_ history) ;;
  new_account <- add_expected (expected_account v) (account_id_ history) (amount_ history) ;;
  Some {| passed := passed v && history_expectations history;
          expected_branch := new_branch;
          expected_teller := new_teller;
          expected_account := new_account |}.

(** The bodies of the three comparing loops. *)
Definition verify_branch (db : Database) (v : Verification) (ok : bool) (i : nat)
    : option bool :=
  data <- get_record (branches db) (Z.of_nat i) ;;
  Some (ok && (nth i (expected_branch v) 0 =? branch_balance_ data)).

Definition verify_teller (db : Database) (v : Verification) (ok : bool) (i : nat)
    : option bool :=
  data <- get_record (tellers db) (Z.of_nat i) ;;
  Some (ok && (Z.of_nat i / TELLERS =? teller_branch_id_ data)
           && (nth i (expected_teller v) 0 =? teller_balance_ data)).

Definition verify_account (db : Database) (v : Verification) (ok : bool) (i : nat)
    : option bool :=
  data <- get_record (accounts db) (Z.of_nat i) ;;
  Some (ok && (Z.of_nat i / ACCOUNTS =? account_branch_id_ data)
           && (nth i (expected_account v) 0 =? account_balance_ data)).

(** A loop whose body can return an error. *)
Definition for_each {State Item} (body : State -> Item -> option State)
    (items : list Item) (state : State) : option State :=
  fold_left (fun state item => s <- state ;; body s item) items (Some state).

(** [VerifyTpcbTask::run] on the committed database: [None] when a storage
    call returns an error, else whether every [EXPECT_*] held.  The last
    loop, on the lock bits of the read set the engine keeps, is left out. *)
Definition verify (clients : Z) (db : Database) : option bool :=
  v <- for_each (verify_history db) (verified_history_ids clients) initial_verification ;;
  ok <- for_each (verify_branch db v) (seq 0 (Z.to_nat BRANCHES)) (passed v) ;;
  ok <- for_each (verify_teller db v) (seq 0 (Z.to_nat (BRANCHES * TELLERS))) ok ;;
  for_each (verify_account db v) (seq 0 (Z.to_nat (BRANCHES * ACCOUNTS))) ok.

(** What a history record adds to the balance of branch, teller or account
    [i]. *)
Definition branch_share (i : Z) (history : HistoryData) : Z :=
  if branch_id_ history =? i then amount_ history else 0.
Definition teller_share (i : Z) (history : HistoryData) : Z :=
  if teller_id_ history =? i then amount_ history else 0.
Definition account_share (i : Z) (history : HistoryData) : Z :=
  if account_id_ history =? i then amount_ history else 0.

(** The ids of a transaction as [RunTpcbTask::run] derives them from the
    account id. *)
Definition consistent_xct (x : Xct) : Prop :=
  teller_id x = account_id x / ACCOUNTS_PER_TELLER /\
  branch_id x = account_id x / ACCOUNTS.

(** The books balance record by record: every balance is its initial value
    plus the amounts of the history records that name it, the branch ids are
    the initial ones, and a history record is either written by one of the
    transactions [used] and passes the checks, or has amount 0. *)
Definition ledger (db : Database) (used : list Z) : Prop :=
  (forall i data, nth_error (branches db) i = Some data ->
     branch_balance_ data =
     INITIAL_ACCOUNT_BALANCE * ACCOUNTS +
     sum_by (branch_share (Z.of_nat i)) (histories db)) /\
  (forall i data, nth_error (tellers db) i = Some data ->
     teller_branch_id_ data = Z.of_nat i / TELLERS /\
     teller_balance_ data =
     INITIAL_ACCOUNT_BALANCE * ACCOUNTS_PER_TELLER +
     sum_by (teller_share (Z.of_nat i)) (histories db)) /\
  (forall i data, nth_error (accounts db) i = Some data ->
     account_branch_id_ data = Z.of_nat i / ACCOUNTS /\
     account_balance_ data =
     INITIAL_ACCOUNT_BALANCE + sum_by (account_share (Z.of_nat i)) (histories db)) /\
  (forall i data, nth_error (histories db) i = Some data ->
     (In (Z.of_nat i) used ->
      history_expectations data = true /\
      0 <= branch_id_ data /\ 0 <= teller_id_ data /\ 0 <= account_id_ data) /\
     (~ In (Z.of_nat i) used -> amount_ data = 0)).

(** A local array of the verification after the history records
    [processed]: every entry is its initial value plus the amounts of the
    records that name it. *)
Definition expected_after (share : Z -> HistoryData -> Z) (base size : Z)
    (processed : list HistoryData) (expected : list Z) : Prop :=
  Z.of_nat (List.length expected) = size /\
  forall i e, nth_error expected i = Some e ->
    e = base + sum_by (share (Z.of_nat i)) processed.

(** The verification after the first [k] history records, every check
    having held. *)
Definition verified (db : Database) (k : nat) (v : Verification) : Prop :=
  passed v = true /\
  expected_after branch_share (INITIAL_ACCOUNT_BALANCE * ACCOUNTS) BRANCHES
    (firstn k (histories db)) (expected_branch v) /\
  expected_after teller_share (INITIAL_ACCOUNT_BALANCE * ACCOUNTS_PER_TELLER)
    (BRANCHES * TELLERS) (firstn k (histories db)) (expected_teller v) /\
  expected_after account_share INITIAL_ACCOUNT_BALANCE (BRANCHES * ACCOUNTS)
    (firstn k (histories db)) (expected_account v).




End Tpcb.

(** ** SnapshotOptions (foedus/snapshot/snapshot_options.cpp) *)

Module SnapshotOptions.

Local Open Scope string_scope.

(** Modelled from the spec: [assorted::replace_all] is missing.  "$NODE$ is
    substituted with the node id": the target is read from left to right and
    every occurrence of [search] met is replaced; [skip] counts the
    characters of an occurrence still to be passed over. *)
(** [target] starts with [search]. *)
Fixpoint starts_with (search target : string) : bool :=
  match search, target with
  | EmptyString, _ => true
  | String _ _, EmptyString => false
  | String a search', String b target' => Ascii.eqb a b && starts_with search' target'
  end.

Fixpoint replace_from (skip : nat) (search replacement target : string) : string :=
  match target with
  | EmptyString => EmptyString
  | String c rest =>
      match skip with
      | S skip' => replace_from skip' search replacement rest
      | O =>
          if starts_with search target
          then replacement ++ replace_from (String.length search - 1) search replacement rest
          else String c (replace_from 0 search replacement rest)
      end
  end.

(** The decimal text of an [int], as [operator<<] prints it. *)
Definition decimal (n : Z) : string := NilZero.string_of_int (Z.to_int n).

(** [replace_all(target, search, int replacement)]. *)
Definition replace_all (target search : string) (replacement : Z) : string :=
  replace_from 0 search (decimal replacement) target.

(** The nested block, whose own keys [DeviceEmulationOptions::load] reads. *)
Definition DeviceEmulationOptions := list (string * Z).

(** Modelled from the spec: the XML layer (tinyxml2 and
    foedus/externalize/externalizable.hpp) is missing.  An element of the
    options file holds, under a tag, a text, an integer or a nested block;
    reading a tag that is absent, or holds another kind, is an error. *)
Inductive XmlValue :=
| XmlText (text : string)
| XmlInteger (value : Z)
| XmlElement (block : DeviceEmulationOptions).

Definition XMLElement := list (string * XmlValue).

Fixpoint find_child (element : XMLElement) (tag : string) : option XmlValue :=
  match element with
  | [] => None
  | (name, value) :: rest => if String.eqb name tag then Some value else find_child rest tag
  end.

(** [struct SnapshotOptions]. *)
Record SnapshotOptions := {
  folder_path_pattern_ : string;
  snapshot_trigger_page_pool_percent_ : Z;
  snapshot_interval_milliseconds_ : Z;
  log_mapper_bucket_kb_ : Z;
  log_mapper_io_buffer_kb_ : Z;
  log_reducer_buffer_mb_ : Z;
  emulation_ : DeviceEmulationOptions
}.

(** [std::string SnapshotOptions::convert_folder_path_pattern(int node)
    const]. *)
Definition convert_folder_path_pattern (options : SnapshotOptions) (node : Z) : string :=
  replace_all (folder_path_pattern_ options) "$NODE$" node.

(** A loading step reads the element, notes the tag it asked for and stops
    the load with an error ([None]) when the tag is not there. *)
Definition Loader (A : Type) : Type := XMLElement -> list string -> option A * list string.

Definition load_ret {A} (a : A) : Loader A := fun _ tags => (Some a, tags).

Definition load_bind {A B} (c : Loader A) (k : A -> Loader B) : Loader B :=
  fun element tags =>
    match c element tags with
    | (Some a, tags') => k a element tags'
    | (None, tags') => (None, tags')
    end.

Notation "x <- c ;; k" := (load_bind c (fun x => k))
  (at level 100, c at next level, right associativity).

(** [EXTERNALIZE_LOAD_ELEMENT(element, attribute)] reads the child named
    after the attribute, by the attribute's type. *)
Definition get_text (tag : string) : Loader string :=
  fun element tags =>
    (match find_child element tag with Some (XmlText s) => Some s | _ => None end,
     (tags ++ [tag])%list).

Definition get_integer (tag : string) : Loader Z :=
  fun element tags =>
    (match find_child element tag with Some (XmlInteger z) => Some z | _ => None end,
     (tags ++ [tag])%list).

Definition get_child_element (tag : string) : Loader DeviceEmulationOptions :=
  fun element tags =>
    (match find_child element tag with Some (XmlElement e) => Some e | _ => None end,
     (tags ++ [tag])%list).

(** [ErrorStack SnapshotOptions::load(tinyxml2::XMLElement* element)]: the
    options loaded, or [None] for an error, with the tags read. *)
Definition load : Loader SnapshotOptions :=
  folder_path_pattern <- get_text "folder_path_pattern_" ;;
  snapshot_trigger_page_pool_percent <- get_integer "snapshot_trigger_page_pool_percent_" ;;
  snapshot_interval_milliseconds <- get_integer "snapshot_interval_milliseconds_" ;;
  log_mapper_bucket_kb <- get_integer "log_mapper_bucket_kb_" ;;
  log_mapper_io_buffer_kb <- get_integer "log_mapper_io_buffer_kb_" ;;
  log_reducer_buffer_mb <- get_integer "log_reducer_buffer_mb_" ;;
  emulation <- get_child_element "SnapshotDeviceEmulationOptions" ;;
  load_ret {| folder_path_pattern_ := folder_path_pattern;
              snapshot_trigger_page_pool_percent_ := snapshot_trigger_page_pool_percent;
              snapshot_interval_milliseconds_ := snapshot_interval_milliseconds;
              log_mapper_bucket_kb_ := log_mapper_bucket_kb;
              log_mapper_io_buffer_kb_ := log_mapper_io_buffer_kb;
              log_reducer_buffer_mb_ := log_reducer_buffer_mb;
              emulation_ := emulation |}.

(** The keys of the options file, in the order [load] reads them. *)
Definition recognized_keys : list string :=
  ["folder_path_pattern_"; "snapshot_trigger_page_pool_percent_";
   "snapshot_interval_milliseconds_"; "log_mapper_bucket_kb_";
   "log_mapper_io_buffer_kb_"; "log_reducer_buffer_mb_";
   "SnapshotDeviceEmulationOptions"].

(** Whether the element holds, under the key, a child of the kind [load]
    reads there: a text for the pattern, a nested block for the emulation
    options, an integer for the rest. *)
Definition readable (element : XMLElement) (key : string) : bool :=
  match find_child element key with
  | Some (XmlText _) => String.eqb key "folder_path_pattern_"
  | Some (XmlInteger _) =>
      negb (String.eqb key "folder_path_pattern_") &&
      negb (String.eqb key "SnapshotDeviceEmulationOptions")
  | Some (XmlElement _) => String.eqb key "SnapshotDeviceEmulationOptions"
  | None => false
  end.

(** The pieces of a pattern, put together with a separator between them. *)
Fixpoint join (separator : string) (pieces : list string) : string :=
  match pieces with
  | [] => ""
  | [piece] => piece
  | piece :: rest => piece ++ separator ++ join separator rest
  end.

(** The character [c] occurs in [s]. *)
Fixpoint has_char (c : ascii) (s : string) : bool :=
  match s with
  | EmptyString => false
  | String c' rest => Ascii.eqb c c' || has_char c rest
  end.

(** [search] occurs somewhere in [s]. *)
Fixpoint occurs (search s : string) : bool :=
  starts_with search s ||
  match s with
  | EmptyString => false
  | String _ rest => occurs search rest
  end.

(** The calls [save] makes to the XML layer, each with its arguments:
    [insert_comment], [add_element] (through [EXTERNALIZE_SAVE_ELEMENT], with
    the attribute's name as the tag and the attribute's value by its type)
    and [add_child_element]. *)
Inductive SaveCall :=
| InsertComment (comment : string)
| AddElement (tag comment : string) (value : XmlValue)
| AddChildElement (tag comment : string) (child : DeviceEmulationOptions).

(** A saving step makes its call and, as [CHECK_ERROR] has it, stops the save
    when the layer returns an error; [accepts] says which calls the layer
    accepts.  The result is whether the save went through, with the calls
    made. *)
Definition Saver : Type := (SaveCall -> bool) -> list SaveCall -> bool * list SaveCall.

Definition save_call (call : SaveCall) : Saver :=
  fun accepts calls => (accepts call, (calls ++ [call])%list).

Definition save_then (first next : Saver) : Saver :=
  fun accepts calls =>
    match first accepts calls with
    | (true, calls') => next accepts calls'
    | (false, calls') => (false, calls')
    end.

Notation "first ;;; next" := (save_then first next)
  (at level 100, right associativity).

Definition new_line : string := String (ascii_of_nat 10) EmptyString.

(** [ErrorStack SnapshotOptions::save(tinyxml2::XMLElement* element) const]. *)
Definition save (options : SnapshotOptions) : Saver :=
  save_call (InsertComment "Set of options for snapshot manager") ;;;
  save_call (AddElement "folder_path_pattern_"
    ("String pattern of path of snapshot folders in each NUMA node." ++ new_line ++
     "This specifies the path of the folders to contain snapshot files in each NUMA node." ++
     new_line ++
     " A special placeholder $NODE$ will be replaced with the NUMA node number." ++
     " For example, /data/node_$NODE$ becomes /data/node_1 on node-1.")
    (XmlText (folder_path_pattern_ options))) ;;;
  save_call (AddElement "snapshot_trigger_page_pool_percent_"
    ("When the main page pool runs under this percent (roughly calculated) of free pages," ++
     new_line ++
     " snapshot manager starts snapshotting to drop volatile pages even before the interval.")
    (XmlInteger (snapshot_trigger_page_pool_percent_ options))) ;;;
  save_call (AddElement "snapshot_interval_milliseconds_"
    "Interval in milliseconds to take snapshots."
    (XmlInteger (snapshot_interval_milliseconds_ options))) ;;;
  save_call (AddElement "log_mapper_bucket_kb_"
    ("Size in KB of bucket (buffer for each partition) in mapper." ++
     " The larger, the less freuquently each mapper communicates with reducers." ++
     " 1024 (1MB) should be a good number.")
    (XmlInteger (log_mapper_bucket_kb_ options))) ;;;
  save_call (AddElement "log_mapper_io_buffer_kb_"
    "Size in KB of IO buffer to read log files in mapper. 1024 (1MB) should be a good number."
    (XmlInteger (log_mapper_io_buffer_kb_ options))) ;;;
  save_call (AddElement "log_reducer_buffer_mb_"
    "The size in MB of a buffer to store log entries in reducer (partition)."
    (XmlInteger (log_reducer_buffer_mb_ options))) ;;;
  save_call (AddChildElement "SnapshotDeviceEmulationOptions"
    "[Experiments-only] Settings to emulate slower data device"
    (emulation_ options)).

(** Modelled from the spec: the XML layer is missing.  The writing calls are
    the counterparts of the reading ones: [add_element] and
    [add_child_element] append a child under the tag, after the children the
    element has; a comment is no child. *)
Definition written_child (call : SaveCall) : XMLElement :=
  match call with
  | InsertComment _ => []
  | AddElement tag _ value => [(tag, value)]
  | AddChildElement tag _ child => [(tag, XmlElement child)]
  end.

Definition written (element : XMLElement) (calls : list SaveCall) : XMLElement :=
  (element ++ flat_map written_child calls)%list.

(** The tag a call writes under, if it writes a child. *)
Definition written_tag (call : SaveCall) : list string :=
  List.map fst (written_child call).

(** [SnapshotOptions::SnapshotOptions()]: the default pattern is the
    constructor's; the five [kDefault...] constants it assigns are declared in
    snapshot_options.hpp and are arguments here. *)
Definition SnapshotOptions_new (default_snapshot_trigger_page_pool_percent
    default_snapshot_interval_milliseconds default_log_mapper_bucket_kb
    default_log_mapper_io_buffer_kb default_log_reducer_buffer_mb : Z)
    (emulation : DeviceEmulationOptions) : SnapshotOptions :=
  {| folder_path_pattern_ := "snapshots/node_$NODE$";
     snapshot_trigger_page_pool_percent_ := default_snapshot_trigger_page_pool_percent;
     snapshot_interval_milliseconds_ := default_snapshot_interval_milliseconds;
     log_mapper_bucket_kb_ := default_log_mapper_bucket_kb;
     log_mapper_io_buffer_kb_ := default_log_mapper_io_buffer_kb;
     log_reducer_buffer_mb_ := default_log_reducer_buffer_mb;
     emulation_ := emulation |}.

End SnapshotOptions.

(* ================================================================== *)
(** * Part II: properties                                              *)
(* ================================================================== *)

(** Closes a closed arithmetic goal by evaluation. *)
Ltac by_computation :=
  vm_compute; first [reflexivity | discriminate | intros; discriminate].

(** Splits a goal that is, as written, a conjunction. *)
Ltac split_and := repeat match goal with |- _ /\ _ => split end.

(** ** Arrays *)

Section ArrayFacts.

Context {A : Type}.

Lemma nth_error_array_store_eq (l : list A) v : forall i,
  (i < List.length l)%nat -> nth_error (array_store l i v) i = Some v.
Proof.
  induction l as [| h t IH]; intros [| i] H; simpl in *; try lia; auto.
  apply IH. lia.
Qed.

Lemma nth_error_array_store_ne (l : list A) v : forall i j,
  i <> j -> nth_error (array_store l i v) j = nth_error l j.
Proof.
  induction l as [| h t IH]; intros [| i] [| j] H; simpl; auto; try congruence.
Qed.

Lemma sum_by_array_store (f : A -> Z) (l : list A) v : forall i old,
  nth_error l i = Some old ->
  sum_by f (array_store l i v) = sum_by f l - f old + f v.
Proof.
  induction l as [| h t IH]; intros [| i] old H; simpl in *; try discriminate.
  - injection H as <-. lia.
  - rewrite (IH _ _ H). lia.
Qed.

Lemma Forall_array_store (P : A -> Prop) (l : list A) v : forall i,
  Forall P l -> P v -> Forall P (array_store l i v).
Proof.
  induction l as [| h t IH]; intros [| i] Hl Hv; simpl; auto;
    inversion Hl; subst; constructor; auto.
Qed.

Lemma sum_by_bounds_entry (f : A -> Z) (l : list A) :
  Forall (fun a => 0 <= f a) l ->
  forall i a, nth_error l i = Some a -> 0 <= f a <= sum_by f l.
Proof.
  induction 1 as [| h t Hh Ht IH]; intros [| i] a E; simpl in *; try discriminate.
  - injection E as <-.
    assert (0 <= sum_by f t) by (clear - Ht; induction Ht; simpl; lia). lia.
  - specialize (IH _ _ E). lia.
Qed.

Lemma sum_by_app (f : A -> Z) (l1 l2 : list A) :
  sum_by f (l1 ++ l2) = sum_by f l1 + sum_by f l2.
Proof. induction l1 as [| h t IH]; simpl; [reflexivity | rewrite IH; lia]. Qed.

Lemma sum_by_Permutation (f : A -> Z) (l1 l2 : list A) :
  Permutation l1 l2 -> sum_by f l1 = sum_by f l2.
Proof. induction 1; simpl; lia. Qed.

Lemma array_store_length (l : list A) (v : A) : forall n,
  List.length (array_store l n v) = List.length l.
Proof.
  induction l as [| h t IH]; intros [| n]; simpl; auto.
Qed.

Lemma firstn_array_store (l : list A) (v : A) : forall n,
  (n < List.length l)%nat ->
  firstn (S n) (array_store l n v) = firstn n l ++ [v].
Proof.
  induction l as [| h t IH]; intros n Hn; simpl in Hn; [lia |].
  destruct n as [| n]; [reflexivity |].
  change (firstn (S (S n)) (array_store (h :: t) (S n) v))
    with (h :: firstn (S n) (array_store t n v)).
  rewrite IH by lia. reflexivity.
Qed.

End ArrayFacts.


(** ** Epoch: the cyclic comparison inside a window *)

Section EpochWindow.

Import Epoch.

Lemma distance_range a b : 0 <= distance a b < kEpochIntOverflow.
Proof. unfold distance, kEpochIntOverflow. apply Z.mod_pos_bound. lia. Qed.

Lemma distance_self a : distance a a = 0.
Proof. unfold distance. rewrite Z.sub_diag. reflexivity. Qed.

(** Distances from a common base subtract, modulo the circle. *)
Lemma distance_via_base base a b :
  distance a b = (distance base b - distance base a) mod kEpochIntOverflow.
Proof.
  unfold distance. rewrite <- Zminus_mod. f_equal. lia.
Qed.

(** Inside a window [before] is [<] on the offsets from the base. *)
Lemma before_in_window base a b :
  in_window base a -> in_window base b ->
  before a b = (distance base a <? distance base b).
Proof.
  unfold in_window, before. intros Ha Hb.
  rewrite (distance_via_base base a b).
  pose proof (distance_range base a) as Ra.
  pose proof (distance_range base b) as Rb.
  unfold kEpochIntOverflow, kEpochIntHalf in *.
  destruct (Z.ltb_spec (distance base a) (distance base b)) as [Hlt | Hge].
  - rewrite Z.mod_small by lia.
    apply andb_true_intro. split; [apply Z.ltb_lt | apply Z.ltb_lt]; lia.
  - destruct (Z.eq_dec (distance base a) (distance base b)) as [Heq | Hne].
    + rewrite Heq, Z.sub_diag. reflexivity.
    + replace ((distance base b - distance base a) mod 2 ^ 32)
        with (distance base b - distance base a + 2 ^ 32).
      * apply andb_false_intro2. apply Z.ltb_ge. lia.
      * apply (Z.mod_unique _ _ (-1)); lia.
Qed.

Lemma in_window_self base : in_window base base.
Proof. unfold in_window. rewrite distance_self. unfold kEpochIntHalf. lia. Qed.

(** Two 32-bit epochs at the same offset are the same epoch. *)
Lemma distance_inj base a b :
  is_uint32 a -> is_uint32 b -> distance base a = distance base b -> a = b.
Proof.
  unfold is_uint32, distance, kEpochIntOverflow. intros Ha Hb H.
  assert (E : (a - b) mod 2 ^ 32 = 0).
  { replace (a - b) with ((a - base) - (b - base)) by lia.
    rewrite Zminus_mod, H, Z.sub_diag. reflexivity. }
  apply Z.mod_divide in E; [destruct E as [k Hk]; lia | lia].
Qed.

Lemma store_max_in_window base a b :
  in_window base a -> in_window base b ->
  in_window base (store_max a b) /\
  distance base (store_max a b) = Z.max (distance base a) (distance base b).
Proof.
  intros Ha Hb. unfold store_max. rewrite (before_in_window base a b Ha Hb).
  destruct (Z.ltb_spec (distance base a) (distance base b)); split; auto; lia.
Qed.

End EpochWindow.

(** ** Composer::DropResult *)

Section DropResultFacts.

Import Epoch Composer.

Variable args : DropVolatilesArguments.
Local Abbreviation valid_until := (valid_until_epoch_ (snapshot_ args)).

(** A result handed out for [args] lies in the window that starts at
    [valid_until_epoch_]. *)
Lemma result_of_in_window r : result_of args r -> in_window valid_until (max_observed_ r).
Proof.
  intros [_ [-> | H]]; [apply in_window_self |].
  unfold after, before in H. apply andb_prop in H. destruct H as [_ H].
  apply Z.ltb_lt in H. exact H.
Qed.

Lemma store_max_cases a b : store_max a b = a \/ store_max a b = b.
Proof. unfold store_max. destruct (before a b); auto. Qed.

Lemma in_window_after e :
  in_window valid_until e ->
  after e valid_until = (0 <? distance valid_until e).
Proof.
  intros He. unfold after.
  rewrite (before_in_window valid_until valid_until e (in_window_self _) He).
  rewrite distance_self. reflexivity.
Qed.

Lemma result_of_intro r :
  is_uint32 (max_observed_ r) -> is_uint32 valid_until ->
  in_window valid_until (max_observed_ r) -> result_of args r.
Proof.
  intros Hr Hv Hw. split; [exact Hr |].
  rewrite (in_window_after _ Hw).
  destruct (Z.ltb_spec 0 (distance valid_until (max_observed_ r))) as [Hpos | Hz]; [auto |].
  left. apply (distance_inj valid_until); auto.
  rewrite distance_self. pose proof (distance_range valid_until (max_observed_ r)). lia.
Qed.

Lemma combine_result_of a b :
  is_uint32 valid_until -> result_of args a -> result_of args b ->
  result_of args (combine a b).
Proof.
  intros Hv Ha Hb.
  pose proof (result_of_in_window _ Ha) as Wa.
  pose proof (result_of_in_window _ Hb) as Wb.
  apply result_of_intro; auto; simpl.
  - destruct (store_max_cases (max_observed_ a) (max_observed_ b)) as [-> | ->];
      [apply Ha | apply Hb].
  - apply (store_max_in_window valid_until); assumption.
Qed.

Lemma store_max_comm_in_window a b :
  is_uint32 a -> is_uint32 b -> in_window valid_until a -> in_window valid_until b ->
  store_max a b = store_max b a.
Proof.
  intros Ua Ub Wa Wb. unfold store_max.
  rewrite (before_in_window valid_until a b Wa Wb), (before_in_window valid_until b a Wb Wa).
  destruct (Z.ltb_spec (distance valid_until a) (distance valid_until b));
    destruct (Z.ltb_spec (distance valid_until b) (distance valid_until a));
    try reflexivity; try lia.
  apply (distance_inj valid_until); auto; lia.
Qed.

Lemma store_max_uint32 a b : is_uint32 a -> is_uint32 b -> is_uint32 (store_max a b).
Proof. intros; destruct (store_max_cases a b) as [-> | ->]; assumption. Qed.

Lemma store_max_assoc_in_window a b c :
  is_uint32 a -> is_uint32 b -> is_uint32 c ->
  in_window valid_until a -> in_window valid_until b -> in_window valid_until c ->
  store_max (store_max a b) c = store_max a (store_max b c).
Proof.
  intros Ua Ub Uc Wa Wb Wc.
  destruct (store_max_in_window valid_until a b Wa Wb) as [Wab Dab].
  destruct (store_max_in_window valid_until b c Wb Wc) as [Wbc Dbc].
  destruct (store_max_in_window valid_until _ c Wab Wc) as [_ D1].
  destruct (store_max_in_window valid_until a _ Wa Wbc) as [_ D2].
  apply (distance_inj valid_until); auto using store_max_uint32.
  rewrite D1, D2, Dab, Dbc. lia.
Qed.

(** Combining keeps "no new modifications" exactly when both sides had it. *)
Lemma no_new_modifications_combine a b :
  is_uint32 valid_until -> result_of args a -> result_of args b ->
  no_new_modifications args (combine a b) =
  no_new_modifications args a && no_new_modifications args b.
Proof.
  intros Hv Ha Hb.
  pose proof (result_of_in_window _ Ha) as Wa.
  pose proof (result_of_in_window _ Hb) as Wb.
  destruct (store_max_in_window valid_until _ _ Wa Wb) as [_ D].
  pose proof (distance_range valid_until (max_observed_ a)) as Ra.
  pose proof (distance_range valid_until (max_observed_ b)) as Rb.
  unfold no_new_modifications. simpl.
  assert (Eq : forall x, is_uint32 x ->
             (x =? valid_until) = (distance valid_until x =? 0)).
  { intros x Ux. destruct (Z.eqb_spec x valid_until) as [-> | Hne].
    - rewrite distance_self. reflexivity.
    - symmetry. apply Z.eqb_neq. intros Hd. apply Hne.
      apply (distance_inj valid_until); auto. rewrite distance_self. exact Hd. }
  rewrite !Eq; try apply Ha; try apply Hb;
    [| apply store_max_uint32; [apply Ha | apply Hb]].
  rewrite D.
  destruct (Z.eqb_spec (distance valid_until (max_observed_ a)) 0) as [Ea | Ea];
    destruct (Z.eqb_spec (distance valid_until (max_observed_ b)) 0) as [Eb | Eb];
    destruct (Z.eqb_spec (Z.max (distance valid_until (max_observed_ a))
                                (distance valid_until (max_observed_ b))) 0) as [Em | Em];
    try lia; destruct (dropped_all_ a), (dropped_all_ b); reflexivity.
Qed.

Lemma no_new_modifications_fold rs : forall acc,
  is_uint32 valid_until -> result_of args acc -> Forall (result_of args) rs ->
  no_new_modifications args (fold_left combine rs acc) =
  no_new_modifications args acc && forallb (no_new_modifications args) rs.
Proof.
  induction rs as [| r rs IH]; intros acc Hv Hacc Hrs; simpl.
  - rewrite andb_true_r. reflexivity.
  - inversion Hrs as [| ? ? Hr Hrs']; subst.
    rewrite IH; auto using combine_result_of.
    rewrite no_new_modifications_combine by assumption.
    rewrite andb_assoc. reflexivity.
Qed.

Lemma DropResult_new_result_of : is_uint32 valid_until -> result_of args (DropResult_new args).
Proof. intros Hv. split; [exact Hv | left; reflexivity]. Qed.

Lemma window_invariant_drop_invariant base r :
  in_window base valid_until -> window_invariant args base r -> drop_invariant args r.
Proof.
  intros Wv (Wr & Hle & Hd). unfold drop_invariant, after.
  rewrite (before_in_window base _ _ Wr Wv), (before_in_window base _ _ Wv Wr).
  split.
  - apply Z.ltb_ge. exact Hle.
  - intros H. apply Z.ltb_lt in H. auto.
Qed.

Lemma drop_invariant_window_invariant base r :
  in_window base valid_until -> in_window base (max_observed_ r) ->
  drop_invariant args r -> window_invariant args base r.
Proof.
  intros Wv Wr [Hb Ha]. unfold after in Ha.
  rewrite (before_in_window base _ _ Wr Wv) in Hb.
  rewrite (before_in_window base _ _ Wv Wr) in Ha.
  apply Z.ltb_ge in Hb. repeat split; auto.
  intros H. apply Ha. apply Z.ltb_lt. exact H.
Qed.

Lemma window_invariant_on_rec_observed base r epoch :
  in_window base epoch -> window_invariant args base r ->
  window_invariant args base (on_rec_observed r epoch).
Proof.
  intros We (Wr & Hle & Hd). unfold on_rec_observed, after.
  rewrite (before_in_window base _ _ Wr We).
  destruct (Z.ltb_spec (distance base (max_observed_ r)) (distance base epoch)).
  - repeat split; simpl; auto. lia.
  - repeat split; auto.
Qed.

Lemma window_invariant_combine base r other :
  window_invariant args base r -> window_invariant args base other ->
  window_invariant args base (combine r other).
Proof.
  intros (Wr & Hle & Hd) (Wo & Hle' & Hd').
  destruct (store_max_in_window base _ _ Wr Wo) as [W D].
  unfold window_invariant. simpl. rewrite D. repeat split; auto; [lia |].
  intros H.
  destruct (Z.max_spec (distance base (max_observed_ r)) (distance base (max_observed_ other)))
    as [[_ E] | [_ E]]; rewrite E in H.
  - rewrite (Hd' H). apply andb_false_r.
  - rewrite (Hd H). reflexivity.
Qed.

(** [store_max] is commutative and associative on the 32-bit epochs of one
    window, wherever the window starts. *)
Lemma store_max_comm_from base a b :
  is_uint32 a -> is_uint32 b -> in_window base a -> in_window base b ->
  store_max a b = store_max b a.
Proof.
  intros Ua Ub Wa Wb. unfold store_max.
  rewrite (before_in_window base a b Wa Wb), (before_in_window base b a Wb Wa).
  destruct (Z.ltb_spec (distance base a) (distance base b));
    destruct (Z.ltb_spec (distance base b) (distance base a));
    try reflexivity; try lia.
  apply (distance_inj base); auto; lia.
Qed.

Lemma store_max_assoc_from base a b c :
  is_uint32 a -> is_uint32 b -> is_uint32 c ->
  in_window base a -> in_window base b -> in_window base c ->
  store_max (store_max a b) c = store_max a (store_max b c).
Proof.
  intros Ua Ub Uc Wa Wb Wc.
  destruct (store_max_in_window base a b Wa Wb) as [Wab Dab].
  destruct (store_max_in_window base b c Wb Wc) as [Wbc Dbc].
  destruct (store_max_in_window base _ c Wab Wc) as [_ D1].
  destruct (store_max_in_window base a _ Wa Wbc) as [_ D2].
  apply (distance_inj base); auto using store_max_uint32.
  rewrite D1, D2, Dab, Dbc. lia.
Qed.

End DropResultFacts.

Section DropResultLaws.

Import Epoch Composer.

Lemma window_invariant_updates args base us : forall r,
  Forall (update_in_window base) us ->
  Forall (operand_ok args) us ->
  in_window base (valid_until_epoch_ (snapshot_ args)) ->
  window_invariant args base r ->
  window_invariant args base (apply_updates us r).
Proof.
  induction us as [| u us IH]; intros r Hw Hok Wv Hr; simpl; [exact Hr |].
  inversion Hw as [| ? ? Hu Hw']; subst. inversion Hok as [| ? ? Ho Hok']; subst.
  apply IH; auto. destruct u as [epoch | other]; simpl in *.
  - apply window_invariant_on_rec_observed; assumption.
  - apply window_invariant_combine; [assumption |].
    apply drop_invariant_window_invariant; assumption.
Qed.

(** C9.  A [DropResult] constructed from [args] and then updated by any
    sequence of [on_rec_observed] and [combine] calls, the operand of each
    [combine] satisfying the same two properties, has a [max_observed_] that
    is never before [valid_until_epoch_], and has [dropped_all_ = false]
    whenever [max_observed_] is after [valid_until_epoch_].  The epochs
    involved lie in one window of the cyclic epoch order. *)
Theorem DropResult_invariant args base us :
  in_window base (valid_until_epoch_ (snapshot_ args)) ->
  Forall (update_in_window base) us ->
  Forall (operand_ok args) us ->
  drop_invariant args (apply_updates us (DropResult_new args)).
Proof.
  intros Wv Hw Hok.
  apply (window_invariant_drop_invariant args base); [exact Wv |].
  apply window_invariant_updates; auto.
  unfold window_invariant, DropResult_new; simpl. repeat split; auto; lia.
Qed.

Lemma DropResult_invariant_witness :
  drop_invariant
    {| snapshot_ := {| valid_until_epoch_ := 10 |}; my_partition_ := 0;
       partitioned_drop_ := true |}
    (apply_updates
       [OnRecObserved 7; Combine {| max_observed_ := 12; dropped_all_ := false |};
        OnRecObserved 11; OnRecObserved 15]
       (DropResult_new
          {| snapshot_ := {| valid_until_epoch_ := 10 |}; my_partition_ := 0;
             partitioned_drop_ := true |})).
Proof.
  apply (DropResult_invariant _ 5).
  - vm_compute. reflexivity.
  - repeat constructor.
  - repeat constructor; simpl; intros; discriminate.
Defined.

(** C4.  [combine] takes the maximum, in the order of the epochs, of the two
    [max_observed_] and the conjunction of the two [dropped_all_]; it is
    commutative and associative on results whose epochs are 32-bit values of
    one window of the epoch comparison, wherever the window lies; a freshly
    constructed [DropResult] is its identity, on both sides, for the results
    handed out for the same [args], and the combination of two of these is
    one of them; the root volatile page is dropped only when every
    partition's result has [max_observed_ = valid_until_epoch_] and
    [dropped_all_ = true], which is when the combined result has. *)
Theorem DropResult_combine_laws args base a b c rs :
  is_uint32 (valid_until_epoch_ (snapshot_ args)) ->
  is_uint32 (max_observed_ a) -> is_uint32 (max_observed_ b) ->
  is_uint32 (max_observed_ c) ->
  in_window base (max_observed_ a) -> in_window base (max_observed_ b) ->
  in_window base (max_observed_ c) ->
  Forall (result_of args) rs ->
  (max_observed_ (combine a b) = store_max (max_observed_ a) (max_observed_ b) /\
   before (max_observed_ (combine a b)) (max_observed_ a) = false /\
   before (max_observed_ (combine a b)) (max_observed_ b) = false /\
   (max_observed_ (combine a b) = max_observed_ a \/
    max_observed_ (combine a b) = max_observed_ b) /\
   dropped_all_ (combine a b) = dropped_all_ a && dropped_all_ b) /\
  combine a b = combine b a /\
  combine (combine a b) c = combine a (combine b c) /\
  (forall r, result_of args r ->
     combine (DropResult_new args) r = r /\ combine r (DropResult_new args) = r) /\
  (forall r r', result_of args r -> result_of args r' -> result_of args (combine r r')) /\
  (drops_root_volatile args rs = true <->
   Forall (fun r => max_observed_ r = valid_until_epoch_ (snapshot_ args) /\
                    dropped_all_ r = true) rs) /\
  drops_root_volatile args rs = no_new_modifications args (combine_all args rs).
Proof.
  intros Hv Ua Ub Uc Wa Wb Wc Hrs.
  destruct (store_max_in_window _ _ _ Wa Wb) as [Wab Dab].
  split; [| split; [| split; [| split; [| split; [| split]]]]].
  - split; [reflexivity |]. simpl.
    split; [rewrite (before_in_window _ _ _ Wab Wa), Dab; apply Z.ltb_ge; lia |].
    split; [rewrite (before_in_window _ _ _ Wab Wb), Dab; apply Z.ltb_ge; lia |].
    split; [apply store_max_cases | reflexivity].
  - unfold combine. f_equal.
    + apply (store_max_comm_from base); assumption.
    + apply andb_comm.
  - unfold combine; simpl. f_equal.
    + apply (store_max_assoc_from base); assumption.
    + symmetry. apply andb_assoc.
  - intros r Hr.
    pose proof (result_of_in_window _ _ Hr) as Wr.
    pose proof (in_window_self (valid_until_epoch_ (snapshot_ args))) as Wv.
    assert (Ur := proj1 Hr).
    destruct r as [mr dr]. unfold combine, DropResult_new; simpl in *. split; f_equal.
    + unfold store_max. rewrite (before_in_window _ _ _ Wv Wr), distance_self.
      destruct (Z.ltb_spec 0 (distance (valid_until_epoch_ (snapshot_ args)) mr));
        [reflexivity |].
      apply (distance_inj (valid_until_epoch_ (snapshot_ args))); auto.
      rewrite distance_self.
      pose proof (distance_range (valid_until_epoch_ (snapshot_ args)) mr). lia.
    + unfold store_max. rewrite (before_in_window _ _ _ Wr Wv), distance_self.
      pose proof (distance_range (valid_until_epoch_ (snapshot_ args)) mr).
      destruct (Z.ltb_spec (distance (valid_until_epoch_ (snapshot_ args)) mr) 0);
        [lia | reflexivity].
    + apply andb_true_r.
  - intros r r' Hr Hr'. apply (combine_result_of args r r' Hv Hr Hr').
  - split.
    + intros H. unfold drops_root_volatile in H. rewrite forallb_forall in H.
      apply Forall_forall. intros r Hr. specialize (H r Hr).
      unfold no_new_modifications in H. apply andb_prop in H. destruct H as [E D].
      apply Z.eqb_eq in E. auto.
    + intros H. unfold drops_root_volatile. apply forallb_forall. intros r Hr.
      rewrite Forall_forall in H. destruct (H r Hr) as [E D].
      unfold no_new_modifications. rewrite E, D, Z.eqb_refl. reflexivity.
  - unfold combine_all.
    rewrite (no_new_modifications_fold args rs _ Hv (DropResult_new_result_of args Hv) Hrs).
    unfold no_new_modifications at 1, DropResult_new; simpl.
    rewrite Z.eqb_refl. reflexivity.
Qed.

Lemma DropResult_combine_laws_witness :
  combine {| max_observed_ := 5; dropped_all_ := true |}
          {| max_observed_ := 7; dropped_all_ := false |} =
  combine {| max_observed_ := 7; dropped_all_ := false |}
          {| max_observed_ := 5; dropped_all_ := true |}.
Proof.
  apply (DropResult_combine_laws
           {| snapshot_ := {| valid_until_epoch_ := 10 |}; my_partition_ := 0;
              partitioned_drop_ := true |}
           3
           {| max_observed_ := 5; dropped_all_ := true |}
           {| max_observed_ := 7; dropped_all_ := false |}
           {| max_observed_ := 12; dropped_all_ := false |}
           [{| max_observed_ := 10; dropped_all_ := true |}]).
  - unfold is_uint32; simpl; lia.
  - unfold is_uint32; simpl; lia.
  - unfold is_uint32; simpl; lia.
  - unfold is_uint32; simpl; lia.
  - vm_compute. reflexivity.
  - vm_compute. reflexivity.
  - vm_compute. reflexivity.
  - repeat constructor; unfold is_uint32; simpl; lia.
Defined.

End DropResultLaws.

(** ** Order and composition of the updates of a [DropResult] *)

Section DropResultOrder.

Import Epoch Composer.

Variable args : DropVolatilesArguments.
Variable base : Epoch.
Local Abbreviation valid_until := (valid_until_epoch_ (snapshot_ args)).
Hypothesis valid_until_uint32 : is_uint32 valid_until.
Hypothesis valid_until_in_window : in_window base valid_until.

Lemma DropResult_new_window_invariant : window_invariant args base (DropResult_new args).
Proof.
  unfold window_invariant. cbn. split_and; [exact valid_until_in_window | lia | lia].
Qed.

(** A result with the two properties absorbs a fresh one. *)
Lemma combine_DropResult_new_r r :
  window_invariant args base r -> combine r (DropResult_new args) = r.
Proof.
  intros (Wr & Hle & Hd). destruct r as [m d].
  unfold combine, store_max. cbn [max_observed_ dropped_all_ DropResult_new] in *.
  rewrite (before_in_window base _ _ Wr valid_until_in_window).
  destruct (Z.ltb_spec (distance base m) (distance base valid_until)); [lia |].
  rewrite andb_true_r. reflexivity.
Qed.

Lemma combine_DropResult_new_l other :
  is_uint32 (max_observed_ other) -> window_invariant args base other ->
  combine (DropResult_new args) other = other.
Proof.
  intros Uo (Wo & Hle & Hd). destruct other as [m d].
  unfold combine, store_max. cbn [max_observed_ dropped_all_ DropResult_new andb] in *.
  rewrite (before_in_window base _ _ valid_until_in_window Wo).
  destruct (Z.ltb_spec (distance base valid_until) (distance base m)) as [P | P];
    [reflexivity |].
  f_equal. apply (distance_inj base); auto. lia.
Qed.

(** Observing one record is combining with the fresh result that observed
    it. *)
Lemma on_rec_observed_as_combine r epoch :
  window_invariant args base r -> in_window base epoch ->
  on_rec_observed r epoch = combine r (on_rec_observed (DropResult_new args) epoch).
Proof.
  intros Hr We.
  unfold on_rec_observed at 2. unfold after. cbn [max_observed_ DropResult_new].
  rewrite (before_in_window base _ _ valid_until_in_window We).
  destruct (Z.ltb_spec (distance base valid_until) (distance base epoch)) as [P | P].
  - destruct Hr as (Wr & Hle & Hd). destruct r as [m d].
    unfold on_rec_observed, combine, after, store_max.
    cbn [max_observed_ dropped_all_] in *.
    rewrite (before_in_window base _ _ Wr We).
    destruct (Z.ltb_spec (distance base m) (distance base epoch)) as [L | L].
    + rewrite andb_false_r. reflexivity.
    + rewrite (Hd ltac:(lia)). reflexivity.
  - rewrite (combine_DropResult_new_r r Hr).
    destruct Hr as (Wr & Hle & Hd).
    unfold on_rec_observed, after. rewrite (before_in_window base _ _ Wr We).
    destruct (Z.ltb_spec (distance base (max_observed_ r)) (distance base epoch)); [lia |].
    reflexivity.
Qed.

Lemma operand_of_ok u :
  update_ok args base u ->
  is_uint32 (max_observed_ (operand_of args u)) /\
  window_invariant args base (operand_of args u).
Proof.
  destruct u as [epoch | other]; cbn [update_ok operand_of]; [| auto].
  intros [Ue We]. split.
  - unfold on_rec_observed. destruct (after epoch _); assumption.
  - apply window_invariant_on_rec_observed; [exact We |].
    apply DropResult_new_window_invariant.
Qed.

Lemma apply_update_as_combine r u :
  window_invariant args base r -> update_ok args base u ->
  apply_update r u = combine r (operand_of args u).
Proof.
  intros Hr. destruct u as [epoch | other]; cbn [update_ok operand_of apply_update].
  - intros [_ We]. apply on_rec_observed_as_combine; assumption.
  - reflexivity.
Qed.

Lemma combine_assoc_from a b c :
  is_uint32 (max_observed_ a) -> is_uint32 (max_observed_ b) -> is_uint32 (max_observed_ c) ->
  in_window base (max_observed_ a) ->
  in_window base (max_observed_ b) ->
  in_window base (max_observed_ c) ->
  combine (combine a b) c = combine a (combine b c).
Proof.
  intros. unfold combine. cbn [max_observed_ dropped_all_]. f_equal.
  - apply (store_max_assoc_from base); assumption.
  - symmetry. apply andb_assoc.
Qed.

Lemma combine_swap r a b :
  is_uint32 (max_observed_ r) -> is_uint32 (max_observed_ a) -> is_uint32 (max_observed_ b) ->
  in_window base (max_observed_ r) ->
  in_window base (max_observed_ a) ->
  in_window base (max_observed_ b) ->
  combine (combine r a) b = combine (combine r b) a.
Proof.
  intros Ur Ua Ub Wr Wa Wb.
  rewrite !combine_assoc_from by assumption. f_equal.
  unfold combine. f_equal; [apply (store_max_comm_from base); assumption | apply andb_comm].
Qed.

Lemma apply_update_ok r u :
  is_uint32 (max_observed_ r) -> window_invariant args base r ->
  update_ok args base u ->
  is_uint32 (max_observed_ (apply_update r u)) /\
  window_invariant args base (apply_update r u).
Proof.
  intros Ur Hr Hu.
  rewrite (apply_update_as_combine r u Hr Hu).
  destruct (operand_of_ok u Hu) as [Uo Ho].
  split.
  - cbn. apply store_max_uint32; assumption.
  - apply window_invariant_combine; assumption.
Qed.

Lemma apply_updates_ok us : forall r,
  is_uint32 (max_observed_ r) -> window_invariant args base r ->
  Forall (update_ok args base) us ->
  is_uint32 (max_observed_ (apply_updates us r)) /\
  window_invariant args base (apply_updates us r).
Proof.
  unfold apply_updates.
  induction us as [| u us IH]; intros r Ur Hr Hus; [auto |].
  inversion Hus as [| ? ? Hu Hl]; subst. cbn [fold_left].
  destruct (apply_update_ok r u Ur Hr Hu) as [U' H'].
  apply IH; assumption.
Qed.

(** The order of the updates does not matter: any two sequences of
    [on_rec_observed] and [combine] calls that are permutations of each other
    leave the same result, whatever order the pages and records of a storage
    are visited in.  The epochs lie in one window of the cyclic order and
    the operands have the two properties of the fields. *)
Theorem apply_updates_permutation us us' :
  Permutation us us' ->
  forall r,
  is_uint32 (max_observed_ r) -> window_invariant args base r ->
  Forall (update_ok args base) us ->
  apply_updates us r = apply_updates us' r.
Proof.
  unfold apply_updates.
  induction 1 as [| u l l' P IH | a b l | l l' l'' P1 IH1 P2 IH2]; intros r Ur Hr Hus.
  - reflexivity.
  - inversion Hus as [| ? ? Hu Hl]; subst. cbn [fold_left].
    destruct (apply_update_ok r u Ur Hr Hu) as [U' H'].
    apply IH; assumption.
  - inversion Hus as [| ? ? Hb Hl]; subst. inversion Hl as [| ? ? Ha Hl']; subst.
    cbn [fold_left]. f_equal.
    destruct (apply_update_ok r a Ur Hr Ha) as [Ua' Ha'].
    destruct (apply_update_ok r b Ur Hr Hb) as [Ub' Hb'].
    rewrite (apply_update_as_combine _ a Hb' Ha), (apply_update_as_combine _ b Ha' Hb).
    rewrite (apply_update_as_combine r a Hr Ha), (apply_update_as_combine r b Hr Hb).
    destruct (operand_of_ok a Ha) as [Uoa [Woa _]].
    destruct (operand_of_ok b Hb) as [Uob [Wob _]].
    destruct Hr as [Wr _].
    apply combine_swap; assumption.
  - rewrite (IH1 r Ur Hr Hus).
    apply IH2; try assumption.
    eapply Permutation_Forall; eassumption.
Qed.

(** Updates compose through [combine]: applying a sequence of updates to a
    result is combining that result with what the same updates make of a
    fresh one, which is how the result of a child page enters its parent's. *)
Theorem apply_updates_as_combine us : forall r,
  is_uint32 (max_observed_ r) -> window_invariant args base r ->
  Forall (update_ok args base) us ->
  apply_updates us r = combine r (apply_updates us (DropResult_new args)).
Proof.
  pose proof DropResult_new_window_invariant as Hn.
  induction us as [| u us IH]; intros r Ur Hr Hus.
  - cbn [apply_updates fold_left]. symmetry. apply combine_DropResult_new_r. exact Hr.
  - inversion Hus as [| ? ? Hu Hl]; subst.
    destruct (operand_of_ok u Hu) as [Uo Ho].
    destruct (apply_update_ok r u Ur Hr Hu) as [U1 H1].
    destruct (apply_update_ok (DropResult_new args) u valid_until_uint32 Hn Hu) as [U2 H2].
    destruct (apply_updates_ok us _ U2 H2 Hl) as [U3 H3].
    destruct (apply_updates_ok us (DropResult_new args) valid_until_uint32 Hn Hl) as [U4 H4].
    change (apply_updates (u :: us) r) with (apply_updates us (apply_update r u)).
    change (apply_updates (u :: us) (DropResult_new args))
      with (apply_updates us (apply_update (DropResult_new args) u)).
    rewrite (IH _ U1 H1 Hl), (IH (apply_update (DropResult_new args) u) U2 H2 Hl).
    rewrite (apply_update_as_combine r u Hr Hu).
    rewrite (apply_update_as_combine (DropResult_new args) u Hn Hu).
    rewrite (combine_DropResult_new_l _ Uo Ho).
    destruct Hr as [Wr _]. destruct Ho as [Wo _]. destruct H4 as [W4 _].
    apply combine_assoc_from; assumption.
Qed.

End DropResultOrder.

Section DropResultOrderExamples.

Import Composer.

Ltac check_drop :=
  repeat first [apply Forall_cons | apply Forall_nil];
  unfold update_ok, window_invariant, is_uint32; split_and; by_computation.

Lemma apply_updates_permutation_witness :
  let args := {| snapshot_ := {| valid_until_epoch_ := 10 |};
                 my_partition_ := 0; partitioned_drop_ := false |} in
  apply_updates [OnRecObserved 12; Combine {| max_observed_ := 15; dropped_all_ := false |};
                 OnRecObserved 7]
                (DropResult_new args) =
  apply_updates [OnRecObserved 7; OnRecObserved 12;
                 Combine {| max_observed_ := 15; dropped_all_ := false |}]
                (DropResult_new args).
Proof.
  intros args.
  apply (apply_updates_permutation args 5 ltac:(check_drop) ltac:(check_drop)
           [OnRecObserved 12; Combine {| max_observed_ := 15; dropped_all_ := false |};
            OnRecObserved 7]
           [OnRecObserved 7; OnRecObserved 12;
            Combine {| max_observed_ := 15; dropped_all_ := false |}]).
  - apply Permutation_sym. apply (Permutation_cons_app [_; _] []). apply Permutation_refl.
  - check_drop.
  - check_drop.
  - check_drop.
Defined.

Lemma apply_updates_as_combine_witness :
  let args := {| snapshot_ := {| valid_until_epoch_ := 10 |};
                 my_partition_ := 0; partitioned_drop_ := false |} in
  apply_updates [OnRecObserved 7; OnRecObserved 12]
                {| max_observed_ := 11; dropped_all_ := false |} =
  combine {| max_observed_ := 11; dropped_all_ := false |}
          (apply_updates [OnRecObserved 7; OnRecObserved 12] (DropResult_new args)).
Proof.
  intros args.
  apply (apply_updates_as_combine args 5 ltac:(check_drop) ltac:(check_drop)
           [OnRecObserved 7; OnRecObserved 12]
           {| max_observed_ := 11; dropped_all_ := false |}).
  - check_drop.
  - check_drop.
  - check_drop.
Defined.

End DropResultOrderExamples.

(** ** Xct: activation, the bounded sets, the work memory *)

Section XctFacts.

Import Xct.

(** C2.  [activate] called on a transaction that is not active leaves it
    active, with the read, write, lock-free write, pointer and page-version
    sets empty; the CLL is cleared, and when the RLL is not empty the CLL
    holds one entry for each RLL entry, in the same order, none of them
    taken. *)
Theorem activate_postcondition x isolation_level :
  active_ x = false ->
  active_ (activate x isolation_level) = true /\
  isolation_level_ (activate x isolation_level) = isolation_level /\
  read_set_size_ (activate x isolation_level) = 0 /\
  write_set_size_ (activate x isolation_level) = 0 /\
  lock_free_write_set_size_ (activate x isolation_level) = 0 /\
  pointer_set_size_ (activate x isolation_level) = 0 /\
  page_version_set_size_ (activate x isolation_level) = 0 /\
  get_pointer_set (activate x isolation_level) = [] /\
  get_page_version_set (activate x isolation_level) = [] /\
  (retrospective_lock_list_ x = [] ->
   current_lock_list_ (activate x isolation_level) = []) /\
  (retrospective_lock_list_ x <> [] ->
   Forall2 entry_matches (current_lock_list_ (activate x isolation_level))
           (retrospective_lock_list_ x) /\
   Forall (fun c => current_mode_ c = kNoLock)
          (current_lock_list_ (activate x isolation_level))) /\
  retrospective_lock_list_ (activate x isolation_level) = retrospective_lock_list_ x /\
  id_ (activate x isolation_level) = id_ x.
Proof.
  intros _. repeat (split; [reflexivity |]).
  split; [intros E; simpl; rewrite E; reflexivity |].
  split; [| split; reflexivity].
  intros Hne. simpl.
  destruct (retrospective_lock_list_ x) as [| r rll] eqn:E; [contradiction |].
  cbn [RetrospectiveLockList_is_empty negb].
  unfold prepopulate_for_retrospective_lock_list. clear E Hne.
  generalize (r :: rll). intros l. induction l as [| h t IH]; simpl.
  - split; constructor.
  - destruct IH as [IH1 IH2]. split; constructor; auto. split; reflexivity.
Qed.

Lemma do_call_bounded x c : sets_bounded x -> sets_bounded (snd (do_call x c)).
Proof.
  intros (Hp & Hv & Ha1 & Ha2). unfold sets_bounded, sets_allocated in *.
  destruct c as [a o | a o]; simpl.
  - unfold add_to_pointer_set.
    destruct (Z.leb_spec kMaxPointerSets (pointer_set_size_ x)); simpl;
      rewrite ?array_store_length; repeat split; auto; lia.
  - unfold add_to_page_version_set.
    destruct (Z.leb_spec kMaxPageVersionSets (page_version_set_size_ x)); simpl;
      rewrite ?array_store_length; repeat split; auto; lia.
Qed.

Lemma do_calls_bounded cs : forall x, sets_bounded x -> sets_bounded (do_calls cs x).
Proof.
  induction cs as [| c cs IH]; intros x Hx; simpl; [exact Hx |].
  apply IH. apply do_call_bounded. exact Hx.
Qed.

(** C5.  In a transaction, after any run of [add_to_pointer_set] and
    [add_to_page_version_set] calls, each of the two sets holds at most 1024
    entries; a call that would exceed the bound returns
    [kErrorCodeXctTooManyReads] and leaves the transaction as it was, and a
    call below the bound appends its entry. *)
Theorem pointer_and_page_version_set_bounds x isolation_level cs a o :
  sets_allocated x ->
  (Z.of_nat (List.length (get_pointer_set (do_calls cs (activate x isolation_level))))
     <= kMaxPointerSets /\
   Z.of_nat (List.length (get_page_version_set (do_calls cs (activate x isolation_level))))
     <= kMaxPageVersionSets /\
   0 <= pointer_set_size_ (do_calls cs (activate x isolation_level)) <= 1024 /\
   0 <= page_version_set_size_ (do_calls cs (activate x isolation_level)) <= 1024) /\
  (pointer_set_size_ (do_calls cs (activate x isolation_level)) = kMaxPointerSets ->
   add_to_pointer_set (do_calls cs (activate x isolation_level)) a o =
   (kErrorCodeXctTooManyReads, do_calls cs (activate x isolation_level))) /\
  (page_version_set_size_ (do_calls cs (activate x isolation_level)) = kMaxPageVersionSets ->
   add_to_page_version_set (do_calls cs (activate x isolation_level)) a o =
   (kErrorCodeXctTooManyReads, do_calls cs (activate x isolation_level))) /\
  (pointer_set_size_ (do_calls cs (activate x isolation_level)) < kMaxPointerSets ->
   fst (add_to_pointer_set (do_calls cs (activate x isolation_level)) a o) = kErrorCodeOk /\
   get_pointer_set (snd (add_to_pointer_set (do_calls cs (activate x isolation_level)) a o)) =
   get_pointer_set (do_calls cs (activate x isolation_level)) ++
   [{| pointer_address_ := a; pointer_observed_ := o |}]) /\
  (page_version_set_size_ (do_calls cs (activate x isolation_level)) < kMaxPageVersionSets ->
   fst (add_to_page_version_set (do_calls cs (activate x isolation_level)) a o) = kErrorCodeOk /\
   get_page_version_set
     (snd (add_to_page_version_set (do_calls cs (activate x isolation_level)) a o)) =
   get_page_version_set (do_calls cs (activate x isolation_level)) ++
   [{| version_address_ := a; version_observed_ := o |}]).
Proof.
  intros Ha.
  assert (B : sets_bounded (do_calls cs (activate x isolation_level))).
  { apply do_calls_bounded. destruct Ha as [Ha1 Ha2].
    unfold sets_bounded, sets_allocated, kMaxPointerSets, kMaxPageVersionSets in *.
    simpl. repeat split; auto; lia. }
  set (y := do_calls cs (activate x isolation_level)) in *.
  destruct B as (Hp & Hv & Ha1 & Ha2).
  unfold kMaxPointerSets, kMaxPageVersionSets in *.
  split; [| split; [| split; [| split]]].
  - unfold get_pointer_set, get_page_version_set.
    rewrite !length_firstn. repeat split; lia.
  - intros E. unfold add_to_pointer_set, kMaxPointerSets. rewrite E. reflexivity.
  - intros E. unfold add_to_page_version_set, kMaxPageVersionSets. rewrite E. reflexivity.
  - intros Hlt. unfold add_to_pointer_set, kMaxPointerSets.
    destruct (Z.leb_spec 1024 (pointer_set_size_ y)); [lia |].
    split; [reflexivity |]. unfold get_pointer_set; simpl.
    replace (Z.to_nat (pointer_set_size_ y + 1)) with (S (Z.to_nat (pointer_set_size_ y))) by lia.
    apply firstn_array_store. lia.
  - intros Hlt. unfold add_to_page_version_set, kMaxPageVersionSets.
    destruct (Z.leb_spec 1024 (page_version_set_size_ y)); [lia |].
    split; [reflexivity |]. unfold get_page_version_set; simpl.
    replace (Z.to_nat (page_version_set_size_ y + 1))
      with (S (Z.to_nat (page_version_set_size_ y))) by lia.
    apply firstn_array_store. lia.
Qed.

Lemma activate_postcondition_witness :
  Forall2 entry_matches
    (current_lock_list_
       (activate
          (set_retrospective_lock_list (initialized_xct 4096 1024)
             [{| rll_lock_id_ := 3; rll_mode_ := kReadLock |};
              {| rll_lock_id_ := 5; rll_mode_ := kWriteLock |}])
          kSerializable))
    [{| rll_lock_id_ := 3; rll_mode_ := kReadLock |};
     {| rll_lock_id_ := 5; rll_mode_ := kWriteLock |}] /\
  Forall (fun c => current_mode_ c = kNoLock)
    (current_lock_list_
       (activate
          (set_retrospective_lock_list (initialized_xct 4096 1024)
             [{| rll_lock_id_ := 3; rll_mode_ := kReadLock |};
              {| rll_lock_id_ := 5; rll_mode_ := kWriteLock |}])
          kSerializable)).
Proof.
  apply (activate_postcondition
           (set_retrospective_lock_list (initialized_xct 4096 1024)
              [{| rll_lock_id_ := 3; rll_mode_ := kReadLock |};
               {| rll_lock_id_ := 5; rll_mode_ := kWriteLock |}])
           kSerializable).
  - reflexivity.
  - simpl. discriminate.
Defined.

Lemma pointer_and_page_version_set_bounds_witness :
  add_to_pointer_set
    (do_calls (repeat (AddToPointerSet 64 1) 1024)
       (activate (initialized_xct 4096 1024) kSerializable)) 128 2 =
  (kErrorCodeXctTooManyReads,
   do_calls (repeat (AddToPointerSet 64 1) 1024)
     (activate (initialized_xct 4096 1024) kSerializable)).
Proof.
  apply (pointer_and_page_version_set_bounds (initialized_xct 4096 1024) kSerializable
           (repeat (AddToPointerSet 64 1) 1024) 128 2).
  - split; vm_compute; reflexivity.
  - vm_compute. reflexivity.
Defined.

End XctFacts.

(** ** Xct::issue_next_id *)

Section IssueNextId.

Import Epoch Xct.

(** For two epochs of the past of [e], [before] compares how far back they
    lie. *)
Lemma before_by_age e a b :
  distance a e < kEpochIntHalf -> distance b e < kEpochIntHalf ->
  before a b = (distance b e <? distance a e).
Proof.
  intros Ha Hb. unfold before.
  assert (E : distance a b = (distance a e - distance b e) mod kEpochIntOverflow).
  { unfold distance. rewrite <- Zminus_mod. f_equal. lia. }
  rewrite E.
  pose proof (distance_range a e) as Ra. pose proof (distance_range b e) as Rb.
  unfold kEpochIntOverflow, kEpochIntHalf in *.
  destruct (Z.ltb_spec (distance b e) (distance a e)) as [Hlt | Hge].
  - rewrite Z.mod_small by lia.
    apply andb_true_intro; split; apply Z.ltb_lt; lia.
  - destruct (Z.eq_dec (distance a e) (distance b e)) as [Heq | Hne].
    + rewrite Heq, Z.sub_diag. reflexivity.
    + replace ((distance a e - distance b e) mod 2 ^ 32)
        with (distance a e - distance b e + 2 ^ 32).
      * apply andb_false_intro2. apply Z.ltb_ge. lia.
      * apply (Z.mod_unique _ _ (-1)); lia.
Qed.

Lemma same_age e a b :
  is_uint32 a -> is_uint32 b -> distance a e = distance b e -> a = b.
Proof.
  unfold is_uint32, distance, kEpochIntOverflow. intros Ha Hb H.
  assert (E : (a - b) mod 2 ^ 32 = 0).
  { replace (a - b) with ((e - b) - (e - a)) by lia.
    rewrite Zminus_mod, H, Z.sub_diag. reflexivity. }
  apply Z.mod_divide in E; [destruct E as [k Hk]; lia | lia].
Qed.

Lemma age_zero e a : is_uint32 a -> is_uint32 e -> distance a e = 0 -> a = e.
Proof.
  intros Ha He H. apply (same_age e); auto. rewrite distance_self. exact H.
Qed.

(** The successor of [e] is after every epoch of the recent past of [e]. *)
Lemma before_one_more e a :
  is_uint32 e -> distance a e < kEpochIntHalf - 2 -> before a (one_more e) = true.
Proof.
  intros He Ha. pose proof (distance_range a e) as Ra.
  unfold before, one_more, is_uint32, kEpochIntOverflow, kEpochIntHalf in *.
  assert (D : distance a (if e + 1 =? 2 ^ 32 then 1 else e + 1) = distance a e + 1 \/
              distance a (if e + 1 =? 2 ^ 32 then 1 else e + 1) = distance a e + 2).
  { unfold distance, kEpochIntOverflow in *.
    destruct (Z.eqb_spec (e + 1) (2 ^ 32)) as [E | E].
    - right. symmetry.
      apply (Z.mod_unique _ _ ((e - a) / 2 ^ 32 - 1)); [lia |].
      pose proof (Z.div_mod (e - a) (2 ^ 32)). lia.
    - left. symmetry.
      apply (Z.mod_unique _ _ ((e - a) / 2 ^ 32)); [lia |].
      pose proof (Z.div_mod (e - a) (2 ^ 32)). lia. }
  apply andb_true_intro; split; apply Z.ltb_lt; lia.
Qed.

Lemma one_more_uint32 e : is_uint32 e -> is_uint32 (one_more e) /\ is_valid (one_more e) = true.
Proof.
  unfold is_uint32, one_more, is_valid, kEpochIntOverflow, kEpochInvalid. intros He.
  destruct (Z.eqb_spec (e + 1) (2 ^ 32)); split; try lia;
    apply negb_true_iff; apply Z.eqb_neq; lia.
Qed.

(** The larger of two ids of the past of [e]: one of the two, at least as
    recent as both, and with the larger ordinal among those of its epoch. *)
Lemma XctId_store_max_spec e i j :
  is_uint32 (epoch_ i) -> is_uint32 (epoch_ j) ->
  distance (epoch_ i) e < kEpochIntHalf -> distance (epoch_ j) e < kEpochIntHalf ->
  (XctId_store_max i j = i \/ XctId_store_max i j = j) /\
  distance (epoch_ (XctId_store_max i j)) e <= distance (epoch_ i) e /\
  distance (epoch_ (XctId_store_max i j)) e <= distance (epoch_ j) e /\
  (distance (epoch_ (XctId_store_max i j)) e = distance (epoch_ i) e ->
   ordinal_ i <= ordinal_ (XctId_store_max i j)) /\
  (distance (epoch_ (XctId_store_max i j)) e = distance (epoch_ j) e ->
   ordinal_ j <= ordinal_ (XctId_store_max i j)).
Proof.
  intros Ui Uj Ai Aj. unfold XctId_store_max, XctId_before.
  rewrite (before_by_age e _ _ Ai Aj).
  destruct (Z.ltb_spec (distance (epoch_ j) e) (distance (epoch_ i) e)) as [L | L];
    cbn [orb]; [repeat split; auto; lia |].
  destruct (Z.eqb_spec (epoch_ i) (epoch_ j)) as [E | E]; cbn [andb].
  - destruct (Z.ltb_spec (ordinal_ i) (ordinal_ j)); rewrite ?E;
      repeat split; auto; try lia; rewrite <- ?E; lia.
  - assert (distance (epoch_ i) e <> distance (epoch_ j) e)
      by (intros H; apply E; apply (same_age e); assumption).
    repeat split; auto; lia.
Qed.

(** An id of the past of [e] is before an id of [e] with a larger ordinal
    than every id of [e] that is not later. *)
Lemma XctId_before_in_epoch e k o :
  is_uint32 (epoch_ k) -> is_uint32 e -> distance (epoch_ k) e < kEpochIntHalf ->
  (distance (epoch_ k) e = 0 -> ordinal_ k < o) ->
  XctId_before k {| epoch_ := e; ordinal_ := o |} = true.
Proof.
  intros Uk Ue Ak Ho. unfold XctId_before; cbn [epoch_ ordinal_].
  assert (Hself : distance e e < kEpochIntHalf)
    by (rewrite distance_self; unfold kEpochIntHalf; lia).
  rewrite (before_by_age e _ _ Ak Hself), distance_self.
  pose proof (distance_range (epoch_ k) e).
  destruct (Z.ltb_spec 0 (distance (epoch_ k) e)) as [P | P]; [reflexivity |].
  assert (Z0 : distance (epoch_ k) e = 0) by lia.
  rewrite (age_zero e _ Uk Ue Z0), Z.eqb_refl. cbn [orb andb].
  apply Z.ltb_lt. auto.
Qed.

Lemma XctId_before_in_next_epoch e k o :
  is_uint32 e -> distance (epoch_ k) e < kEpochIntHalf - 2 ->
  XctId_before k {| epoch_ := one_more e; ordinal_ := o |} = true.
Proof.
  intros Ue Ak. unfold XctId_before; cbn [epoch_ ordinal_].
  rewrite (before_one_more e _ Ue Ak). reflexivity.
Qed.

(** C1.  [issue_next_id], called at a commit with the ids of the past of the
    commit epoch, issues an id that is greater, in the order on (epoch,
    ordinal), than the id the thread issued before and than [max_xct_id];
    the id lies in the epoch handed back, which is the input epoch or after
    it; when the ordinal is full for the epoch, the epoch advances by one and
    the ordinal restarts at 1.  The function is total: the call never
    fails. *)
Theorem issue_next_id_postcondition x max_xct_id epoch :
  is_uint32 epoch -> is_valid epoch = true ->
  issued_by epoch (id_ x) -> issued_by epoch max_xct_id ->
  XctId_before (id_ x) (id_ (fst (issue_next_id x max_xct_id epoch))) = true /\
  XctId_before max_xct_id (id_ (fst (issue_next_id x max_xct_id epoch))) = true /\
  epoch_ (id_ (fst (issue_next_id x max_xct_id epoch))) =
    snd (issue_next_id x max_xct_id epoch) /\
  (snd (issue_next_id x max_xct_id epoch) = epoch \/
   before epoch (snd (issue_next_id x max_xct_id epoch)) = true) /\
  (ordinal_full x max_xct_id epoch ->
   snd (issue_next_id x max_xct_id epoch) = one_more epoch /\
   ordinal_ (id_ (fst (issue_next_id x max_xct_id epoch))) = 1) /\
  (~ ordinal_full x max_xct_id epoch ->
   snd (issue_next_id x max_xct_id epoch) = epoch) /\
  XctId_wf (id_ (fst (issue_next_id x max_xct_id epoch))) /\
  remember_previous_xct_id_asserts x (id_ (fst (issue_next_id x max_xct_id epoch))) = true.
Proof.
  intros He Hv [[Ui Oi] Ai] [[Um Om] Am].
  destruct (one_more_uint32 epoch He) as [Uo Vo].
  pose proof (distance_range (epoch_ (id_ x)) epoch) as Ri.
  pose proof (distance_range (epoch_ max_xct_id) epoch) as Rm.
  assert (Hi : distance (epoch_ (id_ x)) epoch < kEpochIntHalf)
    by (unfold kEpochIntHalf in *; lia).
  assert (Hm : distance (epoch_ max_xct_id) epoch < kEpochIntHalf)
    by (unfold kEpochIntHalf in *; lia).
  assert (Be : before epoch (one_more epoch) = true).
  { apply before_one_more; [exact He |]. rewrite distance_self. unfold kEpochIntHalf. lia. }
  destruct (XctId_store_max_spec epoch _ _ Ui Um Hi Hm) as (Hl & Li & Lm & Ei & Em).
  set (largest := XctId_store_max (id_ x) max_xct_id) in *.
  assert (Ul : is_uint32 (epoch_ largest)) by (destruct Hl as [-> | ->]; assumption).
  assert (Ol : 0 <= ordinal_ largest <= kMaxXctOrdinal)
    by (destruct Hl as [-> | ->]; assumption).
  pose proof (distance_range (epoch_ largest) epoch) as Rl.
  assert (Al : distance (epoch_ largest) epoch < kEpochIntHalf) by lia.
  assert (Hself : distance epoch epoch < kEpochIntHalf)
    by (rewrite distance_self; unfold kEpochIntHalf; lia).
  unfold remember_previous_xct_id_asserts, ordinal_full, XctId_wf, XctId_is_valid.
  unfold issue_next_id. fold largest.
  rewrite (before_by_age epoch _ _ Al Hself), distance_self.
  unfold kMaxXctOrdinal in *.
  destruct (Z.ltb_spec 0 (distance (epoch_ largest) epoch)) as [P | P].
  - (* the larger id is of an earlier epoch: ordinal 1 of [epoch] *)
    cbn [epoch_ ordinal_]. destruct (Z.leb_spec (2 ^ 24 - 1) 0) as [F | F]; [lia |].
    cbn [fst snd id_ remember_previous_xct_id epoch_ ordinal_].
    assert (B1 : XctId_before (id_ x) {| epoch_ := epoch; ordinal_ := 0 + 1 |} = true)
      by (apply XctId_before_in_epoch; auto; lia).
    assert (B2 : XctId_before max_xct_id {| epoch_ := epoch; ordinal_ := 0 + 1 |} = true)
      by (apply XctId_before_in_epoch; auto; lia).
    rewrite B1, B2, Hv. cbn [andb].
    split_and; auto; try lia.
    intros [[E _] | [E _]]; rewrite E, distance_self in *; lia.
  - assert (Z0 : distance (epoch_ largest) epoch = 0) by lia.
    pose proof (age_zero epoch _ Ul He Z0) as El.
    destruct (Z.leb_spec (2 ^ 24 - 1) (ordinal_ largest)) as [F | F];
      cbn [fst snd id_ remember_previous_xct_id epoch_ ordinal_].
    + (* the ordinal is full: ordinal 1 of the next epoch *)
      rewrite El.
      rewrite (XctId_before_in_next_epoch epoch (id_ x) 1 He Ai).
      rewrite (XctId_before_in_next_epoch epoch max_xct_id 1 He Am).
      rewrite Vo. cbn [andb].
      split_and; auto; try lia.
      intros Hn. exfalso. apply Hn.
      destruct Hl as [E | E]; [left | right]; rewrite <- E; split; auto; lia.
    + (* the next ordinal of [epoch] *)
      rewrite El.
      assert (B1 : XctId_before (id_ x)
                     {| epoch_ := epoch; ordinal_ := ordinal_ largest + 1 |} = true).
      { apply XctId_before_in_epoch; auto. intros Z1.
        assert (ordinal_ (id_ x) <= ordinal_ largest) by (apply Ei; lia). lia. }
      assert (B2 : XctId_before max_xct_id
                     {| epoch_ := epoch; ordinal_ := ordinal_ largest + 1 |} = true).
      { apply XctId_before_in_epoch; auto. intros Z1.
        assert (ordinal_ max_xct_id <= ordinal_ largest) by (apply Em; lia). lia. }
      rewrite B1, B2, Hv. cbn [andb].
      assert (Pos : (0 <? ordinal_ largest + 1) = true) by (apply Z.ltb_lt; lia).
      rewrite Pos.
      split_and; auto; try lia.
      intros [[E O] | [E O]].
      * assert (ordinal_ (id_ x) <= ordinal_ largest)
          by (apply Ei; rewrite E, distance_self; lia). lia.
      * assert (ordinal_ max_xct_id <= ordinal_ largest)
          by (apply Em; rewrite E, distance_self; lia). lia.
Qed.

Lemma issue_next_id_postcondition_witness :
  snd (issue_next_id
         (remember_previous_xct_id (initialized_xct 4096 1024)
            {| epoch_ := 7; ordinal_ := 2 ^ 24 - 1 |})
         {| epoch_ := 6; ordinal_ := 40 |} 7) = one_more 7 /\
  ordinal_ (id_ (fst (issue_next_id
         (remember_previous_xct_id (initialized_xct 4096 1024)
            {| epoch_ := 7; ordinal_ := 2 ^ 24 - 1 |})
         {| epoch_ := 6; ordinal_ := 40 |} 7))) = 1.
Proof.
  apply (issue_next_id_postcondition
           (remember_previous_xct_id (initialized_xct 4096 1024)
              {| epoch_ := 7; ordinal_ := 2 ^ 24 - 1 |})
           {| epoch_ := 6; ordinal_ := 40 |} 7).
  - unfold is_uint32; lia.
  - reflexivity.
  - repeat split; by_computation.
  - repeat split; by_computation.
  - left. split; reflexivity.
Defined.

End IssueNextId.

(** ** Xct::acquire_local_work_memory *)

Section LocalWorkMemory.

Import Xct.

Lemma round_up_spec n alignment :
  0 < alignment -> 0 <= n ->
  n <= round_up n alignment < n + alignment /\ round_up n alignment mod alignment = 0.
Proof.
  intros Ha Hn. unfold round_up.
  pose proof (Z.div_mod n alignment ltac:(lia)) as D.
  pose proof (Z.mod_pos_bound n alignment Ha) as B.
  destruct (Z.eqb_spec (n mod alignment) 0) as [E | E].
  - split; [lia | exact E].
  - split; [nia |]. apply Z.mod_mul. lia.
Qed.

Lemma rounded_size_no_wrap size alignment :
  0 < alignment -> 0 <= size -> round_up size alignment < 2 ^ 32 ->
  rounded_size size alignment = round_up size alignment.
Proof.
  intros Ha Hs Hr. unfold rounded_size, round_up, wrap32 in *.
  destruct (Z.eqb_spec (size mod alignment) 0) as [E | E]; [reflexivity |].
  cbn [negb].
  pose proof (Z.div_pos size alignment Hs Ha).
  rewrite (Z.mod_small (size / alignment + 1)) by nia.
  apply Z.mod_small. nia.
Qed.

Lemma rounded_begin_no_wrap begin alignment :
  0 < alignment -> 0 <= begin -> round_up begin alignment < 2 ^ 64 ->
  rounded_begin begin alignment = round_up begin alignment.
Proof.
  intros Ha Hs Hr. unfold rounded_begin, round_up, wrap64 in *.
  destruct (Z.eqb_spec (begin mod alignment) 0) as [E | E]; [reflexivity |].
  cbn [negb].
  pose proof (Z.div_pos begin alignment Hs Ha).
  rewrite (Z.mod_small (begin / alignment + 1)) by nia.
  apply Z.mod_small. nia.
Qed.

(** Where the 32-bit rounding of [size] does not wrap, the call does what a
    bump allocator does: it refuses a request that does not fit and leaves
    the cursor alone, and otherwise hands out an aligned offset and moves the
    cursor by the rounded size, never past the end. *)
Lemma acquire_local_work_memory_no_wrap x size alignment :
  0 < alignment -> is_uint32 alignment -> is_uint32 size ->
  round_up size alignment < 2 ^ 32 ->
  0 <= local_work_memory_cur_ x <= local_work_memory_size_ x ->
  local_work_memory_size_ x <= 2 ^ 64 - 2 ^ 33 ->
  (local_work_memory_size_ x <
     round_up size alignment + round_up (local_work_memory_cur_ x) alignment ->
   acquire_local_work_memory x size alignment =
   (kErrorCodeXctNoMoreLocalWorkMemory, x, None)) /\
  (round_up size alignment + round_up (local_work_memory_cur_ x) alignment
     <= local_work_memory_size_ x ->
   acquire_local_work_memory x size alignment =
   (kErrorCodeOk,
    set_local_work_memory_cur x
      (round_up size alignment + round_up (local_work_memory_cur_ x) alignment),
    Some (local_work_memory_ x + round_up (local_work_memory_cur_ x) alignment)) /\
   round_up (local_work_memory_cur_ x) alignment mod alignment = 0 /\
   local_work_memory_cur_ x
     <= round_up size alignment + round_up (local_work_memory_cur_ x) alignment
     <= local_work_memory_size_ x).
Proof.
  intros Ha Ua Us Hr Hc Hm. unfold is_uint32 in *.
  destruct (round_up_spec size alignment Ha ltac:(lia)) as [Rs Ms].
  destruct (round_up_spec (local_work_memory_cur_ x) alignment Ha ltac:(lia)) as [Rb Mb].
  assert (P33 : 2 ^ 33 = 2 * 2 ^ 32) by reflexivity.
  assert (P64 : 2 ^ 64 = 2 ^ 32 * 2 ^ 32) by reflexivity.
  unfold acquire_local_work_memory.
  rewrite (rounded_size_no_wrap size alignment) by lia.
  rewrite (rounded_begin_no_wrap (local_work_memory_cur_ x) alignment) by nia.
  unfold wrap64. rewrite Z.mod_small by nia.
  split; intros H.
  - destruct (Z.ltb_spec (local_work_memory_size_ x)
                (round_up size alignment + round_up (local_work_memory_cur_ x) alignment));
      [reflexivity | lia].
  - destruct (Z.ltb_spec (local_work_memory_size_ x)
                (round_up size alignment + round_up (local_work_memory_cur_ x) alignment));
      [lia |].
    split; [reflexivity |]. split; [exact Mb | lia].
Qed.

Lemma acquire_local_work_memory_no_wrap_witness :
  acquire_local_work_memory (initialized_xct 4096 1024) 13 8 =
  (kErrorCodeOk, set_local_work_memory_cur (initialized_xct 4096 1024) 16, Some 4096).
Proof.
  apply (acquire_local_work_memory_no_wrap (initialized_xct 4096 1024) 13 8);
    unfold is_uint32; simpl; try lia; by_computation.
Defined.

(** C10.  A request of [2^32 - 1] bytes with alignment 8 against a work memory
    of 1024 bytes: the alignment-rounded size, [2^32], exceeds the memory, yet
    the 32-bit rounding wraps to 0 and the call returns [kErrorCodeOk] with
    the cursor where it was. *)
Theorem acquire_local_work_memory_size_wraps :
  local_work_memory_size_ (initialized_xct 4096 1024) <
    round_up 4294967295 8 +
    round_up (local_work_memory_cur_ (initialized_xct 4096 1024)) 8 /\
  rounded_size 4294967295 8 = 0 /\
  acquire_local_work_memory (initialized_xct 4096 1024) 4294967295 8 =
  (kErrorCodeOk, initialized_xct 4096 1024, Some 4096).
Proof.
  split; [vm_compute; reflexivity |]. split; vm_compute; reflexivity.
Qed.

End LocalWorkMemory.

(** ** Runs of [acquire_local_work_memory] within one transaction *)

Section WorkMemoryRuns.

Import Xct.

(** One call, whatever its arguments and whether or not the rounding wraps,
    leaves the cursor within the work memory and the memory where it is. *)
Lemma acquire_local_work_memory_cursor x size alignment :
  0 <= local_work_memory_cur_ x <= local_work_memory_size_ x ->
  let x' := snd (fst (acquire_local_work_memory x size alignment)) in
  0 <= local_work_memory_cur_ x' <= local_work_memory_size_ x' /\
  local_work_memory_size_ x' = local_work_memory_size_ x /\
  local_work_memory_ x' = local_work_memory_ x.
Proof.
  intros Hc. unfold acquire_local_work_memory.
  destruct (Z.ltb_spec (local_work_memory_size_ x)
              (wrap64 (rounded_size size alignment +
                       rounded_begin (local_work_memory_cur_ x) alignment))) as [L | L];
    cbn [fst snd set_local_work_memory_cur local_work_memory_cur_ local_work_memory_size_
         local_work_memory_].
  - auto.
  - split; [| auto]. split; [| exact L].
    unfold wrap64. apply Z.mod_pos_bound. reflexivity.
Qed.

Lemma acquire_all_step x size alignment rest :
  fst (acquire_all x ((size, alignment) :: rest)) =
  fst (acquire_all (snd (fst (acquire_local_work_memory x size alignment))) rest).
Proof.
  cbn [acquire_all].
  destruct (acquire_local_work_memory x size alignment) as [[e x'] out].
  cbn [fst snd].
  destruct e; try reflexivity.
  destruct out; try reflexivity.
  destruct (acquire_all x' rest). reflexivity.
Qed.

Lemma local_work_memory_cur_bounded requests : forall x,
  0 <= local_work_memory_cur_ x <= local_work_memory_size_ x ->
  0 <= local_work_memory_cur_ (fst (acquire_all x requests))
    <= local_work_memory_size_ (fst (acquire_all x requests)) /\
  local_work_memory_size_ (fst (acquire_all x requests)) = local_work_memory_size_ x /\
  local_work_memory_ (fst (acquire_all x requests)) = local_work_memory_ x.
Proof.
  induction requests as [| [size alignment] rest IH]; intros x Hc.
  - cbn. auto.
  - rewrite acquire_all_step.
    destruct (acquire_local_work_memory_cursor x size alignment Hc) as [C [S B]].
    destruct (IH _ C) as [C' [S' B']].
    split; [exact C' |]. split; congruence.
Qed.

(** A call whose rounding does not wrap either refuses and changes nothing,
    or grants an aligned block that begins at or after the cursor and moves
    the cursor to the block's end or after it. *)
Lemma acquire_local_work_memory_cases x size alignment :
  request_fits (size, alignment) ->
  0 <= local_work_memory_cur_ x <= local_work_memory_size_ x ->
  local_work_memory_size_ x <= 2 ^ 64 - 2 ^ 33 ->
  acquire_local_work_memory x size alignment =
    (kErrorCodeXctNoMoreLocalWorkMemory, x, None) \/
  exists begin cur,
    acquire_local_work_memory x size alignment =
      (kErrorCodeOk, set_local_work_memory_cur x cur, Some (local_work_memory_ x + begin)) /\
    local_work_memory_cur_ x <= begin /\
    begin < local_work_memory_cur_ x + alignment /\
    begin mod alignment = 0 /\
    begin + size <= cur <= local_work_memory_size_ x.
Proof.
  intros [[[Hs Hs'] [[Ha' Ha''] Ha]] Hr] Hc Hm. cbn [fst snd] in *.
  assert (0 < alignment) by lia. clear Ha Ha'. rename H into Ha.
  destruct (round_up_spec size alignment Ha Hs) as [Rs Ms].
  destruct (round_up_spec (local_work_memory_cur_ x) alignment Ha ltac:(lia)) as [Rb Mb].
  assert (P33 : 2 ^ 33 = 2 * 2 ^ 32) by reflexivity.
  assert (P64 : 2 ^ 64 = 2 ^ 32 * 2 ^ 32) by reflexivity.
  unfold acquire_local_work_memory.
  rewrite (rounded_size_no_wrap size alignment) by lia.
  rewrite (rounded_begin_no_wrap (local_work_memory_cur_ x) alignment) by nia.
  unfold wrap64. rewrite Z.mod_small by nia.
  destruct (Z.ltb_spec (local_work_memory_size_ x)
              (round_up size alignment + round_up (local_work_memory_cur_ x) alignment)).
  - left. reflexivity.
  - right. eexists. eexists. split; [reflexivity |]. split_and; lia.
Qed.

(** Every block granted from a state on begins at the state's cursor or after
    it, and the blocks are granted in ascending order. *)
Lemma acquire_all_blocks requests : forall x,
  Forall request_fits requests ->
  0 <= local_work_memory_cur_ x <= local_work_memory_size_ x ->
  local_work_memory_size_ x <= 2 ^ 64 - 2 ^ 33 ->
  Forall (fun block =>
            local_work_memory_ x + local_work_memory_cur_ x <= fst block /\
            fst block + snd block <= local_work_memory_ x + local_work_memory_size_ x)
         (snd (acquire_all x requests)) /\
  ForallOrdPairs block_before (snd (acquire_all x requests)).
Proof.
  induction requests as [| [size alignment] rest IH]; intros x Hf Hc Hm.
  - cbn. split; constructor.
  - inversion Hf as [| ? ? Hfit Hrest]; subst.
    cbn [acquire_all].
    destruct (acquire_local_work_memory_cases x size alignment Hfit Hc Hm)
      as [E | [begin [cur [E [B1 [B2 [B4 B3]]]]]]]; rewrite E.
    + apply IH; assumption.
    + destruct (IH (set_local_work_memory_cur x cur) Hrest) as [I O].
      * cbn. destruct Hfit as [[[? ?] _] _]. cbn [fst] in *. lia.
      * exact Hm.
      * destruct (acquire_all (set_local_work_memory_cur x cur) rest) as [x'' blocks].
        cbn [snd fst] in *.
        destruct Hfit as [[[Hs _] _] _]. cbn [fst] in Hs.
        split.
        -- constructor; [cbn [fst snd]; lia |].
           eapply Forall_impl; [| exact I]. cbn. intros b. lia.
        -- constructor; [| exact O].
           eapply Forall_impl; [| exact I]. unfold block_before. cbn. intros b. lia.
Qed.

(** Refused calls leave the cursor at 0, so the first block granted begins at
    the base. *)
Lemma acquire_all_first_block requests : forall x block,
  Forall request_fits requests ->
  local_work_memory_cur_ x = 0 ->
  0 <= local_work_memory_size_ x <= 2 ^ 64 - 2 ^ 33 ->
  hd_error (snd (acquire_all x requests)) = Some block ->
  fst block = local_work_memory_ x.
Proof.
  induction requests as [| [size alignment] rest IH]; intros x block Hf Hc Hm Hb.
  - discriminate Hb.
  - inversion Hf as [| ? ? Hfit Hrest]; subst.
    cbn [acquire_all] in Hb.
    destruct (acquire_local_work_memory_cases x size alignment Hfit ltac:(lia) ltac:(lia))
      as [E | [begin [cur [E [B1 [B2 [B4 B3]]]]]]]; rewrite E in Hb.
    + eapply IH; eauto.
    + destruct (acquire_all (set_local_work_memory_cur x cur) rest) as [x'' blocks].
      cbn in Hb. injection Hb as <-. cbn [fst].
      rewrite Z.mod_small in B4 by lia. lia.
Qed.

(** The blocks a transaction is granted between [activate] and the end of the
    transaction, by requests whose rounded size fits 32 bits: every block lies
    in the work memory, a block granted earlier ends where a later one begins
    or before (so no two blocks share a byte), and the first block granted
    begins at the base of the work memory, whatever was refused before it. *)
Theorem granted_blocks_are_disjoint x isolation_level requests :
  Forall request_fits requests ->
  0 <= local_work_memory_size_ x <= 2 ^ 64 - 2 ^ 33 ->
  let blocks := snd (acquire_all (activate x isolation_level) requests) in
  Forall (block_inside x) blocks /\
  ForallOrdPairs block_before blocks /\
  (forall block, hd_error blocks = Some block -> fst block = local_work_memory_ x).
Proof.
  intros Hf Hm blocks. subst blocks.
  destruct (acquire_all_blocks requests (activate x isolation_level) Hf) as [I O];
    [cbn; lia | cbn; lia |].
  split_and.
  - eapply Forall_impl; [| exact I]. unfold block_inside. cbn. intros b. lia.
  - exact O.
  - intros block Hb.
    apply (acquire_all_first_block requests (activate x isolation_level) block Hf);
      [reflexivity | exact Hm | exact Hb].
Qed.

Lemma granted_blocks_are_disjoint_witness :
  snd (acquire_all (activate (initialized_xct 4096 1024) kSerializable)
         [(13, 8); (2000, 8); (100, 64); (1, 1)]) =
    [(4096, 13); (4160, 100); (4288, 1)] /\
  ForallOrdPairs block_before [(4096, 13); (4160, 100); (4288, 1)].
Proof.
  split; [reflexivity |].
  apply (granted_blocks_are_disjoint (initialized_xct 4096 1024) kSerializable
           [(13, 8); (2000, 8); (100, 64); (1, 1)]).
  - repeat constructor; by_computation.
  - split; by_computation.
Defined.

(** The comment of the field, [local_work_memory_cur_] is always at most
    [local_work_memory_size_]: it holds after [activate] and after every call
    of [acquire_local_work_memory], also after the calls whose 32-bit rounding
    wraps; the calls move neither the memory nor its size. *)
Theorem local_work_memory_cur_never_exceeds_size x isolation_level requests :
  0 <= local_work_memory_size_ x ->
  Forall request_ok requests ->
  let x' := fst (acquire_all (activate x isolation_level) requests) in
  0 <= local_work_memory_cur_ x' <= local_work_memory_size_ x' /\
  local_work_memory_size_ x' = local_work_memory_size_ x /\
  local_work_memory_ x' = local_work_memory_ x.
Proof.
  intros Hs _ x'. subst x'.
  apply (local_work_memory_cur_bounded requests (activate x isolation_level)).
  cbn. lia.
Qed.

Lemma local_work_memory_cur_never_exceeds_size_witness :
  0 <= local_work_memory_cur_
         (fst (acquire_all (activate (initialized_xct 4096 1024) kSerializable)
                 [(4294967295, 8); (1000, 8); (4294967295, 4294967295); (30, 16)]))
    <= 1024.
Proof.
  apply (local_work_memory_cur_never_exceeds_size (initialized_xct 4096 1024) kSerializable
           [(4294967295, 8); (1000, 8); (4294967295, 4294967295); (30, 16)]).
  - by_computation.
  - repeat constructor; by_computation.
Defined.


End WorkMemoryRuns.

(** ** The pairing of reads and writes that [assert_related_read_write] checks *)

Section RelatedReadWrite.

Import Xct.

Lemma all_asserts_true checks :
  all_asserts checks = Some true -> Forall (fun check => check = Some true) checks.
Proof.
  induction checks as [| [[|] |] checks IH]; cbn [all_asserts]; intros H;
    try discriminate; constructor; auto.
Qed.

Lemma related_read_asserts_true read_set read_set_size i write j :
  Z.of_nat (List.length read_set) <= 2 ^ 32 ->
  related_read_asserts read_set read_set_size i write = Some true ->
  related_read_ write = Some j ->
  0 <= j < read_set_size /\
  exists read, nth_error read_set (Z.to_nat j) = Some read /\
               related_write_ read = Some i /\
               write_owner_id_address_ write = read_owner_id_address_ read.
Proof.
  unfold related_read_asserts. intros Hl H E. rewrite E in H.
  destruct (Z.leb_spec 0 j) as [P |]; [| discriminate]. cbn [negb] in H.
  destruct (Z.ltb_spec (wrap32 j) read_set_size) as [R |]; [| discriminate].
  cbn [negb] in H.
  destruct (nth_error read_set (Z.to_nat j)) as [read |] eqn:N; [| discriminate].
  injection H as H. apply andb_prop in H. destruct H as [A B].
  destruct (related_write_ read) as [back |] eqn:W; [| discriminate].
  apply Z.eqb_eq in A, B.
  assert (L : (Z.to_nat j < List.length read_set)%nat)
    by (apply nth_error_Some; congruence).
  unfold wrap32 in R. rewrite Z.mod_small in R by lia.
  split; [lia |]. exists read. split_and; [reflexivity | congruence | exact A].
Qed.

Lemma related_write_asserts_true write_set write_set_size j read i :
  Z.of_nat (List.length write_set) <= 2 ^ 32 ->
  related_write_asserts write_set write_set_size j read = Some true ->
  related_write_ read = Some i ->
  0 <= i < write_set_size /\
  exists write, nth_error write_set (Z.to_nat i) = Some write /\
                related_read_ write = Some j /\
                read_owner_id_address_ read = write_owner_id_address_ write.
Proof.
  unfold related_write_asserts. intros Hl H E. rewrite E in H.
  destruct (Z.leb_spec 0 i) as [P |]; [| discriminate]. cbn [negb] in H.
  destruct (Z.ltb_spec (wrap32 i) write_set_size) as [R |]; [| discriminate].
  cbn [negb] in H.
  destruct (nth_error write_set (Z.to_nat i)) as [write |] eqn:N; [| discriminate].
  injection H as H. apply andb_prop in H. destruct H as [A B].
  destruct (related_read_ write) as [back |] eqn:W; [| discriminate].
  apply Z.eqb_eq in A, B.
  assert (L : (Z.to_nat i < List.length write_set)%nat)
    by (apply nth_error_Some; congruence).
  unfold wrap32 in R. rewrite Z.mod_small in R by lia.
  split; [lia |]. exists write. split_and; [reflexivity | congruence | exact A].
Qed.

(** What [assert_related_read_write] checks pairs the two sets one to one.
    On arrays of at most 2^32 entries (their sizes are [uint32_t]), when no
    [ASSERT_ND] of the two loops fails and no read goes through a pointer
    outside its array, every [related_read_] of a write in the write set
    points inside the read set, at a read of the same owner address whose
    [related_write_] points back at that write, and the same the other way
    round; so no two writes of the set name the same read, and no two reads
    the same write. *)
Theorem related_read_write_one_to_one read_set read_set_size write_set write_set_size :
  Z.of_nat (List.length read_set) <= 2 ^ 32 ->
  Z.of_nat (List.length write_set) <= 2 ^ 32 ->
  assert_related_read_write read_set read_set_size write_set write_set_size = Some true ->
  (forall i write j,
     0 <= i < write_set_size -> nth_error write_set (Z.to_nat i) = Some write ->
     related_read_ write = Some j ->
     0 <= j < read_set_size /\ related read_set write_set i j) /\
  (forall j read i,
     0 <= j < read_set_size -> nth_error read_set (Z.to_nat j) = Some read ->
     related_write_ read = Some i ->
     0 <= i < write_set_size /\ related read_set write_set i j) /\
  (forall i i' write write' j,
     0 <= i < write_set_size -> 0 <= i' < write_set_size ->
     nth_error write_set (Z.to_nat i) = Some write ->
     nth_error write_set (Z.to_nat i') = Some write' ->
     related_read_ write = Some j -> related_read_ write' = Some j -> i = i') /\
  (forall j j' read read' i,
     0 <= j < read_set_size -> 0 <= j' < read_set_size ->
     nth_error read_set (Z.to_nat j) = Some read ->
     nth_error read_set (Z.to_nat j') = Some read' ->
     related_write_ read = Some i -> related_write_ read' = Some i -> j = j').
Proof.
  unfold assert_related_read_write. intros Lr Lw H.
  apply all_asserts_true, Forall_app in H. destruct H as [Hw Hr].
  rewrite Forall_map, Forall_forall in Hw, Hr.
  assert (W : forall i write j,
     0 <= i < write_set_size -> nth_error write_set (Z.to_nat i) = Some write ->
     related_read_ write = Some j ->
     0 <= j < read_set_size /\ related read_set write_set i j).
  { intros i write j Hi N E.
    specialize (Hw (Z.to_nat i) ltac:(apply in_seq; lia)). rewrite N in Hw.
    rewrite Z2Nat.id in Hw by lia.
    destruct (related_read_asserts_true _ _ _ _ _ Lr Hw E) as (Hj & read & Nr & Er & Ea).
    split; [exact Hj |]. exists write, read. auto. }
  assert (R : forall j read i,
     0 <= j < read_set_size -> nth_error read_set (Z.to_nat j) = Some read ->
     related_write_ read = Some i ->
     0 <= i < write_set_size /\ related read_set write_set i j).
  { intros j read i Hj N E.
    specialize (Hr (Z.to_nat j) ltac:(apply in_seq; lia)). rewrite N in Hr.
    rewrite Z2Nat.id in Hr by lia.
    destruct (related_write_asserts_true _ _ _ _ _ Lw Hr E) as (Hi & write & Nw & Ew & Ea).
    split; [exact Hi |]. exists write, read. auto. }
  split_and; [exact W | exact R | |].
  - intros i i' write write' j Hi Hi' N N' E E'.
    destruct (W _ _ _ Hi N E) as (_ & w1 & r1 & _ & Nr1 & _ & B1 & _).
    destruct (W _ _ _ Hi' N' E') as (_ & w2 & r2 & _ & Nr2 & _ & B2 & _).
    congruence.
  - intros j j' read read' i Hj Hj' N N' E E'.
    destruct (R _ _ _ Hj N E) as (_ & w1 & r1 & Nw1 & _ & B1 & _ & _).
    destruct (R _ _ _ Hj' N' E') as (_ & w2 & r2 & Nw2 & _ & B2 & _ & _).
    congruence.
Qed.

Lemma related_read_write_one_to_one_witness :
  let read_set := [{| read_owner_id_address_ := 640; related_write_ := Some 1 |};
                   {| read_owner_id_address_ := 704; related_write_ := None |}] in
  let write_set := [{| write_owner_id_address_ := 512; related_read_ := None |};
                    {| write_owner_id_address_ := 640; related_read_ := Some 0 |}] in
  related read_set write_set 1 0.
Proof.
  intros read_set write_set.
  apply (proj1 (related_read_write_one_to_one read_set 2 write_set 2
                  ltac:(by_computation) ltac:(by_computation) eq_refl) 1
           {| write_owner_id_address_ := 640; related_read_ := Some 0 |} 0);
    [lia | reflexivity | reflexivity].
Defined.

(** A [related_read_] that points 2^32 entries past the read it means passes
    the bound check, the index having been cut to 32 bits; what the last two
    [ASSERT_ND] then read is undefined. *)
Example related_read_pointer_past_the_set :
  assert_related_read_write
    [{| read_owner_id_address_ := 640; related_write_ := Some 0 |}] 1
    [{| write_owner_id_address_ := 640; related_read_ := Some (2 ^ 32) |}] 1 = None.
Proof. reflexivity. Qed.

End RelatedReadWrite.

(** ** MapReduceBase: the worker's traces *)

Section MapReduceFacts.

Import MapReduceBase.

Lemma wait_for_next_epoch_unfold fuel w tr :
  wait_for_next_epoch fuel w tr =
  if Epoch.after (next_epoch_of w tr) (valid_until_of w tr)
  then Some (false, tr ++ announce_of w tr)
  else
    match cond_wait fuel (next_epoch_of w tr) w (tr ++ announce_of w tr) with
    | Some (_, tr1) =>
        Some (negb (flag_at w (List.length tr1)),
              tr1 ++ [IsStopRequested (flag_at w (List.length tr1))])
    | None => None
    end.
Proof.
  unfold wait_for_next_epoch, bind, pre_wait_for_next_epoch, get_next_processing_epoch,
    increment_completed_count, get_all_count, get_valid_until_epoch, is_stop_requested,
    call_unit, call_epoch, call_count, call_flag, ret.
  unfold announce_of, announce, valid_until_of, all_count_of, value_after_of, next_epoch_of.
  rewrite !length_app. cbn [List.length].
  rewrite <- !Nat.add_assoc. cbn [Nat.add].
  destruct (count_at w (List.length tr + 2) =? count_at w (List.length tr + 3));
    unfold wakeup, call_unit; rewrite ?length_app; cbn [List.length];
    rewrite <- ?Nat.add_assoc; cbn [Nat.add]; rewrite <- !app_assoc; cbn [app].
  all: destruct (Epoch.after _ _); reflexivity.
Qed.

Lemma cond_wait_trace fuel next_epoch w : forall tr tr',
  cond_wait fuel next_epoch w tr = Some (tt, tr') ->
  exists checks, tr' = tr ++ checks /\ waited next_epoch checks.
Proof.
  induction fuel as [| fuel IH]; intros tr tr' H; [discriminate |].
  cbn [cond_wait] in H.
  unfold bind, get_processing_epoch, is_stop_requested, call_epoch, call_flag, call_unit, ret in H.
  destruct (Z.eqb_spec (epoch_at w (List.length tr)) next_epoch) as [E | E].
  - inversion H; subst. eexists; split; [reflexivity | constructor].
  - destruct (flag_at w (List.length (tr ++ [GetProcessingEpoch (epoch_at w (List.length tr))])))
      eqn:F.
    + inversion H; subst. rewrite <- app_assoc. eexists; split; [reflexivity |].
      cbn [app]. constructor. exact E.
    + apply IH in H. destruct H as (checks & -> & Hc).
      rewrite <- !app_assoc. eexists; split; [reflexivity |].
      cbn [app]. constructor; assumption.
Qed.

Lemma cond_wait_returns n : forall fuel next_epoch w tr,
  predicate_holds_at w tr next_epoch n -> (n < fuel)%nat ->
  exists tr', cond_wait fuel next_epoch w tr = Some (tt, tr').
Proof.
  induction n as [| n IH]; intros fuel next_epoch w tr Hp Hf;
    (destruct fuel as [| fuel]; [lia |]);
    cbn [cond_wait];
    unfold bind, get_processing_epoch, is_stop_requested, call_epoch, call_flag, call_unit, ret;
    unfold predicate_holds_at in Hp.
  - rewrite Nat.mul_0_r, Nat.add_0_r in Hp.
    destruct (Z.eqb_spec (epoch_at w (List.length tr)) next_epoch) as [E | E];
      [eexists; reflexivity |].
    rewrite length_app; cbn [List.length].
    destruct Hp as [Hp | Hp]; [contradiction |]. rewrite Hp. eexists; reflexivity.
  - destruct (Z.eqb_spec (epoch_at w (List.length tr)) next_epoch) as [E | E];
      [eexists; reflexivity |].
    destruct (flag_at w (List.length (tr ++ [GetProcessingEpoch (epoch_at w (List.length tr))])));
      [eexists; reflexivity |].
    apply IH; [| lia]. unfold predicate_holds_at.
    rewrite !length_app; cbn [List.length].
    replace (List.length tr + 1 + 1 + 1 + 3 * n)%nat with (List.length tr + 3 * S n)%nat by lia.
    exact Hp.
Qed.

(** C6.  [wait_for_next_epoch] reads the next processing epoch before it
    increments the completed count, and wakes the parent exactly when the
    incremented count equals the all count; when the next epoch is after the
    snapshot's [valid_until_epoch_] it returns [false] without waiting, with
    any fuel; otherwise it tests, sleeping in between, until the processing
    epoch equals the next epoch or stop is requested, then reads the stop
    flag and returns [true] exactly when stop is not requested; and it does
    return once the predicate holds at some test. *)
Theorem wait_for_next_epoch_behaviour w tr :
  (exists rest, announce_of w tr =
     PreWaitForNextEpoch :: GetNextProcessingEpoch (next_epoch_of w tr) ::
     IncrementCompletedCount (value_after_of w tr) :: rest /\
     (In Wakeup rest <-> value_after_of w tr = all_count_of w tr)) /\
  (Epoch.after (next_epoch_of w tr) (valid_until_of w tr) = true ->
   forall fuel,
     wait_for_next_epoch fuel w tr = Some (false, tr ++ announce_of w tr)) /\
  (Epoch.after (next_epoch_of w tr) (valid_until_of w tr) = false ->
   forall fuel r tr',
     wait_for_next_epoch fuel w tr = Some (r, tr') ->
     exists checks stop,
       tr' = tr ++ announce_of w tr ++ checks ++ [IsStopRequested stop] /\
       waited (next_epoch_of w tr) checks /\
       r = negb stop) /\
  (Epoch.after (next_epoch_of w tr) (valid_until_of w tr) = false ->
   forall n fuel,
     predicate_holds_at w (tr ++ announce_of w tr) (next_epoch_of w tr) n ->
     (n < fuel)%nat ->
     exists r tr', wait_for_next_epoch fuel w tr = Some (r, tr')).
Proof.
  split; [| split; [| split]].
  - unfold announce_of, announce. eexists; split; [reflexivity |].
    destruct (Z.eqb_spec (value_after_of w tr) (all_count_of w tr)) as [E | E]; simpl; split.
    + intros _. exact E.
    + intros _. right; left; reflexivity.
    + intros [H | [H | []]]; discriminate.
    + intros H. contradiction.
  - intros Ha fuel. rewrite wait_for_next_epoch_unfold, Ha. reflexivity.
  - intros Ha fuel r tr' H. rewrite wait_for_next_epoch_unfold, Ha in H.
    destruct (cond_wait fuel _ w _) as [[[] tr1] |] eqn:C; [| discriminate].
    apply cond_wait_trace in C. destruct C as (checks & -> & Hw).
    inversion H; subst. exists checks, (flag_at w (List.length ((tr ++ announce_of w tr) ++ checks))).
    rewrite <- !app_assoc. auto.
  - intros Ha n fuel Hp Hf. rewrite wait_for_next_epoch_unfold, Ha.
    destruct (cond_wait_returns n fuel _ w _ Hp Hf) as [tr1 ->].
    eexists; eexists; reflexivity.
Qed.

Lemma waited_events next_epoch checks :
  waited next_epoch checks -> Forall (fun ev => is_wait_event ev = true) checks.
Proof. induction 1; repeat constructor; assumption. Qed.

Lemma announce_events w tr : Forall (fun ev => is_wait_event ev = true) (announce_of w tr).
Proof.
  unfold announce_of, announce.
  destruct (value_after_of w tr =? all_count_of w tr); repeat constructor.
Qed.

Lemma wait_for_next_epoch_events fuel w tr r tr' :
  wait_for_next_epoch fuel w tr = Some (r, tr') ->
  exists ws, tr' = tr ++ ws /\ Forall (fun ev => is_wait_event ev = true) ws.
Proof.
  intros H. rewrite wait_for_next_epoch_unfold in H.
  destruct (Epoch.after (next_epoch_of w tr) (valid_until_of w tr)).
  - inversion H; subst.
    eexists; split; [reflexivity | apply announce_events].
  - destruct (cond_wait fuel (next_epoch_of w tr) w (tr ++ announce_of w tr))
      as [[[] tr1] |] eqn:C; [| discriminate].
    apply cond_wait_trace in C. destruct C as (checks & -> & Hw).
    inversion H; subst. rewrite <- !app_assoc.
    eexists; split; [reflexivity |].
    apply Forall_app; split; [apply announce_events |].
    apply Forall_app; split; [eapply waited_events; eassumption | repeat constructor].
Qed.

Lemma handle_loop_trace fuel w : forall tr tr',
  handle_loop fuel w tr = Some (tt, tr') ->
  exists body, tr' = tr ++ body /\ looped body.
Proof.
  induction fuel as [| fuel IH]; intros tr tr' H; [discriminate |].
  cbn [handle_loop] in H.
  unfold bind at 1, is_stop_requested, call_flag in H.
  destruct (flag_at w (List.length tr)) eqn:F.
  - inversion H; subst. eexists; split; [reflexivity | constructor].
  - unfold bind at 1, handle_epoch, call_flag in H.
    rewrite length_app in H; cbn [List.length] in H.
    destruct (flag_at w (List.length tr + 1)) eqn:F2.
    + unfold bind, increment_error_count, wakeup, call_unit in H.
      inversion H; subst. rewrite <- !app_assoc. cbn [app].
      eexists; split; [reflexivity | constructor].
    + unfold bind at 1 in H.
      destruct (wait_for_next_epoch fuel w _) as [[continue tr1] |] eqn:W; [| discriminate].
      apply wait_for_next_epoch_events in W. destruct W as (ws & -> & Hws).
      destruct continue.
      * apply IH in H. destruct H as (rest & -> & Hr).
        rewrite <- !app_assoc. cbn [app].
        eexists; split; [reflexivity |]. constructor; assumption.
      * inversion H; subst. rewrite <- !app_assoc. cbn [app].
        eexists; split; [reflexivity |]. constructor; assumption.
Qed.

Lemma wait_event_loop_event ws :
  Forall (fun ev => is_wait_event ev = true) ws ->
  Forall (fun ev => is_loop_event ev = true) ws.
Proof.
  apply Forall_impl. intros ev H. destruct ev; simpl in *; auto.
Qed.

Lemma looped_events body : looped body -> Forall (fun ev => is_loop_event ev = true) body.
Proof.
  induction 1; repeat constructor;
    try (apply Forall_app; split); auto using wait_event_loop_event.
Qed.

(** An event that the first part of a trace does not hold lies in the rest. *)
Lemma split_after_prefix {A} (P : A -> Prop) (x : A) : forall l1 l2 pre post,
  Forall P l1 -> ~ P x -> l1 ++ l2 = pre ++ x :: post ->
  exists pre', pre = l1 ++ pre' /\ l2 = pre' ++ x :: post.
Proof.
  induction l1 as [| a l1 IH]; intros l2 pre post Hl Hx E.
  - exists pre. auto.
  - inversion Hl as [| ? ? Ha Hl']; subst.
    destruct pre as [| b pre]; cbn [app] in E; inversion E; subst; [contradiction |].
    destruct (IH _ _ _ Hl' Hx H1) as (pre' & -> & ->).
    exists pre'. auto.
Qed.

Lemma not_in_trace {A} (P : A -> Prop) (x : A) l pre post :
  Forall P l -> ~ P x -> l <> pre ++ x :: post.
Proof.
  intros Hl Hx E. subst. apply Forall_app in Hl. destruct Hl as [_ Hl].
  inversion Hl; contradiction.
Qed.

Lemma wait_events_no_epoch_error ws :
  Forall (fun ev => is_wait_event ev = true) ws -> Forall not_epoch_error ws.
Proof.
  apply Forall_impl. intros ev H E. subst. discriminate.
Qed.

(** In the loop an error of [handle_epoch] is followed by the error count and
    the wake-up, and by nothing else of the loop. *)
Lemma looped_epoch_error body : looped body -> forall suffix pre post,
  Forall not_epoch_error suffix ->
  body ++ suffix = pre ++ HandleEpoch true :: post ->
  post = IncrementErrorCount :: Wakeup :: suffix.
Proof.
  assert (N : ~ not_epoch_error (HandleEpoch true)) by (intros H; apply H; reflexivity).
  induction 1 as [| | ws Hws | ws rest Hws Hr IH]; intros suffix pre post Hs E.
  - destruct (split_after_prefix not_epoch_error _ [IsStopRequested true] _ _ _
                ltac:(repeat constructor; discriminate) N E) as (pre' & _ & E').
    exfalso. exact (not_in_trace _ _ _ _ _ Hs N E').
  - destruct pre as [| e1 pre]; cbn [app] in E; [discriminate |].
    destruct pre as [| e2 pre]; cbn [app] in E; [inversion E; reflexivity |].
    exfalso. inversion E as [[E1 E2 E3]].
    destruct (split_after_prefix not_epoch_error _ [IncrementErrorCount; Wakeup] _ _ _
                ltac:(repeat constructor; discriminate) N E3) as (pre' & _ & E').
    exact (not_in_trace _ _ _ _ _ Hs N E').
  - exfalso.
    change (IsStopRequested false :: HandleEpoch false :: ws)
      with ([IsStopRequested false; HandleEpoch false] ++ ws) in E.
    rewrite <- app_assoc in E.
    destruct (split_after_prefix not_epoch_error _
                [IsStopRequested false; HandleEpoch false] _ _ _
                ltac:(repeat constructor; discriminate) N E) as (pre' & _ & E').
    destruct (split_after_prefix not_epoch_error _ _ _ _ _
                (wait_events_no_epoch_error _ Hws) N E') as (pre'' & _ & E'').
    exact (not_in_trace _ _ _ _ _ Hs N E'').
  - change (IsStopRequested false :: HandleEpoch false :: ws ++ rest)
      with ([IsStopRequested false; HandleEpoch false] ++ ws ++ rest) in E.
    rewrite <- !app_assoc in E.
    destruct (split_after_prefix not_epoch_error _
                [IsStopRequested false; HandleEpoch false] _ _ _
                ltac:(repeat constructor; discriminate) N E) as (pre' & _ & E').
    destruct (split_after_prefix not_epoch_error _ _ _ _ _
                (wait_events_no_epoch_error _ Hws) N E') as (pre'' & _ & E'').
    exact (IH _ _ _ Hs E'').
Qed.

Lemma bind_Some {A B} (c : M A) (k : A -> M B) w tr b tr' :
  bind c k w tr = Some (b, tr') ->
  exists a tr1, c w tr = Some (a, tr1) /\ k a w tr1 = Some (b, tr').
Proof.
  unfold bind. destruct (c w tr) as [[a tr1] |]; [| discriminate].
  intros H. exists a, tr1. auto.
Qed.

Lemma handle_trace fuel w tr' :
  handle fuel w [] = Some (tt, tr') ->
  exists init_error body uninit_error,
    tr' = NumaRunOnNode :: HandleInitialize init_error :: body ++ finish uninit_error /\
    ((init_error = true /\ body = [IncrementErrorCount; Wakeup]) \/
     (init_error = false /\
      exists ws rest, body = ws ++ rest /\
        Forall (fun ev => is_wait_event ev = true) ws /\
        (rest = [] \/ looped rest))).
Proof.
  unfold handle. intros H.
  apply bind_Some in H. destruct H as ([] & t1 & H1 & H).
  apply bind_Some in H. destruct H as (init_error & t2 & H2 & H).
  apply bind_Some in H. destruct H as ([] & t3 & H3 & H).
  apply bind_Some in H. destruct H as (uninit_error & t4 & H4 & H).
  apply bind_Some in H. destruct H as ([] & t5 & H5 & H).
  unfold numa_run_on_node, handle_initialize, handle_uninitialize, increment_exit_count,
    call_unit, call_flag in H1, H2, H4, H.
  cbn [app List.length] in *.
  injection H1 as <-. injection H2 as E2 <-. injection H4 as E4 <-. injection H as <-.
  cbn [app List.length] in *. rewrite E2 in H3. rewrite E4 in H5.
  assert (E5 : t5 = (t3 ++ [HandleUninitialize uninit_error]) ++
                    (if uninit_error then [IncrementErrorCount] else [])).
  { destruct uninit_error; unfold increment_error_count, call_unit, ret in H5;
      injection H5 as <-; rewrite ?app_nil_r; reflexivity. }
  subst t5. clear H5 E4.
  assert (Shape : forall body,
    t3 = [NumaRunOnNode; HandleInitialize init_error] ++ body ->
    ((t3 ++ [HandleUninitialize uninit_error]) ++
     (if uninit_error then [IncrementErrorCount] else [])) ++ [IncrementExitCount] =
    NumaRunOnNode :: HandleInitialize init_error :: body ++ finish uninit_error).
  { intros body ->. unfold finish. rewrite <- !app_assoc. reflexivity. }
  exists init_error. clear E2. destruct init_error.
  - apply bind_Some in H3. destruct H3 as ([] & t & Ha & Hb).
    unfold increment_error_count, wakeup, call_unit in Ha, Hb.
    injection Ha as <-. injection Hb as <-.
    exists [IncrementErrorCount; Wakeup], uninit_error.
    split; [apply Shape; reflexivity | left; auto].
  - apply bind_Some in H3. destruct H3 as (success & t & Ha & Hb).
    apply wait_for_next_epoch_events in Ha. destruct Ha as (ws & -> & Hws).
    destruct success.
    + apply handle_loop_trace in Hb. destruct Hb as (rest & -> & Hr).
      exists (ws ++ rest), uninit_error.
      split; [apply Shape; rewrite <- !app_assoc; reflexivity |].
      right. split; [reflexivity |]. exists ws, rest. auto.
    + unfold ret in Hb. injection Hb as <-.
      exists ws, uninit_error.
      split; [apply Shape; reflexivity |].
      right. split; [reflexivity |]. exists ws, []. rewrite app_nil_r. auto.
Qed.

Lemma cond_wait_mono fuel : forall fuel' next_epoch w tr r,
  (fuel <= fuel')%nat ->
  cond_wait fuel next_epoch w tr = Some r -> cond_wait fuel' next_epoch w tr = Some r.
Proof.
  induction fuel as [| fuel IH]; intros fuel' next_epoch w tr r Hle H; [discriminate |].
  destruct fuel' as [| fuel']; [lia |].
  cbn [cond_wait] in *. unfold bind in *.
  destruct (get_processing_epoch w tr) as [[pe t1] |]; [| discriminate].
  destruct (pe =? next_epoch); [exact H |].
  destruct (is_stop_requested w t1) as [[stop t2] |]; [| discriminate].
  destruct stop; [exact H |].
  destruct (call_unit (CondWait next_epoch) w t2) as [[[] t3] |]; [| discriminate].
  apply IH; [lia | exact H].
Qed.

Lemma wait_for_next_epoch_mono fuel fuel' w tr r :
  (fuel <= fuel')%nat ->
  wait_for_next_epoch fuel w tr = Some r -> wait_for_next_epoch fuel' w tr = Some r.
Proof.
  intros Hle. rewrite !wait_for_next_epoch_unfold.
  destruct (Epoch.after _ _); [auto |].
  destruct (cond_wait fuel _ w _) as [[[] t1] |] eqn:C; [| discriminate].
  rewrite (cond_wait_mono _ _ _ _ _ _ Hle C). auto.
Qed.

Lemma handle_loop_mono fuel : forall fuel' w tr r,
  (fuel <= fuel')%nat ->
  handle_loop fuel w tr = Some r -> handle_loop fuel' w tr = Some r.
Proof.
  induction fuel as [| fuel IH]; intros fuel' w tr r Hle H; [discriminate |].
  destruct fuel' as [| fuel']; [lia |].
  cbn [handle_loop] in *. unfold bind in *.
  destruct (is_stop_requested w tr) as [[stop t1] |]; [| discriminate].
  destruct stop; [exact H |].
  destruct (handle_epoch w t1) as [[exec_error t2] |]; [| discriminate].
  destruct exec_error; [exact H |].
  destruct (wait_for_next_epoch fuel w t2) as [[continue t3] |] eqn:W; [| discriminate].
  rewrite (wait_for_next_epoch_mono fuel fuel' w t2 _ ltac:(lia) W).
  destruct continue; [apply IH; [lia | exact H] | exact H].
Qed.

Lemma handle_mono fuel fuel' w r :
  (fuel <= fuel')%nat -> handle fuel w [] = Some r -> handle fuel' w [] = Some r.
Proof.
  intros Hle. unfold handle, bind.
  destruct (numa_run_on_node w []) as [[[] t1] |]; [| discriminate].
  destruct (handle_initialize w t1) as [[init_error t2] |]; [| discriminate].
  destruct init_error; [auto |].
  destruct (wait_for_next_epoch fuel w t2) as [[success t3] |] eqn:W; [| discriminate].
  rewrite (wait_for_next_epoch_mono fuel fuel' w t2 _ Hle W).
  destruct success; [| auto].
  destruct (handle_loop fuel w t3) as [[[] t4] |] eqn:L; [| discriminate].
  rewrite (handle_loop_mono fuel fuel' w t3 _ Hle L). auto.
Qed.

Lemma filter_none {A} (f : A -> bool) l : Forall (fun x => f x = false) l -> filter f l = [].
Proof.
  induction 1 as [| x l Hx Hl IH]; simpl; [reflexivity |]. rewrite Hx. exact IH.
Qed.

Lemma count_events_app f l1 l2 :
  count_events f (l1 ++ l2) = (count_events f l1 + count_events f l2)%nat.
Proof. unfold count_events. rewrite filter_app, length_app. reflexivity. Qed.

Lemma count_events_none f l :
  Forall (fun ev => is_loop_event ev = true) l ->
  (forall ev, is_loop_event ev = true -> f ev = false) ->
  count_events f l = 0%nat.
Proof.
  intros Hl Hf. unfold count_events. rewrite filter_none; [reflexivity |].
  revert Hl. apply Forall_impl. exact Hf.
Qed.

(** What follows the part between [handle_initialize] and
    [handle_uninitialize] needs no fuel. *)
Lemma handle_finish w tr :
  (uninit_error <- handle_uninitialize ;;
   (if uninit_error then increment_error_count else ret tt) ;;;
   increment_exit_count) w tr =
  Some (tt, tr ++ finish (flag_at w (List.length tr))).
Proof.
  unfold bind, handle_uninitialize, increment_error_count, increment_exit_count,
    call_flag, call_unit, ret, finish.
  destruct (flag_at w (List.length tr)); rewrite <- !app_assoc; reflexivity.
Qed.

Lemma handle_init_error fuel w :
  flag_at w 1 = true ->
  handle fuel w [] =
  Some (tt, [NumaRunOnNode; HandleInitialize true; IncrementErrorCount; Wakeup] ++
            finish (flag_at w 4)).
Proof.
  intros F. unfold handle.
  unfold bind at 1, numa_run_on_node, call_unit. cbn [app].
  unfold bind at 1, handle_initialize, call_flag. cbn [app List.length]. rewrite F.
  unfold bind at 1. unfold bind at 1, increment_error_count, wakeup, call_unit. cbn [app].
  apply (handle_finish w [NumaRunOnNode; HandleInitialize true; IncrementErrorCount; Wakeup]).
Qed.

Lemma handle_after_first_wait fuel w success t1 :
  flag_at w 1 = false ->
  wait_for_next_epoch fuel w [NumaRunOnNode; HandleInitialize false] = Some (success, t1) ->
  handle fuel w [] =
  match (if success then handle_loop fuel w t1 else Some (tt, t1)) with
  | Some (_, t2) => Some (tt, t2 ++ finish (flag_at w (List.length t2)))
  | None => None
  end.
Proof.
  intros F W. unfold handle.
  unfold bind at 1, numa_run_on_node, call_unit. cbn [app].
  unfold bind at 1, handle_initialize, call_flag. cbn [app List.length]. rewrite F.
  unfold bind at 1. unfold bind at 1. rewrite W.
  destruct success.
  - destruct (handle_loop fuel w t1) as [[[] t2] |]; [| reflexivity].
    apply (handle_finish w t2).
  - unfold ret at 1. apply (handle_finish w t1).
Qed.

(** One turn of the loop of [handle]. *)
Lemma handle_loop_unfold fuel w tr :
  handle_loop (S fuel) w tr =
  if flag_at w (List.length tr) then Some (tt, tr ++ [IsStopRequested true])
  else if flag_at w (List.length tr + 1)
  then Some (tt, tr ++ [IsStopRequested false; HandleEpoch true; IncrementErrorCount; Wakeup])
  else
    match wait_for_next_epoch fuel w (tr ++ [IsStopRequested false; HandleEpoch false]) with
    | Some (true, tr') => handle_loop fuel w tr'
    | Some (false, tr') => Some (tt, tr')
    | None => None
    end.
Proof.
  cbn [handle_loop].
  unfold bind at 1, is_stop_requested, call_flag.
  destruct (flag_at w (List.length tr)); [reflexivity |].
  unfold bind at 1, handle_epoch, call_flag.
  rewrite length_app; cbn [List.length].
  destruct (flag_at w (List.length tr + 1)).
  - unfold bind, increment_error_count, wakeup, call_unit.
    rewrite <- !app_assoc. reflexivity.
  - unfold bind at 1. rewrite <- app_assoc. cbn [app].
    destruct (wait_for_next_epoch fuel w _) as [[[] tr'] |]; reflexivity.
Qed.

(** Each way out of the loop is taken, with fuel enough for the wait. *)
Lemma loop_exit_returns w tr leave :
  loop_exit w tr leave ->
  exists fuel0, forall fuel, (fuel0 <= fuel)%nat ->
    handle_loop fuel w tr = Some (tt, tr ++ leave).
Proof.
  intros [F | F F' | F F' A | fuel0 ws F F' A W].
  - exists 1%nat. intros [| fuel] Hf; [lia |]. rewrite handle_loop_unfold, F. reflexivity.
  - exists 1%nat. intros [| fuel] Hf; [lia |]. rewrite handle_loop_unfold, F, F'. reflexivity.
  - exists 1%nat. intros [| fuel] Hf; [lia |].
    rewrite handle_loop_unfold, F, F', wait_for_next_epoch_unfold, A.
    rewrite <- app_assoc. reflexivity.
  - exists (S fuel0). intros [| fuel] Hf; [lia |].
    rewrite handle_loop_unfold, F, F'.
    rewrite (wait_for_next_epoch_mono fuel0 fuel w _ _ ltac:(lia) W).
    rewrite <- app_assoc. reflexivity.
Qed.

(** A loop that ends from one of its heads ends [handle]. *)
Lemma loop_head_returns w tr :
  loop_head w tr -> forall fuel0 tr',
  (forall fuel, (fuel0 <= fuel)%nat -> handle_loop fuel w tr = Some (tt, tr')) ->
  exists fuel1, forall fuel, (fuel1 <= fuel)%nat ->
    handle fuel w [] = Some (tt, tr' ++ finish (flag_at w (List.length tr'))).
Proof.
  induction 1 as [fuel1 tr F W | fuel1 tr tr1 Hh IH F F' W]; intros fuel0 tr' L.
  - exists (Nat.max fuel0 fuel1). intros fuel Hf.
    rewrite (handle_after_first_wait fuel w true tr F
               (wait_for_next_epoch_mono fuel1 fuel w _ _ ltac:(lia) W)).
    rewrite L by lia. reflexivity.
  - apply (IH (S (Nat.max fuel0 fuel1))). intros [| fuel] Hf; [lia |].
    rewrite handle_loop_unfold, F, F'.
    rewrite (wait_for_next_epoch_mono fuel1 fuel w _ _ ltac:(lia) W).
    apply L. lia.
Qed.

(** A loop that has ended was left from one of its heads by one of the ways
    out. *)
Lemma handle_loop_exit fuel w : forall tr tr',
  loop_head w tr -> handle_loop fuel w tr = Some (tt, tr') ->
  exists head leave, loop_head w head /\ loop_exit w head leave /\ tr' = head ++ leave.
Proof.
  induction fuel as [| fuel IH]; intros tr tr' Hh H; [discriminate |].
  rewrite handle_loop_unfold in H.
  destruct (flag_at w (List.length tr)) eqn:F.
  { injection H as <-. exists tr, [IsStopRequested true].
    split; [exact Hh | split; [constructor; exact F | reflexivity]]. }
  destruct (flag_at w (List.length tr + 1)) eqn:F'.
  { injection H as <-. eexists tr, _.
    split; [exact Hh | split; [apply exit_epoch_error; assumption | reflexivity]]. }
  destruct (wait_for_next_epoch fuel w _) as [[[] tr1] |] eqn:W; [| | discriminate].
  - apply (IH tr1 tr'); [| exact H]. exact (loop_head_next w fuel tr tr1 Hh F F' W).
  - injection H as <-.
    destruct (Epoch.after (next_epoch_of w (tr ++ [IsStopRequested false; HandleEpoch false]))
                (valid_until_of w (tr ++ [IsStopRequested false; HandleEpoch false]))) eqn:A.
    + rewrite wait_for_next_epoch_unfold, A in W. injection W as <-.
      eexists tr, _. split; [exact Hh |]. split; [apply exit_epochs_exhausted; assumption |].
      rewrite <- app_assoc. reflexivity.
    + destruct (wait_for_next_epoch_events _ _ _ _ _ W) as (ws & -> & _).
      eexists tr, _. split; [exact Hh |].
      split; [exact (exit_stop_while_waiting w tr fuel ws F F' A W) |].
      rewrite <- app_assoc. reflexivity.
Qed.

(** Once stop is requested for good every wait returns. *)
Lemma wait_for_next_epoch_stopped w n fuel tr :
  (forall m, (n <= m)%nat -> flag_at w m = true) -> (n < fuel)%nat ->
  exists r ws, wait_for_next_epoch fuel w tr = Some (r, tr ++ ws).
Proof.
  intros Hn Hf.
  destruct (wait_for_next_epoch fuel w tr) as [[r tr'] |] eqn:W.
  - destruct (wait_for_next_epoch_events _ _ _ _ _ W) as (ws & -> & _).
    exists r, ws. reflexivity.
  - exfalso. rewrite wait_for_next_epoch_unfold in W.
    destruct (Epoch.after _ _); [discriminate |].
    destruct (cond_wait_returns n fuel (next_epoch_of w tr) w (tr ++ announce_of w tr))
      as [tr1 C]; [| exact Hf | rewrite C in W; discriminate].
    right. apply Hn. lia.
Qed.

Lemma handle_loop_stopped w n :
  (forall m, (n <= m)%nat -> flag_at w m = true) ->
  forall k fuel tr, (n <= List.length tr + k)%nat -> (n + k < fuel)%nat ->
  exists tr', handle_loop fuel w tr = Some (tt, tr').
Proof.
  intros Hn. induction k as [| k IH]; intros [| fuel] tr Hk Hf; try lia;
    rewrite handle_loop_unfold.
  - rewrite Hn by lia. eexists; reflexivity.
  - destruct (flag_at w (List.length tr)); [eexists; reflexivity |].
    destruct (flag_at w (List.length tr + 1)); [eexists; reflexivity |].
    destruct (wait_for_next_epoch_stopped w n fuel
                (tr ++ [IsStopRequested false; HandleEpoch false]) Hn ltac:(lia))
      as (r & ws & ->).
    destruct r; [| eexists; reflexivity].
    apply IH; [| lia]. rewrite !length_app. cbn [List.length]. lia.
Qed.

Lemma handle_stopped w :
  stop_requested_for_good w -> exists fuel tr', handle fuel w [] = Some (tt, tr').
Proof.
  intros [n Hn]. exists (S (n + n)).
  destruct (flag_at w 1) eqn:F.
  - eexists. apply handle_init_error. exact F.
  - destruct (wait_for_next_epoch_stopped w n (S (n + n))
                [NumaRunOnNode; HandleInitialize false] Hn ltac:(lia)) as (r & ws & W).
    rewrite (handle_after_first_wait _ _ _ _ F W).
    destruct r; [| eexists; reflexivity].
    destruct (handle_loop_stopped w n Hn n (S (n + n))
                ([NumaRunOnNode; HandleInitialize false] ++ ws)) as [tr' ->]; [lia | lia |].
    eexists; reflexivity.
Qed.

(** C7.  [handle] returns on each of its paths, and on each of them calls
    [handle_uninitialize] exactly once and increments the exit count exactly
    once, as its last act.  When [handle_initialize] fails [handle] returns,
    with any fuel, after the error count, the wake-up and the events of
    [finish].  When the first [wait_for_next_epoch] returns [false] it
    returns with [finish] right after the wait.  From every head of the loop
    and for every way out of it (stop requested, an error of [handle_epoch],
    the epochs exhausted, stop requested during the wait) [handle] returns,
    with all fuel from some amount on, the trace up to the head, the events
    of the way out, which for an error of [handle_epoch] are the error count
    and the wake-up, and then [finish].  Every run that returns is one of
    these, so it has exactly one [handle_uninitialize] and one increment of
    the exit count, and its errors of [handle_initialize] and [handle_epoch]
    are followed at once by the error count, the wake-up and [finish].  Where
    stop is requested for good, [handle] returns whatever else the parent
    does; and a run that returns is the same with more fuel. *)
Theorem handle_behaviour fuel w :
  (flag_at w 1 = true ->
   handle fuel w [] =
   Some (tt, [NumaRunOnNode; HandleInitialize true; IncrementErrorCount; Wakeup] ++
             finish (flag_at w 4))) /\
  (forall tr,
     flag_at w 1 = false ->
     wait_for_next_epoch fuel w [NumaRunOnNode; HandleInitialize false] = Some (false, tr) ->
     handle fuel w [] = Some (tt, tr ++ finish (flag_at w (List.length tr)))) /\
  (forall head leave,
     loop_head w head -> loop_exit w head leave ->
     exists fuel0, forall fuel', (fuel0 <= fuel')%nat ->
       handle fuel' w [] =
       Some (tt, (head ++ leave) ++ finish (flag_at w (List.length (head ++ leave))))) /\
  (forall tr', handle fuel w [] = Some (tt, tr') ->
     (flag_at w 1 = true /\
      tr' = [NumaRunOnNode; HandleInitialize true; IncrementErrorCount; Wakeup] ++
            finish (flag_at w 4)) \/
     (flag_at w 1 = false /\
      exists tr,
        wait_for_next_epoch fuel w [NumaRunOnNode; HandleInitialize false] = Some (false, tr) /\
        tr' = tr ++ finish (flag_at w (List.length tr))) \/
     (exists head leave,
        loop_head w head /\ loop_exit w head leave /\
        tr' = (head ++ leave) ++ finish (flag_at w (List.length (head ++ leave))))) /\
  (forall tr', handle fuel w [] = Some (tt, tr') ->
     count_events is_uninitialize tr' = 1%nat /\
     count_events is_exit_count tr' = 1%nat /\
     (exists before uninit_error,
        tr' = before ++ finish uninit_error /\
        count_events is_uninitialize before = 0%nat /\
        count_events is_exit_count before = 0%nat) /\
     (forall pre post, tr' = pre ++ HandleInitialize true :: post ->
        exists uninit_error,
          post = IncrementErrorCount :: Wakeup :: finish uninit_error) /\
     (forall pre post, tr' = pre ++ HandleEpoch true :: post ->
        exists uninit_error,
          post = IncrementErrorCount :: Wakeup :: finish uninit_error)) /\
  (stop_requested_for_good w -> exists fuel' tr', handle fuel' w [] = Some (tt, tr')) /\
  (forall fuel' r, (fuel <= fuel')%nat ->
     handle fuel w [] = Some r -> handle fuel' w [] = Some r).
Proof.
  split; [apply handle_init_error |].
  split; [intros tr F W; rewrite (handle_after_first_wait _ _ _ _ F W); reflexivity |].
  split.
  { intros head leave Hh Hl.
    destruct (loop_exit_returns w head leave Hl) as [fuel0 L].
    exact (loop_head_returns w head Hh fuel0 (head ++ leave) L). }
  split.
  { intros tr' H. destruct (flag_at w 1) eqn:F.
    - left. split; [reflexivity |]. rewrite (handle_init_error fuel w F) in H.
      injection H as <-. reflexivity.
    - right.
      destruct (wait_for_next_epoch fuel w [NumaRunOnNode; HandleInitialize false])
        as [[success t1] |] eqn:W.
      + rewrite (handle_after_first_wait _ _ _ _ F W) in H. destruct success.
        * right. destruct (handle_loop fuel w t1) as [[[] t2] |] eqn:L; [| discriminate].
          injection H as <-.
          destruct (handle_loop_exit fuel w t1 t2 (loop_head_first w fuel t1 F W) L)
            as (head & leave & Hh & Hl & ->).
          exists head, leave. auto.
        * left. split; [reflexivity |]. injection H as <-. exists t1. auto.
      + exfalso. unfold handle in H.
        unfold bind at 1, numa_run_on_node, call_unit in H. cbn [app] in H.
        unfold bind at 1, handle_initialize, call_flag in H. cbn [app List.length] in H.
        rewrite F in H. unfold bind at 1 in H. unfold bind at 1 in H. rewrite W in H.
        discriminate. }
  split; [| split; [apply handle_stopped | intros; eapply handle_mono; eauto]].
  intros tr' H. apply handle_trace in H.
  destruct H as (init_error & body & uninit_error & -> & Hbody).
  assert (Hev : Forall (fun ev => is_loop_event ev = true) body \/
                body = [IncrementErrorCount; Wakeup]).
  { destruct Hbody as [[_ ->] | (_ & ws & rest & -> & Hws & [-> | Hr])]; auto; left.
    - rewrite app_nil_r. apply wait_event_loop_event. exact Hws.
    - apply Forall_app; split; [apply wait_event_loop_event | apply looped_events]; auto. }
  assert (Hev' : Forall (fun ev => is_loop_event ev = true) body).
  { destruct Hev as [Hev | ->]; [exact Hev | repeat constructor]. }
  clear Hev.
  assert (Cu : count_events is_uninitialize body = 0%nat).
  { apply count_events_none; [exact Hev' |]. intros [] ?; simpl in *; congruence. }
  assert (Cx : count_events is_exit_count body = 0%nat).
  { apply count_events_none; [exact Hev' |]. intros [] ?; simpl in *; congruence. }
  assert (Fu : count_events is_uninitialize (finish uninit_error) = 1%nat)
    by (destruct uninit_error; reflexivity).
  assert (Fx : count_events is_exit_count (finish uninit_error) = 1%nat)
    by (destruct uninit_error; reflexivity).
  change (NumaRunOnNode :: HandleInitialize init_error :: body ++ finish uninit_error)
    with ([NumaRunOnNode; HandleInitialize init_error] ++ body ++ finish uninit_error).
  split; [| split; [| split; [| split]]].
  - rewrite !count_events_app, Cu, Fu. reflexivity.
  - rewrite !count_events_app, Cx, Fx. reflexivity.
  - exists ([NumaRunOnNode; HandleInitialize init_error] ++ body), uninit_error.
    rewrite <- app_assoc. split; [reflexivity |].
    rewrite !count_events_app, Cu, Cx. split; reflexivity.
  - intros pre post E.
    assert (N : ~ not_init_error (HandleInitialize true)) by (intros H; apply H; reflexivity).
    assert (Rest : Forall not_init_error (body ++ finish uninit_error)).
    { apply Forall_app; split.
      - revert Hev'. apply Forall_impl. intros ev Hl Heq. subst. discriminate.
      - destruct uninit_error; repeat constructor; discriminate. }
    destruct pre as [| e1 pre]; cbn [app] in E; [discriminate |].
    injection E as <- E.
    destruct pre as [| e2 pre]; cbn [app] in E.
    + injection E as -> <-.
      destruct Hbody as [[_ ->] | [Hf _]]; [| discriminate].
      exists uninit_error. reflexivity.
    + injection E as <- E. exfalso. exact (not_in_trace _ _ _ _ _ Rest N E).
  - intros pre post E.
    assert (N : ~ not_epoch_error (HandleEpoch true)) by (intros H; apply H; reflexivity).
    assert (Fin : Forall not_epoch_error (finish uninit_error))
      by (destruct uninit_error; repeat constructor; discriminate).
    destruct (split_after_prefix not_epoch_error _
                [NumaRunOnNode; HandleInitialize init_error] _ _ _
                ltac:(repeat constructor; discriminate) N E) as (pre' & _ & E').
    destruct Hbody as [[_ ->] | (_ & ws & rest & -> & Hws & [-> | Hr])].
    + exfalso. refine (not_in_trace not_epoch_error _ _ _ _ _ N E').
      apply Forall_app; split; [repeat constructor; discriminate | exact Fin].
    + exfalso. refine (not_in_trace not_epoch_error _ _ _ _ _ N E').
      rewrite app_nil_r. apply Forall_app; split;
        [apply wait_events_no_epoch_error; exact Hws | exact Fin].
    + rewrite <- app_assoc in E'.
      destruct (split_after_prefix not_epoch_error _ ws _ _ _
                  (wait_events_no_epoch_error _ Hws) N E') as (pre'' & _ & E'').
      exists uninit_error. exact (looped_epoch_error _ Hr _ _ _ Fin E'').
Qed.

(** A worker at the second head of its loop, where it finds stop requested. *)
Example loop_head_and_exit :
  let w := {| epoch_at := fun _ => 10; count_at := Z.of_nat;
              flag_at := fun n => Nat.eqb n 18 |} in
  let head :=
    [NumaRunOnNode; HandleInitialize false; PreWaitForNextEpoch;
     GetNextProcessingEpoch 10; IncrementCompletedCount 4; GetAllCount 5;
     GetValidUntilEpoch 10; GetProcessingEpoch 10; IsStopRequested false;
     IsStopRequested false; HandleEpoch false; PreWaitForNextEpoch;
     GetNextProcessingEpoch 10; IncrementCompletedCount 13; GetAllCount 14;
     GetValidUntilEpoch 10; GetProcessingEpoch 10; IsStopRequested false] in
  loop_head w head /\ loop_exit w head [IsStopRequested true] /\
  handle 2 w [] = Some (tt, head ++ [IsStopRequested true] ++ finish false).
Proof.
  intros w head. split; [| split].
  - apply (loop_head_next w 1 (firstn 9 head) head).
    + apply (loop_head_first w 1); vm_compute; reflexivity.
    + reflexivity.
    + reflexivity.
    + vm_compute. reflexivity.
  - apply exit_stop_requested. reflexivity.
  - vm_compute. reflexivity.
Qed.

(** Stop is requested for good from the tenth call on: the worker, asleep
    for an epoch that is never published, wakes and returns. *)
Example handle_after_stop_for_good :
  let w := {| epoch_at := fun n => if Nat.eqb n 3 || Nat.eqb n 6 then 10 else 9;
              count_at := Z.of_nat;
              flag_at := fun n => Nat.leb 9 n |} in
  stop_requested_for_good w /\
  handle 2 w [] =
  Some (tt,
        [NumaRunOnNode; HandleInitialize false; PreWaitForNextEpoch;
         GetNextProcessingEpoch 10; IncrementCompletedCount 4; GetAllCount 5;
         GetValidUntilEpoch 10; GetProcessingEpoch 9; IsStopRequested false;
         CondWait 10; GetProcessingEpoch 9; IsStopRequested true;
         IsStopRequested true; HandleUninitialize true; IncrementErrorCount;
         IncrementExitCount]).
Proof.
  intros w. split.
  - exists 9%nat. intros m Hm. cbn [flag_at w]. apply Nat.leb_le. exact Hm.
  - vm_compute. reflexivity.
Qed.

(** The four ways out of [handle], each on a world that takes it. *)

(** The last epoch is done: the next epoch, 11, is after [valid_until], 10. *)
Example handle_epochs_exhausted :
  handle 0
    {| epoch_at := fun n => if Nat.eqb n 3 then 11 else 10;
       count_at := Z.of_nat;
       flag_at := fun _ => false |} [] =
  Some (tt,
        [NumaRunOnNode; HandleInitialize false; PreWaitForNextEpoch;
         GetNextProcessingEpoch 11; IncrementCompletedCount 4; GetAllCount 5;
         GetValidUntilEpoch 10; HandleUninitialize false; IncrementExitCount]).
Proof. vm_compute. reflexivity. Qed.

(** Stop is requested when the loop is entered; the worker was the last to
    complete and woke the parent. *)
Example handle_stop_requested :
  handle 1
    {| epoch_at := fun _ => 10;
       count_at := fun _ => 2;
       flag_at := fun n => Nat.eqb n 10 |} [] =
  Some (tt,
        [NumaRunOnNode; HandleInitialize false; PreWaitForNextEpoch;
         GetNextProcessingEpoch 10; IncrementCompletedCount 2; GetAllCount 2;
         Wakeup; GetValidUntilEpoch 10; GetProcessingEpoch 10;
         IsStopRequested false; IsStopRequested true;
         HandleUninitialize false; IncrementExitCount]).
Proof. vm_compute. reflexivity. Qed.

(** [handle_epoch] fails on the first epoch. *)
Example handle_epoch_error :
  handle 1
    {| epoch_at := fun _ => 10;
       count_at := Z.of_nat;
       flag_at := fun n => Nat.eqb n 10 |} [] =
  Some (tt,
        [NumaRunOnNode; HandleInitialize false; PreWaitForNextEpoch;
         GetNextProcessingEpoch 10; IncrementCompletedCount 4; GetAllCount 5;
         GetValidUntilEpoch 10; GetProcessingEpoch 10;
         IsStopRequested false; IsStopRequested false; HandleEpoch true;
         IncrementErrorCount; Wakeup;
         HandleUninitialize false; IncrementExitCount]).
Proof. vm_compute. reflexivity. Qed.

(** [handle_initialize] fails, and so does [handle_uninitialize]. *)
Example handle_initialize_error :
  handle 0
    {| epoch_at := fun _ => 10;
       count_at := Z.of_nat;
       flag_at := fun _ => true |} [] =
  Some (tt,
        [NumaRunOnNode; HandleInitialize true; IncrementErrorCount; Wakeup;
         HandleUninitialize true; IncrementErrorCount; IncrementExitCount]).
Proof. vm_compute. reflexivity. Qed.

(** A worker that sleeps once: the gleaner publishes epoch 10 at the second
    test. *)
Example wait_for_next_epoch_sleeps_once :
  wait_for_next_epoch 2
    {| epoch_at := fun n => if Nat.eqb n 5 then 9 else 10;
       count_at := Z.of_nat;
       flag_at := fun _ => false |} [] =
  Some (true,
        [PreWaitForNextEpoch; GetNextProcessingEpoch 10;
         IncrementCompletedCount 2; GetAllCount 3; GetValidUntilEpoch 10;
         GetProcessingEpoch 9; IsStopRequested false; CondWait 10;
         GetProcessingEpoch 10; IsStopRequested false]).
Proof. vm_compute. reflexivity. Qed.

End MapReduceFacts.

(** ** What [handle] adds to the counters of its parent *)

Section MapReduceCounts.

Import MapReduceBase.

Lemma count_events_cons f ev l :
  count_events f (ev :: l) = ((if f ev then 1 else 0) + count_events f l)%nat.
Proof. unfold count_events. cbn [filter]. destruct (f ev); reflexivity. Qed.

Lemma count_wait_events_none f ws :
  Forall (fun ev => is_wait_event ev = true) ws ->
  (forall ev, is_wait_event ev = true -> f ev = false) ->
  count_events f ws = 0%nat.
Proof.
  intros Hw Hf. unfold count_events. rewrite filter_none; [reflexivity |].
  revert Hw. apply Forall_impl. exact Hf.
Qed.

Lemma waited_no_completed_count next_epoch checks :
  waited next_epoch checks -> count_events is_completed_count checks = 0%nat.
Proof. induction 1; [reflexivity | reflexivity | exact IHwaited]. Qed.

(** One call of [wait_for_next_epoch] that returns has arrived at the barrier
    exactly once. *)
Lemma wait_for_next_epoch_counts fuel w tr r tr' :
  wait_for_next_epoch fuel w tr = Some (r, tr') ->
  exists ws, tr' = tr ++ ws /\
    Forall (fun ev => is_wait_event ev = true) ws /\
    count_events is_completed_count ws = 1%nat.
Proof.
  intros H.
  assert (A : count_events is_completed_count (announce_of w tr) = 1%nat).
  { unfold announce_of, announce. destruct (_ =? _); reflexivity. }
  rewrite wait_for_next_epoch_unfold in H.
  destruct (Epoch.after (next_epoch_of w tr) (valid_until_of w tr)).
  - inversion H; subst.
    eexists; split_and; [reflexivity | apply announce_events | exact A].
  - destruct (cond_wait fuel (next_epoch_of w tr) w (tr ++ announce_of w tr))
      as [[[] tr1] |] eqn:C; [| discriminate].
    apply cond_wait_trace in C. destruct C as (checks & -> & Hw).
    inversion H; subst. rewrite <- !app_assoc.
    eexists; split_and; [reflexivity | |].
    + apply Forall_app; split; [apply announce_events |].
      apply Forall_app; split; [eapply waited_events; eassumption | repeat constructor].
    + rewrite !count_events_app, A.
      rewrite (waited_no_completed_count _ _ Hw). reflexivity.
Qed.

Ltac wait_counts_zero Hws :=
  rewrite ?(count_wait_events_none is_error_count _ Hws),
          ?(count_wait_events_none is_failure _ Hws),
          ?(count_wait_events_none is_initialized _ Hws),
          ?(count_wait_events_none is_epoch_done _ Hws)
    by (intros [| [] | [] | [] | | | | | | | | | | |]; cbn; congruence).

Lemma handle_loop_counts fuel w : forall tr tr',
  handle_loop fuel w tr = Some (tt, tr') ->
  exists body, tr' = tr ++ body /\
    count_events is_error_count body = count_events is_failure body /\
    count_events is_completed_count body = count_events is_epoch_done body /\
    count_events is_initialized body = 0%nat.
Proof.
  induction fuel as [| fuel IH]; intros tr tr' H; [discriminate |].
  cbn [handle_loop] in H.
  unfold bind at 1, is_stop_requested, call_flag in H.
  destruct (flag_at w (List.length tr)) eqn:F.
  - inversion H; subst. eexists; split; [reflexivity |]. split_and; reflexivity.
  - unfold bind at 1, handle_epoch, call_flag in H.
    rewrite length_app in H; cbn [List.length] in H.
    destruct (flag_at w (List.length tr + 1)) eqn:F2.
    + unfold bind, increment_error_count, wakeup, call_unit in H.
      inversion H; subst. rewrite <- !app_assoc. cbn [app].
      eexists; split; [reflexivity |]. split_and; reflexivity.
    + unfold bind at 1 in H.
      destruct (wait_for_next_epoch fuel w _) as [[continue tr1] |] eqn:W; [| discriminate].
      apply wait_for_next_epoch_counts in W. destruct W as (ws & -> & Hws & Cws).
      destruct continue.
      * apply IH in H. destruct H as (rest & -> & He & Hc & Hi).
        rewrite <- !app_assoc. cbn [app].
        eexists; split; [reflexivity |].
        rewrite !count_events_cons, !count_events_app. cbn [is_error_count is_failure
          is_completed_count is_epoch_done is_initialized].
        wait_counts_zero Hws. rewrite Cws, He, Hc, Hi. split_and; reflexivity.
      * inversion H; subst. rewrite <- !app_assoc. cbn [app].
        eexists; split; [reflexivity |].
        rewrite !count_events_cons. cbn [is_error_count is_failure
          is_completed_count is_epoch_done is_initialized].
        wait_counts_zero Hws. rewrite Cws. split_and; reflexivity.
Qed.

(** The counters of the parent add up.  In every run of [handle] that ends,
    the error count was incremented once for each of [handle_initialize],
    [handle_epoch], [handle_uninitialize] that returned an error and never
    otherwise; and the worker arrived at the barrier of the epochs (the
    completed count) once after a [handle_initialize] without error and once
    after each [handle_epoch] without error, so not at all when
    [handle_initialize] failed and not after the [handle_epoch] that
    failed. *)
Theorem handle_accounting fuel w tr' :
  handle fuel w [] = Some (tt, tr') ->
  count_events is_error_count tr' = count_events is_failure tr' /\
  count_events is_completed_count tr' =
    (count_events is_initialized tr' + count_events is_epoch_done tr')%nat.
Proof.
  unfold handle. intros H.
  apply bind_Some in H. destruct H as ([] & t1 & H1 & H).
  apply bind_Some in H. destruct H as (init_error & t2 & H2 & H).
  apply bind_Some in H. destruct H as ([] & t3 & H3 & H).
  apply bind_Some in H. destruct H as (uninit_error & t4 & H4 & H).
  apply bind_Some in H. destruct H as ([] & t5 & H5 & H).
  unfold numa_run_on_node, handle_initialize, handle_uninitialize, increment_exit_count,
    call_unit, call_flag in H1, H2, H4, H.
  cbn [app List.length] in *.
  injection H1 as <-. injection H2 as E2 <-. injection H4 as E4 <-. injection H as <-.
  cbn [app List.length] in *. rewrite E2 in H3. rewrite E4 in H5.
  assert (E5 : t5 = (t3 ++ [HandleUninitialize uninit_error]) ++
                    (if uninit_error then [IncrementErrorCount] else [])).
  { destruct uninit_error; unfold increment_error_count, call_unit, ret in H5;
      injection H5 as <-; rewrite ?app_nil_r; reflexivity. }
  subst t5. clear H5 E4.
  assert (Tail : forall body,
    t3 = [NumaRunOnNode; HandleInitialize init_error] ++ body ->
    count_events is_error_count body =
      ((if init_error then 1 else 0) + count_events is_failure body)%nat ->
    (count_events is_completed_count body =
      (if init_error then 0 else 1) + count_events is_epoch_done body)%nat ->
    count_events is_initialized body = 0%nat ->
    let tr' := ((t3 ++ [HandleUninitialize uninit_error]) ++
                (if uninit_error then [IncrementErrorCount] else [])) ++
               [IncrementExitCount] in
    count_events is_error_count tr' = count_events is_failure tr' /\
    count_events is_completed_count tr' =
      (count_events is_initialized tr' + count_events is_epoch_done tr')%nat).
  { intros body -> He Hc Hi. cbn zeta.
    rewrite !count_events_app, He, Hc, Hi.
    destruct uninit_error; destruct init_error; cbn; lia. }
  clear E2. destruct init_error.
  - apply bind_Some in H3. destruct H3 as ([] & t & Ha & Hb).
    unfold increment_error_count, wakeup, call_unit in Ha, Hb.
    injection Ha as <-. injection Hb as <-.
    apply (Tail [IncrementErrorCount; Wakeup]); reflexivity.
  - apply bind_Some in H3. destruct H3 as (success & t & Ha & Hb).
    apply wait_for_next_epoch_counts in Ha. destruct Ha as (ws & -> & Hws & Cws).
    destruct success.
    + apply handle_loop_counts in Hb. destruct Hb as (rest & -> & He & Hc & Hi).
      apply (Tail (ws ++ rest)); [rewrite <- !app_assoc; reflexivity | | |];
        rewrite !count_events_app; wait_counts_zero Hws;
        rewrite ?Cws, ?He, ?Hc, ?Hi; reflexivity.
    + unfold ret in Hb. injection Hb as <-.
      apply (Tail ws); [reflexivity | | |];
        wait_counts_zero Hws; rewrite ?Cws; reflexivity.
Qed.

Lemma handle_accounting_witness :
  let tr' :=
    [NumaRunOnNode; HandleInitialize false; PreWaitForNextEpoch;
     GetNextProcessingEpoch 10; IncrementCompletedCount 4; GetAllCount 5;
     GetValidUntilEpoch 10; GetProcessingEpoch 10;
     IsStopRequested false; IsStopRequested false; HandleEpoch true;
     IncrementErrorCount; Wakeup;
     HandleUninitialize false; IncrementExitCount] in
  count_events is_error_count tr' = count_events is_failure tr' /\
  count_events is_completed_count tr' =
    (count_events is_initialized tr' + count_events is_epoch_done tr')%nat.
Proof.
  intros tr'.
  apply (handle_accounting 1
           {| epoch_at := fun _ => 10;
              count_at := Z.of_nat;
              flag_at := fun n => Nat.eqb n 10 |} tr').
  vm_compute. reflexivity.
Defined.

End MapReduceCounts.

(** ** TPC-B: the sums after a run *)

Section TpcbFacts.

Import Tpcb.

Lemma get_record_in_range {A} (storage : list A) offset :
  0 <= offset < Z.of_nat (List.length storage) ->
  exists data, get_record storage offset = Some data /\
               nth_error storage (Z.to_nat offset) = Some data.
Proof.
  intros H. unfold get_record.
  destruct (Z.leb_spec 0 offset); [| lia].
  destruct (Z.ltb_spec offset (Z.of_nat (List.length storage))); [| lia].
  cbn [andb].
  destruct (nth_error storage (Z.to_nat offset)) as [data |] eqn:E; [eauto |].
  apply nth_error_None in E. lia.
Qed.

Lemma overwrite_record_in_range {A} (storage : list A) offset data :
  0 <= offset < Z.of_nat (List.length storage) ->
  overwrite_record storage offset data =
  Some (array_store storage (Z.to_nat offset) data).
Proof.
  intros H. unfold overwrite_record.
  destruct (Z.leb_spec 0 offset); [| lia].
  destruct (Z.ltb_spec offset (Z.of_nat (List.length storage))); [| lia].
  reflexivity.
Qed.

Lemma get_record_Some {A} (storage : list A) offset data :
  get_record storage offset = Some data ->
  0 <= offset < Z.of_nat (List.length storage) /\
  nth_error storage (Z.to_nat offset) = Some data.
Proof.
  unfold get_record.
  destruct (Z.leb_spec 0 offset); [| discriminate].
  destruct (Z.ltb_spec offset (Z.of_nat (List.length storage))); [| discriminate].
  cbn [andb]. auto.
Qed.

Lemma wrap_int64_small z : 0 <= z < 2 ^ 63 -> wrap_int64 z = z.
Proof.
  intros H. unfold wrap_int64. rewrite Z.mod_small; lia.
Qed.

(** One committed transaction keeps the invariant. *)
Lemma try_transaction_invariant db used total x :
  tpcb_invariant db used total -> valid_xct x ->
  ~ In (history_id x) used -> (List.length used < 400)%nat ->
  exists db', try_transaction db x = Some db' /\
              tpcb_invariant db' (history_id x :: used) (total + amount x).
Proof.
  intros (Lb & Lt & La & Lh & Pb & Pt & Pa & Sb & St & Sa & Sh & Hz & Ht)
         (Vb & Vt & Va & Vh & Vm) Hnew Hlen.
  unfold BRANCHES, TELLERS, ACCOUNTS, HISTORIES, XCTS_PER_THREAD, MAX_TEST_THREADS,
    AMOUNT_RANGE_FROM, AMOUNT_RANGE_TO in *.
  destruct (get_record_in_range (branches db) (branch_id x) ltac:(lia)) as (b & Gb & Nb).
  destruct (get_record_in_range (tellers db) (teller_id x) ltac:(lia)) as (t & Gt & Nt).
  destruct (get_record_in_range (accounts db) (account_id x) ltac:(lia)) as (a & Ga & Na).
  destruct (get_record_in_range (histories db) (history_id x) ltac:(lia)) as (h & Gh & Nh).
  pose proof (sum_by_bounds_entry _ _ Pb _ _ Nb) as Bb.
  pose proof (sum_by_bounds_entry _ _ Pt _ _ Nt) as Bt.
  pose proof (sum_by_bounds_entry _ _ Pa _ _ Na) as Ba.
  unfold branch_sum, teller_sum, account_sum, history_sum in *.
  assert (P63 : 2 ^ 63 = 9223372036854775808) by reflexivity.
  unfold try_transaction.
  rewrite Gb, Gt, Ga, Gh.
  rewrite !overwrite_record_in_range by lia.
  rewrite !wrap_int64_small by lia.
  eexists; split; [reflexivity |].
  unfold tpcb_invariant, branch_sum, teller_sum, account_sum, history_sum.
  cbn [branches tellers accounts histories].
  rewrite !array_store_length.
  rewrite (sum_by_array_store _ _ _ _ _ Nb), (sum_by_array_store _ _ _ _ _ Nt),
    (sum_by_array_store _ _ _ _ _ Na), (sum_by_array_store _ _ _ _ _ Nh).
  cbn [branch_balance_ teller_balance_ account_balance_ amount_].
  rewrite (Hz _ _ Hnew Gh).
  split_and; try assumption; try lia.
  - apply Forall_array_store; [assumption | simpl; lia].
  - apply Forall_array_store; [assumption | simpl; lia].
  - apply Forall_array_store; [assumption | simpl; lia].
  - intros h' data Hn G. apply get_record_Some in G. destruct G as [R N].
    rewrite array_store_length in R.
    assert (Hd : Z.to_nat (history_id x) <> Z.to_nat h').
    { intros E. apply Hn. left. lia. }
    rewrite (nth_error_array_store_ne _ _ _ _ Hd) in N.
    apply (Hz h'); [intros Hin; apply Hn; right; exact Hin |].
    unfold get_record.
    destruct (Z.leb_spec 0 h'); [| lia].
    destruct (Z.ltb_spec h' (Z.of_nat (List.length (histories db)))); [| lia].
    exact N.
  - cbn [List.length]. lia.
Qed.

Lemma run_xcts_step db x xs :
  run_xcts (x :: xs) db =
  match try_transaction db x with
  | Some db' => run_xcts xs db'
  | None => None
  end.
Proof.
  unfold run_xcts. cbn [fold_left].
  destruct (try_transaction db x) as [db' |]; [reflexivity |].
  induction xs as [| y ys IH]; [reflexivity | exact IH].
Qed.

(** A serial run of valid transactions on distinct history records keeps the
    invariant. *)
Lemma run_xcts_invariant xs : forall db used total,
  tpcb_invariant db used total ->
  Forall valid_xct xs ->
  NoDup (map history_id xs) ->
  (forall x, In x xs -> ~ In (history_id x) used) ->
  (List.length used + List.length xs <= 400)%nat ->
  exists db' used',
    run_xcts xs db = Some db' /\
    tpcb_invariant db' used' (total + amount_sum xs).
Proof.
  induction xs as [| x xs IH]; intros db used total Hi Hv Hn Hu Hl.
  - exists db, used. unfold amount_sum; simpl. rewrite Z.add_0_r. auto.
  - inversion Hv as [| ? ? Hx Hv']; subst.
    cbn [map] in Hn. inversion Hn as [| ? ? Hnx Hn']; subst.
    cbn [List.length] in Hl.
    destruct (try_transaction_invariant db used total x Hi Hx
                (Hu x (or_introl eq_refl)) ltac:(lia)) as (db1 & T & Hi1).
    destruct (IH db1 (history_id x :: used) (total + amount x) Hi1 Hv' Hn') as (db' & used' & R & Hi').
    + intros y Hy [E | Hin].
      * apply Hnx. rewrite E. apply in_map. exact Hy.
      * exact (Hu y (or_intror Hy) Hin).
    + cbn [List.length]. lia.
    + exists db', used'. rewrite run_xcts_step, T. split; [exact R |].
      replace (total + amount_sum (x :: xs)) with (total + amount x + amount_sum xs)
        by (unfold amount_sum; simpl; lia).
      exact Hi'.
Qed.

Lemma create_tables_invariant : tpcb_invariant create_tables [] 0.
Proof.
  unfold tpcb_invariant. split_and; try (vm_compute; reflexivity).
  - vm_compute. repeat constructor; discriminate.
  - vm_compute. repeat constructor; discriminate.
  - vm_compute. repeat constructor; discriminate.
  - intros h data _ G. apply get_record_Some in G. destruct G as [_ N].
    apply nth_error_In in N. unfold create_tables in N. cbn [histories] in N.
    apply in_map_iff in N. destruct N as (i & <- & _). reflexivity.
  - simpl. lia.
  - simpl. lia.
Qed.

Lemma map_fst_combine {A B} (l : list A) : forall l' : list B,
  List.length l = List.length l' -> map fst (combine l l') = l.
Proof.
  induction l as [| a l IH]; intros [| b l'] H; simpl in *; try discriminate; auto.
  f_equal. apply IH. lia.
Qed.

(** For the clients and loop indices of the test nothing wraps. *)
Lemma xct_of_draw_plain client_id contended i d :
  0 <= client_id < MAX_TEST_THREADS -> 0 <= i < XCTS_PER_THREAD ->
  account_id (xct_of_draw client_id contended i d) =
    plain_account_id client_id contended d /\
  history_id (xct_of_draw client_id contended i d) = plain_history_id client_id i.
Proof.
  unfold MAX_TEST_THREADS, XCTS_PER_THREAD. intros Hc Hi.
  unfold xct_of_draw, plain_account_id, plain_history_id, BRANCHES, ACCOUNTS,
    MAX_TEST_THREADS, XCTS_PER_THREAD, wrap64, wrap_int32.
  cbn [account_id history_id].
  change (8 * 4 / 4) with 8. change (8 * 4) with 32.
  assert (P64 : 2 ^ 64 = 18446744073709551616) by reflexivity.
  assert (P32 : 2 ^ 32 = 4294967296) by reflexivity.
  assert (P31 : 2 ^ 31 = 2147483648) by reflexivity.
  split.
  - destruct contended; [reflexivity |].
    pose proof (Z.mod_pos_bound (next_uint32 d) 8 ltac:(lia)) as B.
    rewrite (Z.mod_small client_id) by lia.
    rewrite (Z.mod_small (client_id * 8)) by lia.
    apply Z.mod_small. lia.
  - rewrite (Z.mod_small (client_id * 100 + 2 ^ 31)) by lia.
    replace (client_id * 100 + 2 ^ 31 - 2 ^ 31 + i + 2 ^ 31)
      with (client_id * 100 + i + 2 ^ 31) by lia.
    rewrite (Z.mod_small (client_id * 100 + i + 2 ^ 31)) by lia.
    rewrite Z.mod_small by lia. lia.
Qed.

Lemma client_xcts_history_ids client_id contended draws :
  0 <= client_id < MAX_TEST_THREADS ->
  Z.of_nat (List.length draws) <= XCTS_PER_THREAD ->
  map history_id (client_xcts client_id contended draws) =
  map (fun i => client_id * XCTS_PER_THREAD + Z.of_nat i) (seq 0 (List.length draws)).
Proof.
  intros Hc Hl. unfold client_xcts. rewrite map_map.
  rewrite <- (map_fst_combine (seq 0 (List.length draws)) draws) at 2
    by apply length_seq.
  rewrite map_map. apply map_ext_in. intros [i d] Hin.
  apply in_combine_l, in_seq in Hin. cbn [fst snd].
  apply (xct_of_draw_plain client_id contended (Z.of_nat i) d Hc). lia.
Qed.

Lemma client_xcts_valid client_id contended draws :
  0 <= client_id < MAX_TEST_THREADS ->
  Z.of_nat (List.length draws) = XCTS_PER_THREAD ->
  Forall valid_draw draws ->
  Forall valid_xct (client_xcts client_id contended draws).
Proof.
  intros Hc Hl Hd. apply Forall_forall. intros x Hx.
  unfold client_xcts in Hx. apply in_map_iff in Hx. destruct Hx as ([i d] & <- & Hin).
  pose proof (in_combine_l _ _ _ _ Hin) as Hi. pose proof (in_combine_r _ _ _ _ Hin) as Hd'.
  apply in_seq in Hi. rewrite Forall_forall in Hd. destruct (Hd d Hd') as [[U0 U1] Ha].
  cbn [fst snd].
  destruct (xct_of_draw_plain client_id contended (Z.of_nat i) d Hc ltac:(lia)) as [EA EH].
  unfold valid_xct. rewrite EH.
  change (teller_id (xct_of_draw client_id contended (Z.of_nat i) d))
    with (account_id (xct_of_draw client_id contended (Z.of_nat i) d) / ACCOUNTS_PER_TELLER).
  change (branch_id (xct_of_draw client_id contended (Z.of_nat i) d))
    with (account_id (xct_of_draw client_id contended (Z.of_nat i) d) / ACCOUNTS).
  rewrite EA.
  change (amount (xct_of_draw client_id contended (Z.of_nat i) d)) with (uniform_within d).
  unfold plain_account_id, plain_history_id, BRANCHES, TELLERS, ACCOUNTS, ACCOUNTS_PER_TELLER,
    HISTORIES, XCTS_PER_THREAD, MAX_TEST_THREADS in *.
  change (4 / 2) with 2. change (8 * 4) with 32.
  change (8 * 2) with 16. change (100 * 4) with 400.
  assert (Acc : 0 <= (if contended then next_uint32 d mod 32
                      else next_uint32 d mod 8 + client_id * 8) < 32).
  { destruct contended.
    - apply Z.mod_pos_bound. lia.
    - pose proof (Z.mod_pos_bound (next_uint32 d) 8 ltac:(lia)). lia. }
  set (acc := if contended then _ else _) in *. clearbody acc.
  unfold AMOUNT_RANGE_FROM, AMOUNT_RANGE_TO in *.
  clear EA EH. unfold ACCOUNTS, TELLERS. change (4 / 2) with 2.
  split_and; try lia;
    first [apply Z.div_pos; lia | apply Z.div_lt_upper_bound; lia].
Qed.

Lemma all_xcts_history_ids contended d0 d1 d2 d3 :
  List.length d0 = 100%nat -> List.length d1 = 100%nat ->
  List.length d2 = 100%nat -> List.length d3 = 100%nat ->
  map history_id (all_xcts contended d0 d1 d2 d3) = map Z.of_nat (seq 0 400).
Proof.
  intros L0 L1 L2 L3. unfold all_xcts.
  rewrite !map_app, !client_xcts_history_ids, L0, L1, L2, L3
    by (rewrite ?L0, ?L1, ?L2, ?L3; unfold MAX_TEST_THREADS, XCTS_PER_THREAD; lia).
  vm_compute. reflexivity.
Qed.

(** C3, as the code has it.  After four clients have each committed 100
    TPC-B transactions, in any serial order of the 400, the branch balances,
    the teller balances and the account balances each sum to 8 * 400 plus
    the sum of all amounts, and the history amounts sum to the sum of all
    amounts: the balance sums exceed the history sum by 8 * 400. *)
Theorem tpcb_sums contended d0 d1 d2 d3 schedule :
  List.length d0 = 100%nat -> List.length d1 = 100%nat ->
  List.length d2 = 100%nat -> List.length d3 = 100%nat ->
  Forall valid_draw d0 -> Forall valid_draw d1 ->
  Forall valid_draw d2 -> Forall valid_draw d3 ->
  Permutation schedule (all_xcts contended d0 d1 d2 d3) ->
  exists db, run_xcts schedule create_tables = Some db /\ actual_sums db schedule.
Proof.
  intros L0 L1 L2 L3 V0 V1 V2 V3 P.
  assert (Hv : Forall valid_xct (all_xcts contended d0 d1 d2 d3)).
  { unfold all_xcts. repeat (apply Forall_app; split);
      apply client_xcts_valid; auto;
      unfold MAX_TEST_THREADS, XCTS_PER_THREAD; try lia. }
  assert (Hn : NoDup (map history_id (all_xcts contended d0 d1 d2 d3))).
  { rewrite all_xcts_history_ids by assumption.
    apply Finite.Injective_map_NoDup; [exact Nat2Z.inj | apply seq_NoDup]. }
  assert (Hl : List.length (all_xcts contended d0 d1 d2 d3) = 400%nat).
  { rewrite <- (length_map history_id), all_xcts_history_ids by assumption.
    rewrite length_map, length_seq. reflexivity. }
  apply Permutation_sym in P.
  destruct (run_xcts_invariant schedule create_tables [] 0 create_tables_invariant)
    as (db & used & R & Hi).
  - exact (Permutation_Forall P Hv).
  - exact (Permutation_NoDup (Permutation_map history_id P) Hn).
  - intros x _ [].
  - rewrite <- (Permutation_length P), Hl. simpl. lia.
  - exists db. split; [exact R |].
    destruct Hi as (_ & _ & _ & _ & _ & _ & _ & Sb & St & Sa & Sh & _ & _).
    unfold actual_sums. rewrite Z.add_0_l in *. lia.
Qed.

Lemma example_draws_valid c : 0 <= c <= 3 -> Forall valid_draw (example_draws c).
Proof.
  intros Hc. apply Forall_forall. intros d Hd.
  unfold example_draws in Hd. apply in_map_iff in Hd. destruct Hd as (i & <- & Hi).
  apply in_seq in Hi.
  unfold valid_draw, is_uint32, AMOUNT_RANGE_FROM, AMOUNT_RANGE_TO.
  cbn [next_uint32 uniform_within].
  pose proof (Z.mod_pos_bound (Z.of_nat i) 20 ltac:(lia)). lia.
Qed.

Lemma tpcb_sums_witness :
  exists db, run_xcts example_schedule create_tables = Some db /\
             actual_sums db example_schedule.
Proof.
  apply (tpcb_sums true (example_draws 0) (example_draws 1) (example_draws 2)
           (example_draws 3) example_schedule);
    try reflexivity; try (apply example_draws_valid; lia).
Defined.

(** The run [example_schedule]: the three balance sums are 7400 and the
    history amounts sum to 4200, so the four sums are not one sum. *)
Lemma tpcb_sums_counterexample :
  exists db, run_xcts example_schedule create_tables = Some db /\
             branch_sum db = 7400 /\ history_sum db = 4200 /\
             ~ one_common_sum db example_schedule.
Proof.
  eexists. split; [vm_compute; reflexivity |].
  split; [vm_compute; reflexivity |]. split; [vm_compute; reflexivity |].
  intros (_ & _ & _ & H). vm_compute in H. discriminate.
Qed.

End TpcbFacts.

(** ** [VerifyTpcbTask::run] *)

Section TpcbVerify.

Import Tpcb.

(** The database a committed transaction leaves: no balance wraps. *)
Lemma try_transaction_result db used total x :
  tpcb_invariant db used total -> valid_xct x -> (List.length used < 400)%nat ->
  exists b t a h,
    nth_error (branches db) (Z.to_nat (branch_id x)) = Some b /\
    nth_error (tellers db) (Z.to_nat (teller_id x)) = Some t /\
    nth_error (accounts db) (Z.to_nat (account_id x)) = Some a /\
    nth_error (histories db) (Z.to_nat (history_id x)) = Some h /\
    try_transaction db x =
    Some {| branches :=
              array_store (branches db) (Z.to_nat (branch_id x))
                {| branch_balance_ := branch_balance_ b + amount x |};
            tellers :=
              array_store (tellers db) (Z.to_nat (teller_id x))
                {| teller_branch_id_ := teller_branch_id_ t;
                   teller_balance_ := teller_balance_ t + amount x |};
            accounts :=
              array_store (accounts db) (Z.to_nat (account_id x))
                {| account_branch_id_ := account_branch_id_ a;
                   account_balance_ := account_balance_ a + amount x |};
            histories :=
              array_store (histories db) (Z.to_nat (history_id x))
                {| account_id_ := account_id x;
                   teller_id_ := teller_id x;
                   branch_id_ := branch_id x;
                   amount_ := amount x |} |}.
Proof.
  intros (Lb & Lt & La & Lh & Pb & Pt & Pa & Sb & St & Sa & Sh & Hz & Ht)
         (Vb & Vt & Va & Vh & Vm) Hlen.
  unfold BRANCHES, TELLERS, ACCOUNTS, HISTORIES, XCTS_PER_THREAD, MAX_TEST_THREADS,
    AMOUNT_RANGE_FROM, AMOUNT_RANGE_TO in *.
  destruct (get_record_in_range (branches db) (branch_id x) ltac:(lia)) as (b & Gb & Nb).
  destruct (get_record_in_range (tellers db) (teller_id x) ltac:(lia)) as (t & Gt & Nt).
  destruct (get_record_in_range (accounts db) (account_id x) ltac:(lia)) as (a & Ga & Na).
  destruct (get_record_in_range (histories db) (history_id x) ltac:(lia)) as (h & Gh & Nh).
  pose proof (sum_by_bounds_entry _ _ Pb _ _ Nb) as Bb.
  pose proof (sum_by_bounds_entry _ _ Pt _ _ Nt) as Bt.
  pose proof (sum_by_bounds_entry _ _ Pa _ _ Na) as Ba.
  unfold branch_sum, teller_sum, account_sum, history_sum in *.
  assert (P63 : 2 ^ 63 = 9223372036854775808) by reflexivity.
  exists b, t, a, h. split_and; try assumption.
  unfold try_transaction.
  rewrite Gb, Gt, Ga, Gh.
  rewrite !overwrite_record_in_range by lia.
  rewrite !wrap_int64_small by lia.
  reflexivity.
Qed.

(** One share of a table in the amounts of the history records, after a
    record of the table and a history record are overwritten. *)
Lemma share_after_store {A} (key : HistoryData -> Z) (storage : list A)
    (hs : list HistoryData) (balance : A -> Z) (base : Z)
    (k : nat) (old new : A) (j : nat) (h0 h1 : HistoryData) (amount : Z) :
  let share i h := if key h =? i then amount_ h else 0 in
  (forall i data, nth_error storage i = Some data ->
     balance data = base + sum_by (share (Z.of_nat i)) hs) ->
  nth_error storage k = Some old ->
  nth_error hs j = Some h0 -> amount_ h0 = 0 ->
  key h1 = Z.of_nat k -> amount_ h1 = amount ->
  balance new = balance old + amount ->
  forall i data, nth_error (array_store storage k new) i = Some data ->
    balance data = base + sum_by (share (Z.of_nat i)) (array_store hs j h1).
Proof.
  intros share Hs Nk Nj Z0 K1 A1 Bn i data N.
  rewrite (sum_by_array_store _ _ _ _ _ Nj).
  assert (S0 : share (Z.of_nat i) h0 = 0).
  { unfold share. rewrite Z0. destruct (_ =? _); reflexivity. }
  rewrite S0. unfold share at 2. rewrite K1, A1.
  destruct (Nat.eq_dec k i) as [<- | Hne].
  - rewrite nth_error_array_store_eq in N by (apply nth_error_Some; congruence).
    injection N as <-. rewrite Z.eqb_refl, Bn, (Hs _ _ Nk). lia.
  - rewrite (nth_error_array_store_ne _ _ _ _ Hne) in N.
    destruct (Z.eqb_spec (Z.of_nat k) (Z.of_nat i)) as [E | _]; [lia |].
    rewrite (Hs _ _ N). lia.
Qed.

Lemma field_after_store {A} (storage : list A) (field : A -> Z) (expected : nat -> Z)
    (k : nat) (old new : A) :
  (forall i data, nth_error storage i = Some data -> field data = expected i) ->
  nth_error storage k = Some old -> field new = field old ->
  forall i data, nth_error (array_store storage k new) i = Some data ->
    field data = expected i.
Proof.
  intros Hs Nk Fn i data N.
  destruct (Nat.eq_dec k i) as [<- | Hne].
  - rewrite nth_error_array_store_eq in N by (apply nth_error_Some; congruence).
    injection N as <-. rewrite Fn. exact (Hs _ _ Nk).
  - rewrite (nth_error_array_store_ne _ _ _ _ Hne) in N. exact (Hs _ _ N).
Qed.

Lemma xct_history_expectations x :
  valid_xct x -> consistent_xct x ->
  history_expectations {| account_id_ := account_id x; teller_id_ := teller_id x;
                          branch_id_ := branch_id x; amount_ := amount x |} = true.
Proof.
  intros (Vb & Vt & Va & Vh & Vm) (Ct & Cb).
  unfold history_expectations. cbn [account_id_ teller_id_ branch_id_ amount_].
  assert (E : branch_id x = teller_id x / TELLERS).
  { rewrite Cb, Ct. unfold ACCOUNTS_PER_TELLER, ACCOUNTS, TELLERS.
    change (4 / 2) with 2. rewrite Z.div_div by lia. reflexivity. }
  rewrite <- E, <- Cb, <- Ct, !Z.eqb_refl.
  repeat (apply andb_true_intro; split); try reflexivity;
    first [apply Z.leb_le | apply Z.ltb_lt]; lia.
Qed.

(** One committed transaction keeps the books. *)
Lemma try_transaction_ledger db used total x :
  tpcb_invariant db used total -> ledger db used ->
  valid_xct x -> consistent_xct x ->
  ~ In (history_id x) used -> (List.length used < 400)%nat ->
  exists db', try_transaction db x = Some db' /\ ledger db' (history_id x :: used).
Proof.
  intros Hi (Lb & Lt & La & Lh) Hv Hc Hnew Hlen.
  destruct (try_transaction_result db used total x Hi Hv Hlen)
    as (b & t & a & h & Nb & Nt & Na & Nh & T).
  eexists. split; [exact T |].
  pose proof Hv as (Vb & Vt & Va & Vh & Vm).
  assert (Z0 : amount_ h = 0).
  { apply (Lh _ _ Nh). rewrite Z2Nat.id by lia. exact Hnew. }
  unfold ledger. cbn [branches tellers accounts histories]. split_and.
  - apply (share_after_store branch_id_ (branches db) (histories db) branch_balance_
             _ _ b _ _ h _ (amount x)); auto; cbn; lia.
  - intros i data N. split.
    + revert i data N.
      apply (field_after_store (tellers db) teller_branch_id_
               (fun i => Z.of_nat i / TELLERS) _ t); auto.
      intros i data N. apply (Lt _ _ N).
    + revert i data N.
      apply (share_after_store teller_id_ (tellers db) (histories db) teller_balance_
               _ _ t _ _ h _ (amount x)); auto; try (cbn; lia).
      intros i data N. apply (Lt _ _ N).
  - intros i data N. split.
    + revert i data N.
      apply (field_after_store (accounts db) account_branch_id_
               (fun i => Z.of_nat i / ACCOUNTS) _ a); auto.
      intros i data N. apply (La _ _ N).
    + revert i data N.
      apply (share_after_store account_id_ (accounts db) (histories db) account_balance_
               _ _ a _ _ h _ (amount x)); auto; try (cbn; lia).
      intros i data N. apply (La _ _ N).
  - intros i data N.
    destruct (Nat.eq_dec (Z.to_nat (history_id x)) i) as [<- | Hne].
    + rewrite nth_error_array_store_eq in N by (apply nth_error_Some; congruence).
      injection N as <-. split.
      * intros _. split; [apply xct_history_expectations; assumption |].
        cbn [branch_id_ teller_id_ account_id_]. lia.
      * intros Hn. exfalso. apply Hn. left. rewrite Z2Nat.id by lia. reflexivity.
    + rewrite (nth_error_array_store_ne _ _ _ _ Hne) in N.
      destruct (Lh _ _ N) as [Hu Hz]. split.
      * intros [E | Hin]; [exfalso; apply Hne; rewrite E; apply Nat2Z.id | exact (Hu Hin)].
      * intros Hn. apply Hz. intros Hin. apply Hn. right. exact Hin.
Qed.

(** A serial run of transactions on distinct history records keeps the
    books, and has used the history records of its transactions. *)
Lemma run_xcts_ledger xs : forall db used total,
  tpcb_invariant db used total -> ledger db used ->
  Forall valid_xct xs -> Forall consistent_xct xs ->
  NoDup (map history_id xs) ->
  (forall x, In x xs -> ~ In (history_id x) used) ->
  (List.length used + List.length xs <= 400)%nat ->
  exists db' used',
    run_xcts xs db = Some db' /\ ledger db' used' /\
    (forall h, In h used' <-> In h used \/ In h (map history_id xs)).
Proof.
  induction xs as [| x xs IH]; intros db used total Hi Hl Hv Hc Hn Hu Hlen.
  - exists db, used. split_and; [reflexivity | exact Hl |]. intros h. cbn. tauto.
  - inversion Hv as [| ? ? Hx Hv']; subst. inversion Hc as [| ? ? Cx Hc']; subst.
    cbn [map] in Hn. inversion Hn as [| ? ? Hnx Hn']; subst.
    cbn [List.length] in Hlen.
    pose proof (Hu x (or_introl eq_refl)) as Hnew.
    destruct (try_transaction_invariant db used total x Hi Hx Hnew ltac:(lia))
      as (db1 & T & Hi1).
    destruct (try_transaction_ledger db used total x Hi Hl Hx Cx Hnew ltac:(lia))
      as (db1' & T' & Hl1).
    rewrite T in T'. injection T' as <-.
    destruct (IH db1 (history_id x :: used) (total + amount x) Hi1 Hl1 Hv' Hc' Hn')
      as (db' & used' & R & Hl' & Hused).
    + intros y Hy [E | Hin].
      * apply Hnx. rewrite E. apply in_map. exact Hy.
      * exact (Hu y (or_intror Hy) Hin).
    + cbn [List.length]. lia.
    + exists db', used'. rewrite run_xcts_step, T. split_and; [exact R | exact Hl' |].
      intros h. rewrite Hused. cbn [In map]. tauto.
Qed.

Lemma nth_error_map_seq {A} (f : nat -> A) n i a :
  nth_error (map f (seq 0 n)) i = Some a -> (i < n)%nat /\ a = f i.
Proof.
  intros H.
  assert (L : (i < n)%nat).
  { assert (N : nth_error (map f (seq 0 n)) i <> None) by congruence.
    apply nth_error_Some in N. rewrite length_map, length_seq in N. exact N. }
  split; [exact L |].
  rewrite nth_error_map, nth_error_seq in H.
  destruct (Nat.ltb_spec i n); [| lia]. cbn in H. congruence.
Qed.

Lemma sum_by_zero {A} (f : A -> Z) l : Forall (fun a => f a = 0) l -> sum_by f l = 0.
Proof. induction 1 as [| a l Ha Hl IH]; cbn; [reflexivity | unfold sum_by in IH; cbn in *; lia]. Qed.

Lemma create_tables_ledger : ledger create_tables [].
Proof.
  assert (Z0 : forall share : Z -> HistoryData -> Z,
             (forall i h, amount_ h = 0 -> share i h = 0) ->
             forall i, sum_by (share i) (histories create_tables) = 0).
  { intros share Hs i. apply sum_by_zero. apply Forall_forall. intros h Hin.
    apply Hs. unfold create_tables in Hin. cbn [histories] in Hin.
    apply in_map_iff in Hin. destruct Hin as (k & <- & _). reflexivity. }
  unfold ledger. split_and.
  - intros i data N. rewrite (Z0 branch_share).
    + apply nth_error_map_seq in N. destruct N as [_ ->]. cbn. lia.
    + intros k h E. unfold branch_share. rewrite E. destruct (_ =? _); reflexivity.
  - intros i data N. rewrite (Z0 teller_share).
    + apply nth_error_map_seq in N. destruct N as [_ ->]. cbn [teller_branch_id_ teller_balance_].
      split; [reflexivity | lia].
    + intros k h E. unfold teller_share. rewrite E. destruct (_ =? _); reflexivity.
  - intros i data N. rewrite (Z0 account_share).
    + apply nth_error_map_seq in N. destruct N as [_ ->].
      cbn [account_branch_id_ account_balance_]. split; [reflexivity | lia].
    + intros k h E. unfold account_share. rewrite E. destruct (_ =? _); reflexivity.
  - intros i data N. split; [intros [] |]. intros _.
    apply nth_error_map_seq in N. destruct N as [_ ->]. reflexivity.
Qed.

Lemma sum_by_share_bounds (share : Z -> HistoryData -> Z) (key : HistoryData -> Z) i l :
  (forall h, share i h = if key h =? i then amount_ h else 0) ->
  Forall (fun h => 0 <= amount_ h <= 20) l ->
  0 <= sum_by (share i) l <= 20 * Z.of_nat (List.length l).
Proof.
  intros Hs. induction 1 as [| h l Hh Hl IH]; [cbn; lia |].
  change (sum_by (share i) (h :: l)) with (share i h + sum_by (share i) l).
  cbn [List.length]. rewrite Hs. destruct (_ =? _); lia.
Qed.

(** [expected[key] += amount] for one more history record. *)
Lemma add_expected_share (share : Z -> HistoryData -> Z) (key : HistoryData -> Z)
    base size processed expected h :
  (forall i h, share i h = if key h =? i then amount_ h else 0) ->
  expected_after share base size processed expected ->
  0 <= base <= 400 ->
  Forall (fun h => 0 <= amount_ h <= 20) processed -> (List.length processed <= 400)%nat ->
  0 <= amount_ h <= 20 -> 0 <= key h < size ->
  exists expected',
    add_expected expected (key h) (amount_ h) = Some expected' /\
    expected_after share base size (processed ++ [h]) expected'.
Proof.
  intros Hs [Hsize He] Hb Hp Hl Ha Hk.
  unfold add_expected.
  destruct (Z.leb_spec 0 (key h)); [| lia].
  destruct (Z.ltb_spec (key h) (Z.of_nat (List.length expected))); [| lia].
  cbn [andb].
  destruct (nth_error expected (Z.to_nat (key h))) as [old |] eqn:N;
    [| apply nth_error_None in N; lia].
  eexists. split; [reflexivity |].
  split; [rewrite array_store_length; exact Hsize |].
  intros i e Ni. rewrite sum_by_app.
  change (sum_by (share (Z.of_nat i)) [h]) with (share (Z.of_nat i) h + 0).
  rewrite Hs.
  pose proof (He _ _ N) as Eo.
  pose proof (sum_by_share_bounds share key (Z.of_nat (Z.to_nat (key h))) processed
                (Hs _) Hp) as B.
  assert (P63 : 2 ^ 63 = 9223372036854775808) by reflexivity.
  destruct (Nat.eq_dec (Z.to_nat (key h)) i) as [<- | Hne].
  - rewrite nth_error_array_store_eq in Ni by (apply nth_error_Some; congruence).
    injection Ni as <-. rewrite wrap_int64_small by lia.
    rewrite Z2Nat.id by lia. rewrite Z.eqb_refl.
    rewrite Z2Nat.id in Eo by lia. lia.
  - rewrite (nth_error_array_store_ne _ _ _ _ Hne) in Ni.
    destruct (Z.eqb_spec (key h) (Z.of_nat i)) as [E | _]; [lia |].
    rewrite (He _ _ Ni). lia.
Qed.

Lemma firstn_snoc {A} (l : list A) : forall k a,
  nth_error l k = Some a -> firstn (S k) l = firstn k l ++ [a].
Proof.
  induction l as [| b l IH]; intros [| k] a H; cbn in H; try discriminate.
  - injection H as <-. reflexivity.
  - cbn [firstn app]. f_equal. apply IH. exact H.
Qed.

(** The amounts of all history records are 0 or in the range of the
    amounts. *)
Lemma ledger_amounts db used :
  ledger db used -> Forall (fun h => 0 <= amount_ h <= 20) (histories db).
Proof.
  intros (_ & _ & _ & Lh). apply Forall_forall. intros h Hin.
  apply In_nth_error in Hin. destruct Hin as [i N].
  destruct (Lh _ _ N) as [Hu Hz].
  destruct (in_dec Z.eq_dec (Z.of_nat i) used) as [Hin | Hn].
  - destruct (Hu Hin) as [E _]. unfold history_expectations in E.
    repeat (apply andb_prop in E; destruct E as [E ?]).
    unfold AMOUNT_RANGE_FROM, AMOUNT_RANGE_TO in *. lia.
  - rewrite (Hz Hn). lia.
Qed.

(** One turn of the nested loops, on a history record that a transaction
    wrote. *)
Lemma verify_history_step db used k v :
  ledger db used -> (List.length (histories db) <= 400)%nat ->
  In (Z.of_nat k) used -> (k < List.length (histories db))%nat ->
  verified db k v ->
  exists v', verify_history db v (Z.of_nat k) = Some v' /\ verified db (S k) v'.
Proof.
  intros Hl Hlen Hin Hk (Hp & Eb & Et & Ea).
  pose proof (ledger_amounts db used Hl) as Hamounts.
  destruct Hl as (_ & _ & _ & Lh).
  destruct (get_record_in_range (histories db) (Z.of_nat k) ltac:(lia)) as (h & G & N).
  rewrite Nat2Z.id in N.
  destruct (Lh _ _ N) as [Hu _]. destruct (Hu Hin) as (E & Pb & Pt & Pa).
  pose proof E as E'. unfold history_expectations in E'.
  repeat (apply andb_prop in E'; destruct E' as [E' ?]).
  assert (Hfirst : Forall (fun h => 0 <= amount_ h <= 20) (firstn k (histories db))).
  { rewrite <- (firstn_skipn k (histories db)) in Hamounts.
    apply Forall_app in Hamounts. exact (proj1 Hamounts). }
  assert (Lfirst : (List.length (firstn k (histories db)) <= 400)%nat).
  { rewrite length_firstn. lia. }
  assert (Ha : 0 <= amount_ h <= 20).
  { unfold AMOUNT_RANGE_FROM, AMOUNT_RANGE_TO in *. lia. }
  assert (Hb : 0 <= branch_id_ h < BRANCHES) by (unfold BRANCHES in *; lia).
  assert (Ht : 0 <= teller_id_ h < BRANCHES * TELLERS)
    by (unfold BRANCHES, TELLERS in *; lia).
  assert (Hc : 0 <= account_id_ h < BRANCHES * ACCOUNTS)
    by (unfold BRANCHES, ACCOUNTS in *; lia).
  destruct (add_expected_share branch_share branch_id_
              (INITIAL_ACCOUNT_BALANCE * ACCOUNTS) BRANCHES
              (firstn k (histories db)) (expected_branch v) h (fun _ _ => eq_refl)
              Eb ltac:(split; by_computation) Hfirst Lfirst Ha Hb)
    as (eb & Ab & Eb').
  destruct (add_expected_share teller_share teller_id_
              (INITIAL_ACCOUNT_BALANCE * ACCOUNTS_PER_TELLER) (BRANCHES * TELLERS)
              (firstn k (histories db)) (expected_teller v) h (fun _ _ => eq_refl)
              Et ltac:(split; by_computation) Hfirst Lfirst Ha Ht)
    as (et & At & Et').
  destruct (add_expected_share account_share account_id_
              INITIAL_ACCOUNT_BALANCE (BRANCHES * ACCOUNTS)
              (firstn k (histories db)) (expected_account v) h (fun _ _ => eq_refl)
              Ea ltac:(split; by_computation) Hfirst Lfirst Ha Hc)
    as (ea & Aa & Ea').
  unfold verify_history. rewrite G, Ab, At, Aa.
  eexists. split; [reflexivity |].
  unfold verified. cbn [passed expected_branch expected_teller expected_account].
  rewrite (firstn_snoc _ _ _ N), Hp, E. auto.
Qed.

Lemma for_each_cons {State Item} (body : State -> Item -> option State) item items state :
  for_each body (item :: items) state =
  match body state item with
  | Some state' => for_each body items state'
  | None => None
  end.
Proof.
  unfold for_each. cbn [fold_left].
  destruct (body state item) as [state' |]; [reflexivity |].
  induction items as [| i items IH]; [reflexivity | exact IH].
Qed.

(** The nested loops over the history records [start], ..., [start + len - 1],
    each written by a transaction. *)
Lemma verify_histories db used :
  ledger db used -> (List.length (histories db) <= 400)%nat ->
  forall len start v,
  (start + len <= List.length (histories db))%nat ->
  (forall i, (start <= i < start + len)%nat -> In (Z.of_nat i) used) ->
  verified db start v ->
  exists v', for_each (verify_history db) (map Z.of_nat (seq start len)) v = Some v' /\
             verified db (start + len) v'.
Proof.
  intros Hl Hlen. induction len as [| len IH]; intros start v Hs Hu Hv.
  - exists v. rewrite Nat.add_0_r. split; [reflexivity | exact Hv].
  - cbn [seq map]. rewrite for_each_cons.
    destruct (verify_history_step db used start v Hl Hlen (Hu start ltac:(lia)) ltac:(lia) Hv)
      as (v1 & E & Hv1).
    rewrite E.
    destruct (IH (S start) v1 ltac:(lia)) as (v' & F & Hv'); [| exact Hv1 |].
    + intros i Hi. apply Hu. lia.
    + exists v'. split; [exact F |]. rewrite Nat.add_succ_r. exact Hv'.
Qed.

Lemma initial_verification_verified db : verified db 0 initial_verification.
Proof.
  assert (R : forall share base n,
             expected_after share base (Z.of_nat n) [] (repeat base n)).
  { intros share base n. split; [rewrite repeat_length; reflexivity |].
    intros i e N. apply nth_error_In, repeat_spec in N. cbn. lia. }
  unfold verified, initial_verification.
  cbn [passed expected_branch expected_teller expected_account firstn].
  split_and; [reflexivity | apply (R branch_share) | apply (R teller_share)
              | apply (R account_share)].
Qed.

Lemma sum_by_firstn {A} (f : A -> Z) (l : list A) : forall n,
  (forall i a, nth_error l i = Some a -> (n <= i)%nat -> f a = 0) ->
  sum_by f (firstn n l) = sum_by f l.
Proof.
  induction l as [| b l IH]; intros n H; [destruct n; reflexivity |].
  destruct n as [| n].
  - cbn [firstn]. symmetry. apply sum_by_zero. apply Forall_forall. intros a Hin.
    apply In_nth_error in Hin. destruct Hin as [i N]. apply (H i a N). lia.
  - cbn [firstn].
    change (sum_by f (b :: firstn n l)) with (f b + sum_by f (firstn n l)).
    change (sum_by f (b :: l)) with (f b + sum_by f l).
    rewrite IH; [reflexivity |]. intros i a N Hi. apply (H (S i) a N). lia.
Qed.

Lemma for_each_true {Item} (body : bool -> Item -> option bool) items :
  (forall item, In item items -> body true item = Some true) ->
  for_each body items true = Some true.
Proof.
  induction items as [| item items IH]; intros H; [reflexivity |].
  rewrite for_each_cons, (H item (or_introl eq_refl)).
  apply IH. intros i Hi. apply H. right. exact Hi.
Qed.

(** The entry of a local array after the loops over the history records: the
    records that were not visited have amount 0. *)
Lemma expected_entry share base size n hs expected i :
  expected_after share base size (firstn n hs) expected ->
  (forall k h, nth_error hs k = Some h -> (n <= k)%nat -> share (Z.of_nat i) h = 0) ->
  0 <= Z.of_nat i < size ->
  nth i expected 0 = base + sum_by (share (Z.of_nat i)) hs.
Proof.
  intros [Hsize He] Hz Hi.
  destruct (nth_error expected i) as [e |] eqn:N; [| apply nth_error_None in N; lia].
  rewrite (nth_error_nth _ _ _ N), (He _ _ N), sum_by_firstn; [reflexivity | exact Hz].
Qed.

Lemma verified_history_ids_seq n :
  (n <= 4)%nat ->
  verified_history_ids (Z.of_nat n) = map Z.of_nat (seq 0 (100 * n)).
Proof.
  intros H. destruct n as [| [| [| [| [| n]]]]]; try lia; vm_compute; reflexivity.
Qed.

(** The verification passes on a database whose books balance, the history
    records of the first [n] clients being the ones written. *)
Lemma verify_ledger db used used' total n :
  tpcb_invariant db used' total -> ledger db used -> (n <= 4)%nat ->
  (forall h, In h used <-> 0 <= h < 100 * Z.of_nat n) ->
  verify (Z.of_nat n) db = Some true.
Proof.
  intros (Lb & Lt & La & Lh & _) Hl Hn Hused.
  unfold BRANCHES, TELLERS, ACCOUNTS, HISTORIES, XCTS_PER_THREAD, MAX_TEST_THREADS in *.
  unfold verify. rewrite (verified_history_ids_seq n Hn).
  destruct (verify_histories db used Hl ltac:(lia) (100 * n)%nat 0%nat initial_verification)
    as (v & F & Hp & Eb & Et & Ea).
  - lia.
  - intros i Hi. apply Hused. lia.
  - apply initial_verification_verified.
  - rewrite F. cbn [Nat.add] in *.
    assert (Hz : forall (share : Z -> HistoryData -> Z) i,
               (forall h, amount_ h = 0 -> share i h = 0) ->
               forall k h, nth_error (histories db) k = Some h ->
                           (100 * n <= k)%nat -> share i h = 0).
    { intros share i Hs k h N Hk. apply Hs.
      destruct Hl as (_ & _ & _ & L4). apply (L4 _ _ N).
      rewrite Hused. lia. }
    destruct Hl as (L1 & L2 & L3 & _).
    rewrite Hp.
    unfold BRANCHES, TELLERS, ACCOUNTS in Eb, Et, Ea |- *.
    change (Z.to_nat 8) with 8%nat. change (Z.to_nat (8 * 2)) with 16%nat.
    change (Z.to_nat (8 * 4)) with 32%nat.
    rewrite (for_each_true (verify_branch db v)).
    2:{ intros i Hi. apply in_seq in Hi. unfold verify_branch.
        destruct (get_record_in_range (branches db) (Z.of_nat i) ltac:(lia)) as (d & G & N).
        rewrite Nat2Z.id in N. rewrite G.
        rewrite (expected_entry _ _ _ _ _ _ i Eb); [| | lia].
        - rewrite (L1 _ _ N), Z.eqb_refl. reflexivity.
        - apply Hz. intros h E. unfold branch_share. rewrite E.
          destruct (_ =? _); reflexivity. }
    rewrite (for_each_true (verify_teller db v)).
    2:{ intros i Hi. apply in_seq in Hi. unfold verify_teller.
        destruct (get_record_in_range (tellers db) (Z.of_nat i) ltac:(lia)) as (d & G & N).
        rewrite Nat2Z.id in N. rewrite G.
        rewrite (expected_entry _ _ _ _ _ _ i Et); [| | lia].
        - destruct (L2 _ _ N) as [-> ->]. rewrite !Z.eqb_refl. reflexivity.
        - apply Hz. intros h E. unfold teller_share. rewrite E.
          destruct (_ =? _); reflexivity. }
    apply for_each_true.
    intros i Hi. apply in_seq in Hi. unfold verify_account.
    destruct (get_record_in_range (accounts db) (Z.of_nat i) ltac:(lia)) as (d & G & N).
    rewrite Nat2Z.id in N. rewrite G.
    rewrite (expected_entry _ _ _ _ _ _ i Ea); [| | lia].
    + destruct (L3 _ _ N) as [-> ->]. rewrite !Z.eqb_refl. reflexivity.
    + apply Hz. intros h E. unfold account_share. rewrite E.
      destruct (_ =? _); reflexivity.
Qed.

Lemma client_xcts_consistent client_id contended draws :
  Forall consistent_xct (client_xcts client_id contended draws).
Proof.
  apply Forall_forall. intros x Hx. unfold client_xcts in Hx.
  apply in_map_iff in Hx. destruct Hx as (id & <- & _). split; reflexivity.
Qed.

Lemma in_multi_thread_xcts contended draws x :
  In x (multi_thread_xcts contended draws) ->
  exists client d, (client < List.length draws)%nat /\ In d draws /\
                   In x (client_xcts (Z.of_nat client) contended d).
Proof.
  unfold multi_thread_xcts. intros H. apply in_concat in H. destruct H as (xs & Hxs & Hx).
  apply in_map_iff in Hxs. destruct Hxs as ([client d] & <- & Hin).
  pose proof (in_combine_l _ _ _ _ Hin) as Hc. apply in_seq in Hc.
  exists client, d. split_and; [lia | exact (in_combine_r _ _ _ _ Hin) | exact Hx].
Qed.

Lemma multi_thread_xcts_history_ids contended draws :
  (List.length draws <= 4)%nat ->
  Forall (fun d => List.length d = 100%nat /\ Forall valid_draw d) draws ->
  map history_id (multi_thread_xcts contended draws) =
  map Z.of_nat (seq 0 (100 * List.length draws)).
Proof.
  intros Hn Hd. unfold multi_thread_xcts.
  destruct draws as [| d0 [| d1 [| d2 [| d3 [| d4 draws]]]]]; cbn [List.length] in Hn; try lia;
    repeat match goal with
           | H : Forall _ (_ :: _) |- _ => inversion H; clear H; subst
           end;
    repeat match goal with H : _ /\ _ |- _ => destruct H end;
    cbn [List.length seq combine map List.concat fst snd];
    rewrite ?map_app, ?client_xcts_history_ids
      by (cbn [Z.of_nat]; unfold MAX_TEST_THREADS, XCTS_PER_THREAD; lia);
    repeat match goal with H : List.length _ = 100%nat |- _ => rewrite H; clear H end;
    vm_compute; reflexivity.
Qed.

(** The test passes on every serializable run.  For [multi_thread_test] with
    up to four clients, each committing 100 transactions drawn as
    [RunTpcbTask::run] draws them, contended or not, and for every serial
    order of the committed transactions: the run goes through and
    [VerifyTpcbTask::run], on the tables [CreateTpcbTablesTask::run] made and
    the transactions changed, has no storage error, never leaves the local
    arrays and finds every [EXPECT_*] to hold. *)
Theorem verify_passes contended draws schedule :
  (List.length draws <= 4)%nat ->
  Forall (fun d => List.length d = 100%nat /\ Forall valid_draw d) draws ->
  Permutation schedule (multi_thread_xcts contended draws) ->
  exists db, run_xcts schedule create_tables = Some db /\
             verify (Z.of_nat (List.length draws)) db = Some true.
Proof.
  intros Hn Hd P.
  assert (Hv : Forall valid_xct (multi_thread_xcts contended draws)).
  { apply Forall_forall. intros x Hx.
    destruct (in_multi_thread_xcts _ _ _ Hx) as (client & d & Hc & Hin & Hxc).
    destruct (proj1 (Forall_forall _ _) Hd d Hin) as [Ld Vd].
    assert (V : Forall valid_xct (client_xcts (Z.of_nat client) contended d)).
    { apply client_xcts_valid; auto; unfold MAX_TEST_THREADS, XCTS_PER_THREAD; lia. }
    exact (proj1 (Forall_forall _ _) V x Hxc). }
  assert (Hc : Forall consistent_xct (multi_thread_xcts contended draws)).
  { apply Forall_forall. intros x Hx.
    destruct (in_multi_thread_xcts _ _ _ Hx) as (client & d & _ & _ & Hxc).
    exact (proj1 (Forall_forall _ _)
             (client_xcts_consistent (Z.of_nat client) contended d) x Hxc). }
  pose proof (multi_thread_xcts_history_ids contended draws Hn Hd) as Hids.
  assert (Hnd : NoDup (map history_id (multi_thread_xcts contended draws))).
  { rewrite Hids. apply Finite.Injective_map_NoDup; [exact Nat2Z.inj | apply seq_NoDup]. }
  assert (Hlen : List.length (multi_thread_xcts contended draws) =
                 (100 * List.length draws)%nat).
  { rewrite <- (length_map history_id), Hids, length_map, length_seq. reflexivity. }
  apply Permutation_sym in P.
  pose proof (Permutation_Forall P Hv) as Hv'.
  pose proof (Permutation_NoDup (Permutation_map history_id P) Hnd) as Hnd'.
  assert (Hl' : (List.length (@nil Z) + List.length schedule <= 400)%nat).
  { rewrite <- (Permutation_length P), Hlen. cbn. lia. }
  destruct (run_xcts_invariant schedule create_tables [] 0 create_tables_invariant
              Hv' Hnd' ltac:(intros x _ []) Hl') as (db & used0 & R & Hi).
  destruct (run_xcts_ledger schedule create_tables [] 0 create_tables_invariant
              create_tables_ledger Hv' (Permutation_Forall P Hc) Hnd'
              ltac:(intros x _ []) Hl') as (db' & used & R' & Hl & Hused).
  rewrite R in R'. injection R' as <-.
  exists db. split; [exact R |].
  apply (verify_ledger db used used0 _ _ Hi Hl Hn).
  intros h. rewrite Hused. split.
  - intros [[] | Hin].
    apply (Permutation_in _ (Permutation_sym (Permutation_map history_id P))) in Hin.
    rewrite Hids in Hin. apply in_map_iff in Hin. destruct Hin as (i & <- & Hi').
    apply in_seq in Hi'. lia.
  - intros Hh. right.
    apply (Permutation_in _ (Permutation_map history_id P)).
    rewrite Hids. apply in_map_iff. exists (Z.to_nat h). split; [lia |].
    apply in_seq. lia.
Qed.

Lemma verify_passes_witness :
  exists db,
    run_xcts (multi_thread_xcts false [example_draws 0; example_draws 1]) create_tables =
      Some db /\
    verify 2 db = Some true.
Proof.
  apply (verify_passes false [example_draws 0; example_draws 1]
           (multi_thread_xcts false [example_draws 0; example_draws 1])).
  - cbn. lia.
  - repeat first [apply Forall_nil | apply Forall_cons];
      (split; [reflexivity | apply example_draws_valid; lia]).
  - apply Permutation_refl.
Defined.

End TpcbVerify.

(** ** What [VerifyTpcbTask::run] establishes *)

Section TpcbVerifySound.

Import Tpcb.

Lemma add_expected_Some expected index amount expected' :
  add_expected expected index amount = Some expected' ->
  0 <= index < Z.of_nat (List.length expected).
Proof.
  unfold add_expected.
  destruct (Z.leb_spec 0 index); [| discriminate].
  destruct (Z.ltb_spec index (Z.of_nat (List.length expected))); [| discriminate].
  lia.
Qed.

(** A check that failed stays failed. *)
Lemma verify_history_passed db v id v' :
  verify_history db v id = Some v' -> passed v' = true -> passed v = true.
Proof.
  unfold verify_history. intros H Hp.
  destruct (get_record (histories db) id); [| discriminate].
  destruct (add_expected (expected_branch v) _ _); [| discriminate].
  destruct (add_expected (expected_teller v) _ _); [| discriminate].
  destruct (add_expected (expected_account v) _ _); [| discriminate].
  injection H as <-. cbn [passed] in Hp. apply andb_prop in Hp. exact (proj1 Hp).
Qed.

Lemma verify_histories_passed db ids : forall v v',
  for_each (verify_history db) ids v = Some v' -> passed v' = true -> passed v = true.
Proof.
  induction ids as [| id ids IH]; intros v v' H Hp.
  - injection H as <-. exact Hp.
  - rewrite for_each_cons in H.
    destruct (verify_history db v id) as [v1 |] eqn:E; [| discriminate].
    apply (verify_history_passed db v id v1 E). exact (IH v1 v' H Hp).
Qed.

Lemma history_expectations_amount h :
  history_expectations h = true -> 0 <= amount_ h <= 20.
Proof.
  unfold history_expectations, AMOUNT_RANGE_FROM, AMOUNT_RANGE_TO. intros E.
  do 6 (apply andb_prop in E; destruct E as [E _]).
  apply andb_prop in E. destruct E as [E1 E2].
  apply Z.leb_le in E1, E2. lia.
Qed.

(** One turn of the nested loops that passes its checks. *)
Lemma verify_history_sound db k v v' :
  (k < 400)%nat ->
  verified db k v ->
  Forall (fun h => history_expectations h = true) (firstn k (histories db)) ->
  verify_history db v (Z.of_nat k) = Some v' -> passed v' = true ->
  verified db (S k) v' /\
  Forall (fun h => history_expectations h = true) (firstn (S k) (histories db)).
Proof.
  intros Hk (Hp & Eb & Et & Ea) Hf H Hp'.
  unfold verify_history in H.
  destruct (get_record (histories db) (Z.of_nat k)) as [h |] eqn:G; [| discriminate].
  apply get_record_Some in G. destruct G as [R N]. rewrite Nat2Z.id in N.
  destruct (add_expected (expected_branch v) _ _) as [eb |] eqn:Ab; [| discriminate].
  destruct (add_expected (expected_teller v) _ _) as [et |] eqn:At; [| discriminate].
  destruct (add_expected (expected_account v) _ _) as [ea |] eqn:Aa; [| discriminate].
  injection H as <-. cbn [passed] in Hp'. rewrite Hp in Hp'. cbn [andb] in Hp'.
  pose proof (history_expectations_amount h Hp') as Ha.
  assert (Hamounts : Forall (fun h => 0 <= amount_ h <= 20) (firstn k (histories db))).
  { revert Hf. apply Forall_impl. exact history_expectations_amount. }
  assert (Lfirst : (List.length (firstn k (histories db)) <= 400)%nat).
  { rewrite length_firstn. lia. }
  pose proof (add_expected_Some _ _ _ _ Ab) as Rb.
  pose proof (add_expected_Some _ _ _ _ At) as Rt.
  pose proof (add_expected_Some _ _ _ _ Aa) as Ra.
  rewrite (proj1 Eb) in Rb. rewrite (proj1 Et) in Rt. rewrite (proj1 Ea) in Ra.
  destruct (add_expected_share branch_share branch_id_
              (INITIAL_ACCOUNT_BALANCE * ACCOUNTS) BRANCHES
              (firstn k (histories db)) (expected_branch v) h (fun _ _ => eq_refl)
              Eb ltac:(split; by_computation) Hamounts Lfirst Ha Rb)
    as (eb' & Ab' & Eb').
  destruct (add_expected_share teller_share teller_id_
              (INITIAL_ACCOUNT_BALANCE * ACCOUNTS_PER_TELLER) (BRANCHES * TELLERS)
              (firstn k (histories db)) (expected_teller v) h (fun _ _ => eq_refl)
              Et ltac:(split; by_computation) Hamounts Lfirst Ha Rt)
    as (et' & At' & Et').
  destruct (add_expected_share account_share account_id_
              INITIAL_ACCOUNT_BALANCE (BRANCHES * ACCOUNTS)
              (firstn k (histories db)) (expected_account v) h (fun _ _ => eq_refl)
              Ea ltac:(split; by_computation) Hamounts Lfirst Ha Ra)
    as (ea' & Aa' & Ea').
  rewrite Ab in Ab'. rewrite At in At'. rewrite Aa in Aa'.
  injection Ab' as <-. injection At' as <-. injection Aa' as <-.
  rewrite (firstn_snoc _ _ _ N).
  split.
  - unfold verified. cbn [passed expected_branch expected_teller expected_account].
    rewrite (firstn_snoc _ _ _ N), Hp, Hp'. auto.
  - apply Forall_app. split; [exact Hf | constructor; [exact Hp' | constructor]].
Qed.

Lemma verify_histories_sound db : forall len start v v',
  (start + len <= 400)%nat ->
  verified db start v ->
  Forall (fun h => history_expectations h = true) (firstn start (histories db)) ->
  for_each (verify_history db) (map Z.of_nat (seq start len)) v = Some v' ->
  passed v' = true ->
  verified db (start + len) v' /\
  Forall (fun h => history_expectations h = true) (firstn (start + len) (histories db)) /\
  (start + len <= List.length (histories db) \/ len = 0)%nat.
Proof.
  induction len as [| len IH]; intros start v v' Hs Hv Hf H Hp.
  - injection H as <-. rewrite Nat.add_0_r. auto.
  - cbn [seq map] in H. rewrite for_each_cons in H.
    destruct (verify_history db v (Z.of_nat start)) as [v1 |] eqn:E; [| discriminate].
    pose proof (verify_histories_passed db _ _ _ H Hp) as Hp1.
    destruct (verify_history_sound db start v v1 ltac:(lia) Hv Hf E Hp1) as [Hv1 Hf1].
    destruct (IH (S start) v1 v' ltac:(lia) Hv1 Hf1 H Hp) as (Hv' & Hf' & Hl).
    rewrite Nat.add_succ_r. split_and; [exact Hv' | exact Hf' |].
    left. destruct Hl as [Hl | ->]; [exact Hl |].
    unfold verify_history in E.
    destruct (get_record (histories db) (Z.of_nat start)) as [h |] eqn:G; [| discriminate].
    apply get_record_Some in G. lia.
Qed.

(** A comparing loop that ends with every check passed has passed each. *)
Lemma for_each_true_inv {Item} (body : bool -> Item -> option bool) items :
  (forall ok item r, body ok item = Some r -> r = true ->
                     ok = true /\ body true item = Some true) ->
  forall ok, for_each body items ok = Some true ->
  ok = true /\ forall item, In item items -> body true item = Some true.
Proof.
  intros Hb. induction items as [| item items IH]; intros ok H.
  - injection H as ->. split; [reflexivity | intros _ []].
  - rewrite for_each_cons in H.
    destruct (body ok item) as [r |] eqn:E; [| discriminate].
    destruct (IH r H) as [-> Hrest].
    destruct (Hb ok item true E eq_refl) as [-> Hi].
    split; [reflexivity |]. intros i [<- | Hin]; [exact Hi | exact (Hrest i Hin)].
Qed.

(** What a passed verification has established.  When
    [VerifyTpcbTask::run] for up to four clients ends with every [EXPECT_*]
    held, on whatever database, then every history record it visited has an
    amount and ids in range and ids that fit each other, every branch, teller
    and account balance is its initial value plus the amounts of the visited
    history records that name it, and the tellers and accounts have the
    branch ids they were created with. *)
Theorem verify_sound n db :
  (n <= 4)%nat ->
  verify (Z.of_nat n) db = Some true ->
  let visited := firstn (100 * n) (histories db) in
  Forall (fun h => history_expectations h = true) visited /\
  (forall i, 0 <= i < BRANCHES ->
     exists data, get_record (branches db) i = Some data /\
       branch_balance_ data =
       INITIAL_ACCOUNT_BALANCE * ACCOUNTS + sum_by (branch_share i) visited) /\
  (forall i, 0 <= i < BRANCHES * TELLERS ->
     exists data, get_record (tellers db) i = Some data /\
       teller_branch_id_ data = i / TELLERS /\
       teller_balance_ data =
       INITIAL_ACCOUNT_BALANCE * ACCOUNTS_PER_TELLER + sum_by (teller_share i) visited) /\
  (forall i, 0 <= i < BRANCHES * ACCOUNTS ->
     exists data, get_record (accounts db) i = Some data /\
       account_branch_id_ data = i / ACCOUNTS /\
       account_balance_ data =
       INITIAL_ACCOUNT_BALANCE + sum_by (account_share i) visited).
Proof.
  intros Hn H visited. unfold verify in H.
  rewrite (verified_history_ids_seq n Hn) in H.
  destruct (for_each (verify_history db) (map Z.of_nat (seq 0 (100 * n))) initial_verification)
    as [v |] eqn:F; [| discriminate].
  destruct (for_each (verify_branch db v) _ (passed v)) as [ok1 |] eqn:Cb; [| discriminate].
  destruct (for_each (verify_teller db v) _ ok1) as [ok2 |] eqn:Ct; [| discriminate].
  apply for_each_true_inv in H.
  2:{ intros ok i r E ->. unfold verify_account in E |- *.
      destruct (get_record (accounts db) (Z.of_nat i)); [| discriminate].
      injection E as E. apply andb_prop in E. destruct E as [E E3].
      apply andb_prop in E. destruct E as [-> E2]. rewrite E2, E3. auto. }
  destruct H as [-> Ha].
  apply for_each_true_inv in Ct.
  2:{ intros ok i r E ->. unfold verify_teller in E |- *.
      destruct (get_record (tellers db) (Z.of_nat i)); [| discriminate].
      injection E as E. apply andb_prop in E. destruct E as [E E3].
      apply andb_prop in E. destruct E as [-> E2]. rewrite E2, E3. auto. }
  destruct Ct as [-> Ht].
  apply for_each_true_inv in Cb.
  2:{ intros ok i r E ->. unfold verify_branch in E |- *.
      destruct (get_record (branches db) (Z.of_nat i)); [| discriminate].
      injection E as E. apply andb_prop in E. destruct E as [-> E2]. rewrite E2. auto. }
  destruct Cb as [Hp Hb].
  destruct (verify_histories_sound db (100 * n) 0 initial_verification v ltac:(lia)
              (initial_verification_verified db) ltac:(constructor) F Hp)
    as ((_ & Eb & Et & Ea) & Hf & _).
  cbn [Nat.add] in *. fold visited in Eb, Et, Ea, Hf.
  unfold BRANCHES, TELLERS, ACCOUNTS in Hb, Ht, Ha |- *.
  change (Z.to_nat 8) with 8%nat in *. change (Z.to_nat (8 * 2)) with 16%nat in *.
  change (Z.to_nat (8 * 4)) with 32%nat in *.
  assert (Entry : forall share base size expected i,
            expected_after share base size visited expected ->
            0 <= i < size ->
            nth (Z.to_nat i) expected 0 = base + sum_by (share i) visited).
  { intros share base size expected i [Hsize He] Hi.
    destruct (nth_error expected (Z.to_nat i)) as [e |] eqn:N;
      [| apply nth_error_None in N; lia].
    rewrite (nth_error_nth _ _ _ N), (He _ _ N), Z2Nat.id by lia. reflexivity. }
  split_and; [exact Hf | | |].
  - intros i Hi. specialize (Hb (Z.to_nat i) ltac:(apply in_seq; lia)).
    unfold verify_branch in Hb. rewrite Z2Nat.id in Hb by lia.
    destruct (get_record (branches db) i) as [data |]; [| discriminate].
    exists data. split; [reflexivity |].
    injection Hb as Hb. apply Z.eqb_eq in Hb.
    rewrite <- Hb. apply (Entry _ _ _ _ _ Eb). unfold BRANCHES. exact Hi.
  - intros i Hi. specialize (Ht (Z.to_nat i) ltac:(apply in_seq; lia)).
    unfold verify_teller in Ht. rewrite Z2Nat.id in Ht by lia.
    destruct (get_record (tellers db) i) as [data |]; [| discriminate].
    exists data. split; [reflexivity |].
    injection Ht as Ht. apply andb_prop in Ht. destruct Ht as [E1 E2].
    apply Z.eqb_eq in E1, E2. split; [symmetry; exact E1 |].
    rewrite <- E2. apply (Entry _ _ _ _ _ Et). unfold BRANCHES, TELLERS. exact Hi.
  - intros i Hi. specialize (Ha (Z.to_nat i) ltac:(apply in_seq; lia)).
    unfold verify_account in Ha. rewrite Z2Nat.id in Ha by lia.
    destruct (get_record (accounts db) i) as [data |]; [| discriminate].
    exists data. split; [reflexivity |].
    injection Ha as Ha. apply andb_prop in Ha. destruct Ha as [E1 E2].
    apply Z.eqb_eq in E1, E2. split; [symmetry; exact E1 |].
    rewrite <- E2. apply (Entry _ _ _ _ _ Ea). unfold BRANCHES, ACCOUNTS. exact Hi.
Qed.

Lemma verify_sound_witness :
  exists db,
    run_xcts (multi_thread_xcts true [example_draws 0]) create_tables = Some db /\
    exists data, get_record (branches db) 3 = Some data /\
      branch_balance_ data =
      INITIAL_ACCOUNT_BALANCE * ACCOUNTS +
      sum_by (branch_share 3) (firstn 100 (histories db)).
Proof.
  eexists. split; [vm_compute; reflexivity |].
  refine (proj1 (proj2 (verify_sound 1 _ _ _)) 3 _).
  - lia.
  - vm_compute. reflexivity.
  - unfold BRANCHES. lia.
Defined.

End TpcbVerifySound.

(** ** The order of the committed transactions *)

Section TpcbOrder.

Import Tpcb.













(** Without contention a client stays in its own part of every table. *)
Lemma xct_of_draw_uncontended client_id i d :
  0 <= client_id < MAX_TEST_THREADS -> 0 <= i < XCTS_PER_THREAD ->
  let x := xct_of_draw client_id false i d in
  8 * client_id <= account_id x < 8 * client_id + 8 /\
  4 * client_id <= teller_id x < 4 * client_id + 4 /\
  2 * client_id <= branch_id x < 2 * client_id + 2 /\
  history_id x = client_id * XCTS_PER_THREAD + i.
Proof.
  intros Hc Hi x.
  destruct (xct_of_draw_plain client_id false i d Hc Hi) as [EA EH].
  fold x in EA, EH.
  change (teller_id x) with (account_id x / ACCOUNTS_PER_TELLER).
  change (branch_id x) with (account_id x / ACCOUNTS).
  rewrite EA, EH. unfold plain_account_id, plain_history_id, ACCOUNTS_PER_TELLER, ACCOUNTS,
    TELLERS.
  change (4 / 2) with 2.
  pose proof (Z.mod_pos_bound (next_uint32 d) 8 ltac:(lia)) as B.
  set (acc := next_uint32 d mod 8 + client_id * 8) in *.
  assert (A : 8 * client_id <= acc < 8 * client_id + 8) by (unfold acc; lia).
  clearbody acc.
  split_and; try lia;
    first [apply Z.div_le_lower_bound; lia | apply Z.div_lt_upper_bound; lia].
Qed.

(** Without contention the clients share no record: the transactions of two
    different clients of [RunTpcbTask::run] with [contended = false] differ
    in the branch, the teller, the account and the history record they
    write, whatever the clients draw.  The client ids are those of
    [multi_thread_test]: from 0 on and, as the constructor's [ASSERT_ND]
    has it, below [MAX_TEST_THREADS]. *)
Theorem uncontended_clients_share_no_record client client' i i' d d' :
  0 <= client < MAX_TEST_THREADS -> 0 <= client' < MAX_TEST_THREADS ->
  client <> client' ->
  0 <= i < XCTS_PER_THREAD -> 0 <= i' < XCTS_PER_THREAD ->
  let x := xct_of_draw client false i d in
  let x' := xct_of_draw client' false i' d' in
  branch_id x <> branch_id x' /\ teller_id x <> teller_id x' /\
  account_id x <> account_id x' /\ history_id x <> history_id x'.
Proof.
  intros Hc Hc' Hne Hi Hi' x x'.
  destruct (xct_of_draw_uncontended client i d Hc Hi) as (A & T & B & H).
  destruct (xct_of_draw_uncontended client' i' d' Hc' Hi') as (A' & T' & B' & H').
  fold x in A, T, B, H. fold x' in A', T', B', H'.
  rewrite H, H'. unfold XCTS_PER_THREAD in *.
  split_and; lia.
Qed.

Lemma uncontended_clients_share_no_record_witness :
  branch_id (xct_of_draw 0 false 5 {| next_uint32 := 4294967295; uniform_within := 3 |}) <>
  branch_id (xct_of_draw 1 false 5 {| next_uint32 := 4294967288; uniform_within := 3 |}).
Proof.
  apply (uncontended_clients_share_no_record 0 1 5 5
           {| next_uint32 := 4294967295; uniform_within := 3 |}
           {| next_uint32 := 4294967288; uniform_within := 3 |});
    unfold MAX_TEST_THREADS, XCTS_PER_THREAD; lia.
Defined.

End TpcbOrder.

(** ** SnapshotOptions: the folder pattern and the keys of the options file *)

Section SnapshotOptionsFacts.

Import SnapshotOptions.
Local Open Scope string_scope.

Lemma replace_from_plain search replacement piece rest :
  match search with String c _ => has_char c piece = false | EmptyString => False end ->
  replace_from 0 search replacement (piece ++ rest) =
  piece ++ replace_from 0 search replacement rest.
Proof.
  destruct search as [| c search']; [contradiction |].
  induction piece as [| c' piece IH]; intros H; [reflexivity |].
  cbn [has_char] in H. apply orb_false_elim in H. destruct H as [Hc Hp].
  cbn [append replace_from starts_with]. rewrite Hc. cbn [andb].
  rewrite (IH Hp). reflexivity.
Qed.

Lemma replace_from_placeholder replacement rest :
  replace_from 0 "$NODE$" replacement ("$NODE$" ++ rest) =
  replacement ++ replace_from 0 "$NODE$" replacement rest.
Proof. reflexivity. Qed.

Lemma has_char_append c s1 s2 :
  has_char c (s1 ++ s2) = has_char c s1 || has_char c s2.
Proof.
  induction s1 as [| c' s1 IH]; [reflexivity |].
  cbn [append has_char]. rewrite IH, orb_assoc. reflexivity.
Qed.

Lemma string_of_uint_digits d : has_char "$" (NilEmpty.string_of_uint d) = false.
Proof. induction d; cbn [NilEmpty.string_of_uint has_char]; auto. Qed.

Lemma decimal_digits n : has_char "$" (decimal n) = false.
Proof.
  unfold decimal, NilZero.string_of_int, NilZero.string_of_uint.
  destruct (Z.to_int n) as [d | d]; destruct d; cbn [has_char];
    rewrite ?string_of_uint_digits; reflexivity.
Qed.

Lemma append_empty_r s : s ++ "" = s.
Proof. induction s as [| c s IH]; [reflexivity | cbn [append]; rewrite IH; reflexivity]. Qed.

Lemma replace_all_pieces node pieces :
  Forall (fun piece => has_char "$" piece = false) pieces ->
  replace_all (join "$NODE$" pieces) "$NODE$" node = join (decimal node) pieces /\
  has_char "$" (join (decimal node) pieces) = false.
Proof.
  unfold replace_all. induction 1 as [| piece rest Hp Hr IH]; [split; reflexivity |].
  destruct rest as [| piece' rest].
  - cbn [join]. split; [| exact Hp].
    rewrite <- (append_empty_r piece) at 1.
    rewrite (replace_from_plain "$NODE$" _ piece "" Hp). apply append_empty_r.
  - destruct IH as [IH1 IH2].
    change (join "$NODE$" (piece :: piece' :: rest))
      with (piece ++ "$NODE$" ++ join "$NODE$" (piece' :: rest)).
    change (join (decimal node) (piece :: piece' :: rest))
      with (piece ++ decimal node ++ join (decimal node) (piece' :: rest)).
    rewrite (replace_from_plain "$NODE$" _ piece _ Hp), replace_from_placeholder, IH1.
    split; [reflexivity |].
    rewrite !has_char_append, Hp, decimal_digits, IH2. reflexivity.
Qed.

(** The decimal text of a number starts with a digit or the sign, and so with
    no character of the placeholder. *)
Lemma decimal_first n :
  match decimal n with
  | EmptyString => False
  | String c _ => has_char c "$NODE$" = false
  end.
Proof.
  unfold decimal, NilZero.string_of_int, NilZero.string_of_uint.
  destruct (Z.to_int n) as [d | d]; [| reflexivity].
  destruct d; reflexivity.
Qed.

(** A text that the replaced text starts with, made of characters the
    replacement does not start with, is what the target started with. *)
Lemma starts_with_replaced replacement s : forall target,
  match replacement with
  | EmptyString => False
  | String c _ => has_char c s = false
  end ->
  starts_with s (replace_from 0 "$NODE$" replacement target) = true ->
  starts_with s target = true.
Proof.
  induction s as [| a s IH]; intros target Hr H; [reflexivity |].
  destruct replacement as [| r replacement]; [contradiction |].
  cbn [has_char] in Hr. apply orb_false_elim in Hr. destruct Hr as [Hra Hrs].
  destruct target as [| b target]; [discriminate |].
  cbn [replace_from] in H.
  destruct (starts_with "$NODE$" (String b target)).
  - cbn [append starts_with] in H. rewrite Ascii.eqb_sym, Hra in H. discriminate.
  - cbn [starts_with] in H |- *. apply andb_prop in H. destruct H as [E H].
    rewrite E. cbn [andb]. apply IH; [exact Hrs | exact H].
Qed.

Lemma occurs_after_plain replacement rest :
  has_char "$" replacement = false ->
  occurs "$NODE$" (replacement ++ rest) = occurs "$NODE$" rest.
Proof.
  induction replacement as [| c replacement IH]; intros H; [reflexivity |].
  cbn [has_char] in H. apply orb_false_elim in H. destruct H as [Hc Hr].
  cbn [append occurs starts_with]. rewrite Hc. cbn [andb orb]. exact (IH Hr).
Qed.

Lemma starts_with_cons a s b t :
  starts_with (String a s) (String b t) = Ascii.eqb a b && starts_with s t.
Proof. reflexivity. Qed.

(** No placeholder is left in the replaced text. *)
Lemma replace_from_no_placeholder replacement target : forall skip,
  match replacement with
  | EmptyString => False
  | String c _ => has_char c "$NODE$" = false
  end ->
  has_char "$" replacement = false ->
  occurs "$NODE$" (replace_from skip "$NODE$" replacement target) = false.
Proof.
  induction target as [| c target IH]; intros skip H1 H2; [destruct skip; reflexivity |].
  destruct skip as [| skip]; cbn [replace_from]; [| apply IH; assumption].
  destruct (starts_with "$NODE$" (String c target)) eqn:S.
  - rewrite (occurs_after_plain _ _ H2). apply IH; assumption.
  - cbn [occurs]. rewrite (IH 0%nat H1 H2), orb_false_r.
    destruct (starts_with "$NODE$" (String c (replace_from 0 "$NODE$" replacement target)))
      eqn:S'; [| reflexivity].
    change "$NODE$" with (String "$" "NODE$") in S, S'.
    rewrite starts_with_cons in S, S'. apply andb_prop in S'. destruct S' as [E S'].
    rewrite E in S. cbn [andb] in S.
    rewrite (starts_with_replaced replacement "NODE$" target) in S; [discriminate | | exact S'].
    destruct replacement as [| r replacement]; [contradiction |].
    cbn [has_char] in H1 |- *. apply orb_false_elim in H1. exact (proj2 H1).
Qed.

Lemma convert_no_placeholder target node :
  occurs "$NODE$" (replace_all target "$NODE$" node) = false.
Proof.
  unfold replace_all. apply replace_from_no_placeholder;
    [apply decimal_first | apply decimal_digits].
Qed.


Lemma starts_with_split search : forall target,
  starts_with search target = true -> exists rest, target = search ++ rest.
Proof.
  induction search as [| a search IH]; intros target H; [exists target; reflexivity |].
  destruct target as [| b target]; [discriminate |].
  cbn [starts_with] in H. apply andb_prop in H. destruct H as [E H].
  apply Ascii.eqb_eq in E. subst b.
  destruct (IH target H) as [rest ->]. exists rest. reflexivity.
Qed.

Lemma starts_with_append search : forall target rest,
  starts_with search target = true -> starts_with search (target ++ rest) = true.
Proof.
  induction search as [| a search IH]; intros target rest H; [reflexivity |].
  destruct target as [| b target]; [discriminate |].
  cbn [starts_with append] in *. apply andb_prop in H. destruct H as [E H].
  rewrite E, (IH target rest H). reflexivity.
Qed.

(** The characters still to be passed over are passed over. *)
Lemma replace_from_skip search replacement passed : forall rest,
  replace_from (String.length passed) search replacement (passed ++ rest) =
  replace_from 0 search replacement rest.
Proof.
  induction passed as [| c passed IH]; intros rest; [reflexivity |].
  cbn [String.length append replace_from]. apply IH.
Qed.

Lemma join_cons separator piece piece' pieces :
  join separator (piece :: piece' :: pieces) =
  piece ++ separator ++ join separator (piece' :: pieces).
Proof. reflexivity. Qed.

Lemma join_first_char separator c piece pieces :
  join separator (String c piece :: pieces) = String c (join separator (piece :: pieces)).
Proof. destruct pieces; reflexivity. Qed.

Lemma append_assoc_string (s1 s2 s3 : string) : (s1 ++ s2) ++ s3 = s1 ++ s2 ++ s3.
Proof. induction s1 as [| c s1 IH]; [reflexivity | cbn [append]; rewrite IH; reflexivity]. Qed.

(** Every text is pieces without the placeholder, with the placeholder
    between them, each placeholder being the first met after the piece
    before it; and the replaced text is the same pieces with the replacement
    between them. *)
Lemma replace_from_pieces n : forall target,
  (String.length target <= n)%nat ->
  exists piece pieces,
    target = join "$NODE$" (piece :: pieces) /\
    Forall (fun piece => occurs "$NODE$" piece = false) (piece :: pieces) /\
    Forall (fun piece => occurs "$NODE$" (piece ++ "$NODE") = false)
           (removelast (piece :: pieces)) /\
    forall replacement,
      replace_from 0 "$NODE$" replacement target = join replacement (piece :: pieces).
Proof.
  induction n as [| n IH]; intros target Hn.
  - destruct target; [| cbn in Hn; lia].
    exists "", []. split_and; [reflexivity | | constructor | reflexivity].
    repeat constructor.
  - destruct target as [| c rest].
    + exists "", []. split_and; [reflexivity | | constructor | reflexivity].
      repeat constructor.
    + cbn [String.length] in Hn.
      destruct (starts_with "$NODE$" (String c rest)) eqn:S.
      * destruct (starts_with_split _ _ S) as [rest' E].
        change ("$NODE$" ++ rest') with (String "$" ("NODE$" ++ rest')) in E.
        injection E as -> ->.
        destruct (IH rest') as (piece & pieces & E & F & L & R).
        { cbn [String.length append] in Hn. lia. }
        exists "", (piece :: pieces). split_and.
        -- rewrite join_cons, <- E. reflexivity.
        -- constructor; [reflexivity | exact F].
        -- change (removelast ("" :: piece :: pieces))
             with ("" :: removelast (piece :: pieces)).
           constructor; [reflexivity | exact L].
        -- intros replacement.
           change (replace_from 0 "$NODE$" replacement _)
             with (replace_from 0 "$NODE$" replacement ("$NODE$" ++ rest')).
           rewrite replace_from_placeholder, R, join_cons. reflexivity.
      * destruct (IH rest ltac:(lia)) as (piece & pieces & E & F & L & R).
        exists (String c piece), pieces. split_and.
        -- rewrite join_first_char, <- E. reflexivity.
        -- inversion F as [| ? ? Fp Fr]. constructor; [| exact Fr].
           cbn [occurs]. rewrite Fp, orb_false_r.
           destruct (starts_with "$NODE$" (String c piece)) eqn:S'; [| reflexivity].
           rewrite E in S. destruct pieces as [| piece' pieces].
           ++ cbn [join] in S. congruence.
           ++ rewrite join_cons in S.
              change (String c (piece ++ "$NODE$" ++ join "$NODE$" (piece' :: pieces)))
                with (String c piece ++ "$NODE$" ++ join "$NODE$" (piece' :: pieces)) in S.
              rewrite (starts_with_append _ _ _ S') in S. discriminate.
        -- destruct pieces as [| piece' pieces]; [constructor |].
           change (removelast (String c piece :: piece' :: pieces))
             with (String c piece :: removelast (piece' :: pieces)).
           change (removelast (piece :: piece' :: pieces))
             with (piece :: removelast (piece' :: pieces)) in L.
           inversion L as [| ? ? Lp Lr]. constructor; [| exact Lr].
           cbn [append occurs]. rewrite Lp, orb_false_r.
           destruct (starts_with "$NODE$" (String c (piece ++ "$NODE"))) eqn:S';
             [| reflexivity].
           rewrite E, join_cons in S.
           replace (String c (piece ++ "$NODE$" ++ join "$NODE$" (piece' :: pieces)))
             with (String c (piece ++ "$NODE") ++ "$" ++ join "$NODE$" (piece' :: pieces))
             in S.
           ++ rewrite (starts_with_append _ _ _ S') in S. discriminate.
           ++ cbn [append]. f_equal. rewrite append_assoc_string. reflexivity.
        -- intros replacement. cbn [replace_from]. rewrite S, R, join_first_char.
           reflexivity.
Qed.

Ltac load_step :=
  match goal with
  | |- context [find_child ?element ?tag] =>
      destruct (find_child element tag) as [[? | ? | ?] |] eqn:?
  end.

(** At a leaf of the case analysis on the children of the element: the
    children found so far are the readable ones. *)
Ltac found_children :=
  unfold readable;
  repeat match goal with
         | H : find_child _ _ = _ |- _ => rewrite ?H; clear H
         end.

Ltac stopped_at n key :=
  exists n, key;
  split; [reflexivity |];
  split; [reflexivity |];
  split; [repeat first [apply Forall_nil | apply Forall_cons]; found_children; reflexivity |];
  found_children; cbn [fst]; split; [split; intros; first [reflexivity | discriminate] |];
  intros; first [reflexivity | discriminate].

(** C8.  [convert_folder_path_pattern] returns the pattern with every
    placeholder $NODE$ replaced by the decimal node id.  Every pattern is
    pieces that hold no placeholder with a placeholder between each two, each
    placeholder the first one met after the piece before it, and what is
    returned is the same pieces with the decimal id between them; no
    placeholder is left in it; and a pattern made of any pieces without the
    character $, with the placeholder between them, is returned as these
    pieces with the decimal id between them, without any $.
    [load] reads the keys [folder_path_pattern_],
    [snapshot_trigger_page_pool_percent_], [snapshot_interval_milliseconds_],
    [log_mapper_bucket_kb_], [log_mapper_io_buffer_kb_],
    [log_reducer_buffer_mb_] and the nested block
    [SnapshotDeviceEmulationOptions], in this order and no other: it reads
    the first key always, goes on while the element holds a child of the
    right kind under the key read and stops with an error at the first key
    where it does not; on an element that holds all seven it succeeds, having
    read all seven, with their values; and a load that succeeds has read all
    seven and holds their values. *)
Theorem snapshot_options_spec :
  (forall options node,
     occurs "$NODE$" (convert_folder_path_pattern options node) = false) /\
  (forall options, exists piece pieces,
     folder_path_pattern_ options = join "$NODE$" (piece :: pieces) /\
     Forall (fun piece => occurs "$NODE$" piece = false) (piece :: pieces) /\
     Forall (fun piece => occurs "$NODE$" (piece ++ "$NODE") = false)
            (removelast (piece :: pieces)) /\
     forall node,
       convert_folder_path_pattern options node = join (decimal node) (piece :: pieces)) /\
  (forall options node pieces,
     Forall (fun piece => has_char "$" piece = false) pieces ->
     folder_path_pattern_ options = join "$NODE$" pieces ->
     convert_folder_path_pattern options node = join (decimal node) pieces /\
     has_char "$" (convert_folder_path_pattern options node) = false) /\
  (forall element, exists n key,
     nth_error recognized_keys n = Some key /\
     snd (load element []) = firstn (S n) recognized_keys /\
     Forall (fun key => readable element key = true) (firstn n recognized_keys) /\
     (fst (load element []) = None <-> readable element key = false) /\
     (readable element key = true -> n = 6%nat)) /\
  (forall element pattern percent interval bucket io_buffer reducer emulation,
     find_child element "folder_path_pattern_" = Some (XmlText pattern) ->
     find_child element "snapshot_trigger_page_pool_percent_" = Some (XmlInteger percent) ->
     find_child element "snapshot_interval_milliseconds_" = Some (XmlInteger interval) ->
     find_child element "log_mapper_bucket_kb_" = Some (XmlInteger bucket) ->
     find_child element "log_mapper_io_buffer_kb_" = Some (XmlInteger io_buffer) ->
     find_child element "log_reducer_buffer_mb_" = Some (XmlInteger reducer) ->
     find_child element "SnapshotDeviceEmulationOptions" = Some (XmlElement emulation) ->
     load element [] =
     (Some {| folder_path_pattern_ := pattern;
              snapshot_trigger_page_pool_percent_ := percent;
              snapshot_interval_milliseconds_ := interval;
              log_mapper_bucket_kb_ := bucket;
              log_mapper_io_buffer_kb_ := io_buffer;
              log_reducer_buffer_mb_ := reducer;
              emulation_ := emulation |},
      recognized_keys)) /\
  (forall element options,
     fst (load element []) = Some options ->
     snd (load element []) = recognized_keys /\
     find_child element "folder_path_pattern_" =
       Some (XmlText (folder_path_pattern_ options)) /\
     find_child element "snapshot_trigger_page_pool_percent_" =
       Some (XmlInteger (snapshot_trigger_page_pool_percent_ options)) /\
     find_child element "snapshot_interval_milliseconds_" =
       Some (XmlInteger (snapshot_interval_milliseconds_ options)) /\
     find_child element "log_mapper_bucket_kb_" =
       Some (XmlInteger (log_mapper_bucket_kb_ options)) /\
     find_child element "log_mapper_io_buffer_kb_" =
       Some (XmlInteger (log_mapper_io_buffer_kb_ options)) /\
     find_child element "log_reducer_buffer_mb_" =
       Some (XmlInteger (log_reducer_buffer_mb_ options)) /\
     find_child element "SnapshotDeviceEmulationOptions" =
       Some (XmlElement (emulation_ options))).
Proof.
  split; [| split; [| split; [| split; [| split]]]].
  - intros options node. apply convert_no_placeholder.
  - intros options.
    destruct (replace_from_pieces _ (folder_path_pattern_ options) (le_n _))
      as (piece & pieces & E & F & L & R).
    exists piece, pieces. split_and; [exact E | exact F | exact L |].
    intros node. apply R.
  - intros options node pieces Hp E. unfold convert_folder_path_pattern. rewrite E.
    destruct (replace_all_pieces node pieces Hp) as [R D]. rewrite R. auto.
  - intros element. unfold load, load_bind, get_text, get_integer, get_child_element, load_ret.
    cbn [app].
    load_step;
      [| stopped_at 0%nat "folder_path_pattern_" ..].
    load_step;
      [stopped_at 1%nat "snapshot_trigger_page_pool_percent_" | |
       stopped_at 1%nat "snapshot_trigger_page_pool_percent_" ..].
    load_step;
      [stopped_at 2%nat "snapshot_interval_milliseconds_" | |
       stopped_at 2%nat "snapshot_interval_milliseconds_" ..].
    load_step;
      [stopped_at 3%nat "log_mapper_bucket_kb_" | |
       stopped_at 3%nat "log_mapper_bucket_kb_" ..].
    load_step;
      [stopped_at 4%nat "log_mapper_io_buffer_kb_" | |
       stopped_at 4%nat "log_mapper_io_buffer_kb_" ..].
    load_step;
      [stopped_at 5%nat "log_reducer_buffer_mb_" | |
       stopped_at 5%nat "log_reducer_buffer_mb_" ..].
    load_step; stopped_at 6%nat "SnapshotDeviceEmulationOptions".
  - intros element pattern percent interval bucket io_buffer reducer emulation
      H1 H2 H3 H4 H5 H6 H7.
    unfold load, load_bind, get_text, get_integer, get_child_element, load_ret.
    rewrite H1, H2, H3, H4, H5, H6, H7. reflexivity.
  - intros element options.
    unfold load, load_bind, get_text, get_integer, get_child_element, load_ret.
    cbn [app].
    repeat (load_step; cbn [fst snd]; try discriminate).
    intros H. injection H as <-. cbn. split_and; reflexivity.
Qed.

(** The example of the comment in [save]: "/data/node_$NODE$ becomes
    /data/node_1 on node-1". *)
Example convert_folder_path_pattern_node_1 :
  convert_folder_path_pattern
    {| folder_path_pattern_ := "/data/node_$NODE$";
       snapshot_trigger_page_pool_percent_ := 100;
       snapshot_interval_milliseconds_ := 60000;
       log_mapper_bucket_kb_ := 1024;
       log_mapper_io_buffer_kb_ := 2048;
       log_reducer_buffer_mb_ := 256;
       emulation_ := [] |} 1 = "/data/node_1".
Proof. vm_compute. reflexivity. Qed.

Example convert_folder_path_pattern_twice :
  replace_all "$NODE$/snapshots/node_$NODE$.dat" "$NODE$" 12 = "12/snapshots/node_12.dat".
Proof. vm_compute. reflexivity. Qed.

(** A pattern with a $ of its own: the placeholders are met from the left,
    and the characters of a placeholder that is replaced start no other. *)
Example convert_folder_path_pattern_stray_dollar :
  replace_all "$$NODE$NODE$/$" "$NODE$" 12 = "$12NODE$/$".
Proof. vm_compute. reflexivity. Qed.

Example load_reads_every_key :
  load
    [("folder_path_pattern_", XmlText "snapshots/node_$NODE$");
     ("snapshot_trigger_page_pool_percent_", XmlInteger 100);
     ("snapshot_interval_milliseconds_", XmlInteger 60000);
     ("log_mapper_bucket_kb_", XmlInteger 1024);
     ("log_mapper_io_buffer_kb_", XmlInteger 2048);
     ("log_reducer_buffer_mb_", XmlInteger 256);
     ("SnapshotDeviceEmulationOptions", XmlElement [])]%list []%list =
  (Some {| folder_path_pattern_ := "snapshots/node_$NODE$";
           snapshot_trigger_page_pool_percent_ := 100;
           snapshot_interval_milliseconds_ := 60000;
           log_mapper_bucket_kb_ := 1024;
           log_mapper_io_buffer_kb_ := 2048;
           log_reducer_buffer_mb_ := 256;
           emulation_ := []%list |},
   recognized_keys).
Proof. vm_compute. reflexivity. Qed.

(** A file without [log_mapper_bucket_kb_]: the load stops there. *)
Example load_stops_at_missing_key :
  load
    [("folder_path_pattern_", XmlText "snapshots/node_$NODE$");
     ("snapshot_trigger_page_pool_percent_", XmlInteger 100);
     ("snapshot_interval_milliseconds_", XmlInteger 60000)]%list []%list =
  (None, firstn 4 recognized_keys).
Proof. vm_compute. reflexivity. Qed.

End SnapshotOptionsFacts.

(** ** [save] and [load] *)

Section SnapshotOptionsSave.

Import SnapshotOptions.
Local Open Scope string_scope.

Lemma find_child_app element rest tag :
  find_child element tag = None ->
  find_child (element ++ rest)%list tag = find_child rest tag.
Proof.
  induction element as [| [name value] element IH]; [reflexivity |].
  cbn [find_child app]. destruct (String.eqb name tag); [discriminate | exact IH].
Qed.

(** What [save] writes, [load] reads back.  When the XML layer accepts every
    call, [save] goes through, writes a child under each of the seven keys, in
    the order [load] reads them, and [load] of the element returns the
    options that were saved, the element having had none of the seven
    children before. *)
Theorem load_after_save options element accepts :
  Forall (fun key => find_child element key = None) recognized_keys ->
  (forall call, accepts call = true) ->
  fst (save options accepts []) = true /\
  flat_map written_tag (snd (save options accepts [])) = recognized_keys /\
  load (written element (snd (save options accepts []))) [] = (Some options, recognized_keys).
Proof.
  intros Hnew Hacc.
  unfold save, save_then, save_call. rewrite !Hacc. cbn [app fst snd].
  split; [reflexivity |]. split; [reflexivity |].
  unfold recognized_keys in Hnew.
  repeat match goal with
         | H : Forall _ (_ :: _) |- _ => inversion H; clear H; subst
         end.
  unfold written, load, load_bind, get_text, get_integer, get_child_element, load_ret.
  cbn [flat_map written_child app].
  repeat (rewrite find_child_app by assumption).
  destruct options. reflexivity.
Qed.

Lemma load_after_save_witness :
  let options := SnapshotOptions_new 5 60000 1024 1024 256 [("disk_latency", 3)] in
  let element := [("comment_", XmlText "kept")] in
  load (written element (snd (save options (fun _ => true) []))) [] =
  (Some options, recognized_keys).
Proof.
  intros options element.
  apply (load_after_save options element (fun _ => true)).
  - repeat constructor.
  - reflexivity.
Defined.

End SnapshotOptionsSave.

(** ** The folders of the nodes *)

Section SnapshotFolders.

Import SnapshotOptions.
Local Open Scope string_scope.

(** Different numbers have different decimal texts. *)
Lemma decimal_inj n n' : decimal n = decimal n' -> n = n'.
Proof.
  unfold decimal. intros H. apply DecimalZ.to_int_inj.
  assert (P : forall z, NilZero.int_of_string (NilZero.string_of_int (Z.to_int z)) =
                        Some (Z.to_int z)).
  { intros [| p | p]; [reflexivity | |]; apply NilZero.isi; cbn; intros [= E];
      exact (Unsigned.to_uint_nonnil p E). }
  pose proof (P n) as Pn. rewrite H, P in Pn. congruence.
Qed.

Lemma length_app_string s1 s2 :
  String.length (s1 ++ s2) = (String.length s1 + String.length s2)%nat.
Proof. induction s1 as [| c s1 IH]; [reflexivity | cbn; rewrite IH; reflexivity]. Qed.

Lemma append_same_length s1 : forall s2 t1 t2,
  String.length s1 = String.length s2 -> s1 ++ t1 = s2 ++ t2 -> s1 = s2.
Proof.
  induction s1 as [| c s1 IH]; intros [| c' s2] t1 t2 L E; try discriminate; [reflexivity |].
  cbn in L, E. injection E as -> E. f_equal. apply (IH s2 t1 t2); [lia | exact E].
Qed.

Lemma append_cancel_l s : forall t1 t2, s ++ t1 = s ++ t2 -> t1 = t2.
Proof.
  induction s as [| c s IH]; intros t1 t2 E; [exact E |].
  cbn in E. injection E as E. apply IH. exact E.
Qed.

(** The length of the joined text: the pieces and one separator between each
    two. *)
Lemma length_join separator piece pieces :
  String.length (join separator (piece :: pieces)) =
  (String.length piece +
   list_sum (List.map (fun p => String.length separator + String.length p) pieces))%nat.
Proof.
  revert piece. induction pieces as [| piece' pieces IH]; intros piece.
  - cbn. lia.
  - change (join separator (piece :: piece' :: pieces))
      with (piece ++ separator ++ join separator (piece' :: pieces)).
    rewrite !length_app_string, IH. cbn [List.map]. unfold list_sum. cbn [fold_right]. lia.
Qed.

Lemma list_sum_shift (a b : nat) pieces :
  (list_sum (List.map (fun p : string => a + String.length p) pieces) + b * List.length pieces =
   list_sum (List.map (fun p : string => b + String.length p) pieces) + a * List.length pieces)%nat.
Proof.
  unfold list_sum.
  induction pieces as [| p pieces IH]; cbn [List.map fold_right List.length]; lia.
Qed.

(** Different nodes get different folders: under a pattern that has a
    placeholder, and no other [$], the folders of two different nodes are
    different texts. *)
Theorem folders_of_nodes_differ options pieces node node' :
  Forall (fun piece => has_char "$" piece = false) pieces ->
  (2 <= List.length pieces)%nat ->
  folder_path_pattern_ options = join "$NODE$" pieces ->
  node <> node' ->
  convert_folder_path_pattern options node <> convert_folder_path_pattern options node'.
Proof.
  intros Hp Hl Hpat Hn E. apply Hn. apply decimal_inj.
  unfold convert_folder_path_pattern in E. rewrite Hpat in E.
  rewrite (proj1 (replace_all_pieces node pieces Hp)) in E.
  rewrite (proj1 (replace_all_pieces node' pieces Hp)) in E.
  destruct pieces as [| piece [| piece' pieces]]; cbn [List.length] in Hl; try lia.
  assert (L : String.length (decimal node) = String.length (decimal node')).
  { pose proof (f_equal String.length E) as L.
    rewrite !length_join in L.
    pose proof (list_sum_shift (String.length (decimal node)) (String.length (decimal node'))
                  (piece' :: pieces)) as S.
    cbn [List.length] in S. nia. }
  change (join ?d (piece :: piece' :: pieces))
    with (piece ++ d ++ join d (piece' :: pieces)) in E.
  apply append_cancel_l in E.
  exact (append_same_length _ _ _ _ L E).
Qed.

(** The folder of a node under the constructor's pattern. *)
Lemma default_folder a b c d e emulation node :
  convert_folder_path_pattern (SnapshotOptions_new a b c d e emulation) node =
  "snapshots/node_" ++ decimal node.
Proof.
  unfold convert_folder_path_pattern. cbn [folder_path_pattern_ SnapshotOptions_new].
  change "snapshots/node_$NODE$" with (join "$NODE$" ["snapshots/node_"; ""]).
  rewrite (proj1 (replace_all_pieces node ["snapshots/node_"; ""] ltac:(repeat constructor))).
  cbn [join]. rewrite append_empty_r. reflexivity.
Qed.

Lemma folders_of_nodes_differ_witness :
  convert_folder_path_pattern (SnapshotOptions_new 5 60000 1024 1024 256 []) 0 <>
  convert_folder_path_pattern (SnapshotOptions_new 5 60000 1024 1024 256 []) 1.
Proof.
  apply (folders_of_nodes_differ (SnapshotOptions_new 5 60000 1024 1024 256 [])
           ["snapshots/node_"; ""] 0 1).
  - repeat constructor.
  - cbn. lia.
  - reflexivity.
  - discriminate.
Defined.

Lemma replace_from_without_occurrence search replacement : forall target,
  occurs search target = false ->
  replace_from 0 search replacement target = target.
Proof.
  induction target as [| c target IH]; intros H; [reflexivity |].
  cbn [occurs] in H. apply orb_false_elim in H. destruct H as [S O].
  cbn [replace_from]. rewrite S, (IH O). reflexivity.
Qed.

(** A pattern that has no placeholder is the folder of every node. *)
Theorem convert_folder_path_pattern_unchanged options node :
  occurs "$NODE$" (folder_path_pattern_ options) = false ->
  convert_folder_path_pattern options node = folder_path_pattern_ options.
Proof.
  intros H. unfold convert_folder_path_pattern, replace_all.
  apply replace_from_without_occurrence. exact H.
Qed.

Lemma convert_folder_path_pattern_unchanged_witness :
  convert_folder_path_pattern
    {| folder_path_pattern_ := "/data/$NODE/snapshots";
       snapshot_trigger_page_pool_percent_ := 5;
       snapshot_interval_milliseconds_ := 60000;
       log_mapper_bucket_kb_ := 1024;
       log_mapper_io_buffer_kb_ := 1024;
       log_reducer_buffer_mb_ := 256;
       emulation_ := [] |} 3 = "/data/$NODE/snapshots".
Proof.
  apply (convert_folder_path_pattern_unchanged
           {| folder_path_pattern_ := "/data/$NODE/snapshots";
              snapshot_trigger_page_pool_percent_ := 5;
              snapshot_interval_milliseconds_ := 60000;
              log_mapper_bucket_kb_ := 1024;
              log_mapper_io_buffer_kb_ := 1024;
              log_reducer_buffer_mb_ := 256;
              emulation_ := [] |} 3).
  reflexivity.
Defined.

(** Converting a converted pattern changes nothing, whatever the pattern. *)
Lemma convert_folder_path_pattern_idempotent options node node' :
  replace_all (convert_folder_path_pattern options node) "$NODE$" node' =
  convert_folder_path_pattern options node.
Proof.
  apply replace_from_without_occurrence. apply convert_no_placeholder.
Qed.

End SnapshotFolders.
